(** * Porphyry.js: the layout core, embedded and verified

    A shallow embedding of the layout pipeline of [porphyry.js]
    (tree building, direction assignment, text wrapping and sizing,
    adaptive spacing, recursive positioning, the draw traversal), and the
    properties its specification states about it.

    Conventions of the embedding:
    - a JS number is a rational ([Q]); NaN and the infinities have no
      counterpart.  The spacing computation is carried out in double
      arithmetic: each product and quotient of [_computeAdaptiveSpacing] is
      rounded to the nearest binary64 number ([fl]), as the code's is.
      Elsewhere sums and products are exact;
    - a JS string is a [string] whose characters stand for UTF-16 code
      units (restricted to code units below 256);
    - an input value is a [jsval]; a thrown exception is [Throw];
    - a node object is a [node] record; a pass that mutates the tree in
      place is a function returning the updated tree;
    - [this._collapsed] (a JS [Set] of ids) is a [gset nat]. *)

From Stdlib Require Import ZArith QArith Qround Qabs Qpower Qreduction Lqa Lia.
From Stdlib Require Import List String Ascii Bool.
From stdpp Require Import base gmap strings.
Import ListNotations.

#[local] Set Warnings "-register-all".
#[local] Arguments Nat.modulo : simpl never.

Local Open Scope string_scope.
Local Open Scope list_scope.

(* ================================================================== *)
(** * JavaScript values, truthiness, property access, exceptions        *)
(* ================================================================== *)

(** The values an input description can hold.  An object is the list of its
    own properties (each key at most once, looked up by first match). *)
Inductive jsval : Type :=
| JUndefined
| JNull
| JBool (b : bool)
| JNum (q : Q)
| JStr (s : string)
| JArr (items : list jsval)
| JObj (fields : list (string * jsval)).

(** The only exception the layout core can raise: the runtime's
    [TypeError] (property access on [null]/[undefined], call of a
    non-function). *)
Inductive js_error : Type :=
| TypeError (msg : string).

Inductive result (A : Type) : Type :=
| Ok (a : A)
| Throw (e : js_error).
Arguments Ok {A} a.
Arguments Throw {A} e.

Definition bind {A B} (r : result A) (k : A -> result B) : result B :=
  match r with
  | Ok a => k a
  | Throw e => Throw e
  end.

Notation "'do' p <- e ; k" := (bind e (fun p => k))
  (at level 10, p pattern, e at level 100, k at level 200).

(** JS [ToBoolean]. *)
Definition truthy (v : jsval) : bool :=
  match v with
  | JUndefined | JNull => false
  | JBool b => b
  | JNum q => negb (Qeq_bool q 0)
  | JStr s => negb (String.eqb s "")
  | JArr _ | JObj _ => true
  end.

(** [a || b]. *)
Definition js_or (a b : jsval) : jsval := if truthy a then a else b.

Fixpoint obj_get (fields : list (string * jsval)) (key : string) : jsval :=
  match fields with
  | [] => JUndefined
  | (k, v) :: rest => if String.eqb k key then v else obj_get rest key
  end.

(** [data.key] for the four keys the builder reads ([topic], [url],
    [direction], [children]): none of them is a property of a number,
    boolean, string or array, so these yield [undefined]; [null] and
    [undefined] throw. *)
Definition js_get (data : jsval) (key : string) : result jsval :=
  match data with
  | JUndefined | JNull =>
      Throw (TypeError ("Cannot read properties of null or undefined, reading " +:+ key))
  | JObj fields => Ok (obj_get fields key)
  | _ => Ok JUndefined
  end.

(** [v === 'lit']. *)
Definition is_str (v : jsval) (lit : string) : bool :=
  match v with
  | JStr s => String.eqb s lit
  | _ => false
  end.

(* ================================================================== *)
(** * Numbers                                                           *)
(* ================================================================== *)

Local Open Scope Q_scope.

Definition Math_max (a b : Q) : Q := if Qle_bool a b then b else a.
Definition Math_min (a b : Q) : Q := if Qle_bool a b then a else b.
Definition Math_ceil (a : Q) : Q := inject_Z (Qceiling a).
(** [Math.round] rounds half-way cases up. *)
Definition Math_round (a : Q) : Q := inject_Z (Qfloor (a + (1 # 2))).
(** [a > b]. *)
Definition Qgt_bool (a b : Q) : bool := negb (Qle_bool a b).

Definition nat_Q (n : nat) : Q := inject_Z (Z.of_nat n).

(** ** Double arithmetic

    A double is [m * 2^e] with a significand [|m| <= 2^53] and an exponent
    [e >= -1074].  An arithmetic operation of the code on doubles yields the
    double nearest to the exact result, a tie going to the even
    significand. *)

(** The position of the leading bit of a positive rational: the [k] with
    [2^k <= q < 2^(k+1)]. *)
Definition Qlog2 (q : Q) : Z :=
  let k := (Z.log2 (Qnum q) - Z.log2 (Zpos (Qden q)))%Z in
  if Qle_bool (2 ^ k) q then k else (k - 1)%Z.

(** The nearest integer, a tie going to the even one. *)
Definition round_half_even (q : Q) : Z :=
  let f := Qfloor q in
  match Qcompare (q - inject_Z f) (1 # 2) with
  | Lt => f
  | Gt => (f + 1)%Z
  | Eq => if Z.even f then f else (f + 1)%Z
  end.

(** The exponent of the last place of the doubles around [q]: 52 places
    below the leading bit, and -1074 in the subnormal range. *)
Definition ulp_exp (q : Q) : Z := Z.max (Qlog2 (Qabs q) - 52) (-1074).

(** The double nearest to [q].  The exponent is not bounded from above:
    from [overflow_threshold] on, where the code's result is [Infinity],
    [fl q] is a number above [max_double], the largest finite double. *)
Definition fl (q : Q) : Q :=
  let q := Qred q in
  if Qeq_bool q 0 then 0
  else let e := ulp_exp q in
       Qred (inject_Z (round_half_even (q / 2 ^ e)) * 2 ^ e).

(** The doubles (the model has no largest one). *)
Definition is_double (d : Q) : Prop :=
  exists m e : Z, (Z.abs m <= 2 ^ 53)%Z /\ (-1074 <= e)%Z /\ d == inject_Z m * 2 ^ e.

(** [Number.MAX_VALUE], and the least number that the code rounds to
    [Infinity]. *)
Definition max_double : Q := inject_Z (2 ^ 53 - 1) * 2 ^ 971.
Definition overflow_threshold : Q := 2 ^ 1024 - 2 ^ 970.

(** [a * b] and [a / b] on doubles.  The operands are doubles: a number
    written as a decimal stands for the double nearest to it, as a literal of
    the code and a number of the options do. *)
Definition fmul (a b : Q) : Q := fl (fl a * fl b).
Definition fdiv (a b : Q) : Q := fl (fl a / fl b).

Arguments fl : simpl never.
Arguments fmul : simpl never.
Arguments fdiv : simpl never.

(* ================================================================== *)
(** * Constants and options                                             *)
(* ================================================================== *)

Definition DEFAULT_COLORS : list string :=
  [ "#E05C5C"; "#F0883E"; "#D4A017"; "#4CAF82"; "#29A8AB";
    "#4A90D9"; "#8B6FD4"; "#D46FAB"; "#5BB8A0"; "#7DAA44" ].

Definition LINK_ICON_SPACE : Q := 25.

Arguments DEFAULT_COLORS : simpl never.
Arguments LINK_ICON_SPACE : simpl never.

(** A per-depth style profile ([options.center], [.branch], [.leaf]). *)
Module Style.
Record t : Type := mk {
    fontSize : Q;
    paddingX : Q;
    paddingY : Q;
    maxWidth : Q }.
End Style.

(** [this.options], the part the layout core reads.  [spacing] is [None]
    when the option is not a number. *)
Module O.
Record t : Type := mk {
    colors : list string;
    layout : string;
    centerEdge : string;
    branchSpacingX : Q;
    subSpacingX : Q;
    verticalSpacing : Q;
    verticalSpacingY : Q;
    horizontalSpacing : Q;
    lineHeight : Q;
    center : Style.t;
    branch : Style.t;
    leaf : Style.t;
    spacing : option Q }.
End O.

Definition DEFAULT_OPTIONS : O.t :=
  O.mk DEFAULT_COLORS "auto" "side" 220 170 50 60 30 (145 # 100)
       (Style.mk 17 28 16 240) (Style.mk 14 18 10 200) (Style.mk 13 10 7 170)
       (Some 1).

(** [this._sp], the effective spacing of one layout pass. *)
Module Sp.
Record t : Type := mk {
    branchSpacingX : Q;
    subSpacingX : Q;
    verticalSpacingY : Q;
    horizontalSpacing : Q;
    verticalSpacing : Q }.
End Sp.

(* ================================================================== *)
(** * Text wrapping                                                     *)
(* ================================================================== *)

(** The code units matched by [\s] (below 256): TAB, LF, VT, FF, CR,
    SPACE, NBSP. *)
Definition is_ws (c : ascii) : bool :=
  let n := nat_of_ascii c in
  ((9 <=? n) && (n <=? 13) || (n =? 32) || (n =? 160))%nat.

(** [text.split(/\s+/)]: the fields between maximal whitespace runs, the
    empty leading and trailing fields included. *)
Fixpoint split_go (field : string) (prev_ws : bool) (s : string) : list string :=
  match s with
  | EmptyString => [field]
  | String c s' =>
      if is_ws c
      then (if prev_ws then split_go "" true s' else field :: split_go "" true s')
      else split_go (field +:+ String c "") false s'
  end.

Definition split_ws (text : string) : list string := split_go "" false text.

(** A string used as a condition: non-empty. *)
Definition nonempty (s : string) : bool := negb (String.eqb s "").

Definition push (l : list string) (s : string) : list string := l ++ [s].

Section WrapText.
Variable maxPx : Q.
Variable measureFn : string -> Q.

  (** The [for] loop of [breakWord], over the characters still to read. *)
Fixpoint breakWord_loop (rest : string) (chunks : list string) (chunk : string)
    : list string * string :=
    match rest with
    | EmptyString => (chunks, chunk)
    | String c rest' =>
        let candidate := chunk +:+ String c "" in
        if Qle_bool (measureFn candidate) maxPx
        then breakWord_loop rest' chunks candidate
        else breakWord_loop rest'
               (if nonempty chunk then push chunks chunk else chunks)
               (String c "")
    end.

Definition breakWord (word : string) : list string :=
    let '(chunks, chunk) := breakWord_loop word [] "" in
    let chunks := if nonempty chunk then push chunks chunk else chunks in
    if (0 <? length chunks)%nat then chunks else [word].

  (** The body of [parts.forEach]; the state is [(lines, current)]. *)
Definition wrap_part (st : list string * string) (part : string)
    : list string * string :=
    let '(lines, current) := st in
    let candidate := if nonempty current then current +:+ " " +:+ part else part in
    if Qle_bool (measureFn candidate) maxPx
    then (lines, candidate)
    else ((if nonempty current then push lines current else lines), part).

  (** The body of [words.forEach]. *)
Definition wrap_word (st : list string * string) (word : string)
    : list string * string :=
    let parts := if Qgt_bool (measureFn word) maxPx then breakWord word else [word] in
    fold_left wrap_part parts st.

Definition wrapText (text : string) : list string :=
    let words := List.filter nonempty (split_ws text) in
    if (length words =? 0)%nat then [""]
    else
      let '(lines, current) := fold_left wrap_word words ([], "") in
      if nonempty current then push lines current else lines.
End WrapText.

(* ================================================================== *)
(** * Nodes                                                             *)
(* ================================================================== *)

(** The node object of [_buildTree].  [parent] holds the parent's [_id]
    in place of the back-reference.  [lineHeight], [paddingX], [paddingY]
    and [lines] do not exist on a node before [_computeSizes] adds them;
    nothing reads them earlier, and they start here at [0] and [[]]. *)
Inductive node : Type := mkNode {
  topic : jsval;
  url : jsval;
  direction : jsval;
  depth : nat;
  parent : option nat;
  colorIdx : Z;
  children : list node;
  _id : nat;
  x : Q;
  y : Q;
  width : Q;
  height : Q;
  fontSize : Q;
  lineHeight : Q;
  paddingX : Q;
  paddingY : Q;
  lines : list string }.

Definition set_children (n : node) (cs : list node) : node :=
  mkNode (topic n) (url n) (direction n) (depth n) (parent n) (colorIdx n) cs
         (_id n) (x n) (y n) (width n) (height n) (fontSize n)
         (lineHeight n) (paddingX n) (paddingY n) (lines n).

Definition set_direction (n : node) (d : jsval) : node :=
  mkNode (topic n) (url n) d (depth n) (parent n) (colorIdx n) (children n)
         (_id n) (x n) (y n) (width n) (height n) (fontSize n)
         (lineHeight n) (paddingX n) (paddingY n) (lines n).

Definition set_xy (n : node) (nx ny : Q) : node :=
  mkNode (topic n) (url n) (direction n) (depth n) (parent n) (colorIdx n)
         (children n) (_id n) nx ny (width n) (height n) (fontSize n)
         (lineHeight n) (paddingX n) (paddingY n) (lines n).

(** The nodes of a subtree in depth-first preorder. *)
Fixpoint preorder (n : node) : list node :=
  n :: flat_map preorder (children n).

(* ================================================================== *)
(** * Tree building                                                     *)
(* ================================================================== *)

(** [_buildTree(data, parent, colorIdx, depth)], with [this._nodeIdCounter]
    threaded through: the result carries the counter after the call.  The
    inner loops walk the fields of [data] to its [children] property and
    then the array held there ([data.children.forEach]). *)
Fixpoint _buildTree (data : jsval) (parent : option nat) (colorIdx : Z)
    (depth : nat) (counter : nat) : result (node * nat) :=
  do vtopic <- js_get data "topic";
  do vurl <- js_get data "url";
  do vdirection <- js_get data "direction";
  let id := counter in
  let counter := S counter in
  let mk cs :=
    mkNode (js_or vtopic (JStr "")) (js_or vurl JNull) (js_or vdirection JNull)
           depth parent colorIdx cs id 0 0 0 0 0 0 0 0 [] in
  let forEach :=
    fix forEach (items : list jsval) (i : nat) (counter : nat)
      : result (list node * nat) :=
      match items with
      | [] => Ok ([], counter)
      | childData :: rest =>
          let ci := if (depth =? 0)%nat
                    then Z.of_nat (i mod length DEFAULT_COLORS)
                    else colorIdx in
          do (child, counter) <- _buildTree childData (Some id) ci (S depth) counter;
          do (cs, counter) <- forEach rest (S i) counter;
          Ok (child :: cs, counter)
      end in
  match data with
  | JObj fields =>
      (fix find (fields : list (string * jsval)) : result (node * nat) :=
         match fields with
         | [] => Ok (mk [], counter)
         | (k, v) :: rest =>
             if String.eqb k "children"
             then match v with
                  | JArr items =>
                      do (cs, counter) <- forEach items 0%nat counter;
                      Ok (mk cs, counter)
                  | _ => Ok (mk [], counter)
                  end
             else find rest
         end) fields
  | _ => Ok (mk [], counter)
  end.

(* ================================================================== *)
(** * Direction assignment                                              *)
(* ================================================================== *)

Fixpoint _propagateDir (n : node) (dir : jsval) : node :=
  set_children (set_direction n dir)
               (List.map (fun c => _propagateDir c dir) (children n)).

(** The predicates of the three [filter] calls of the auto branch. *)
Definition is_fixed (c : node) : bool :=
  is_str (direction c) "left" || is_str (direction c) "right".
Definition is_float (c : node) : bool := negb (truthy (direction c)).

(** [floats.forEach(...)].  [floats] holds, in child order, references to
    the children of the root whose direction is falsy, and the loop writes
    the direction of each in place; as a pass over [root.children] it
    rewrites exactly those children, in order, and leaves the others
    ([assignFloats_in_place] relates the two readings). *)
Fixpoint assignFloats (cs : list node) (rightCount leftCount : nat) : list node :=
  match cs with
  | [] => []
  | c :: rest =>
      if is_float c
      then if (rightCount <=? leftCount)%nat
           then set_direction c (JStr "right") :: assignFloats rest (S rightCount) leftCount
           else set_direction c (JStr "left") :: assignFloats rest rightCount (S leftCount)
      else c :: assignFloats rest rightCount leftCount
  end.

Definition _assignDirections (o : O.t) (root : node) : node :=
  let layout := O.layout o in
  if String.eqb layout "down" || String.eqb layout "up"
  then set_children root (List.map (fun c => _propagateDir c (JStr layout)) (children root))
  else if String.eqb layout "left"
  then set_children root (List.map (fun c => _propagateDir c (JStr "left")) (children root))
  else if String.eqb layout "right"
  then set_children root (List.map (fun c => _propagateDir c (JStr "right")) (children root))
  else
    let fixed := List.filter is_fixed (children root) in
    let rightCount := length (List.filter (fun c => is_str (direction c) "right") fixed) in
    let leftCount := length (List.filter (fun c => is_str (direction c) "left") fixed) in
    let cs := assignFloats (children root) rightCount leftCount in
    set_children root (List.map (fun c => _propagateDir c (direction c)) cs).

(* ================================================================== *)
(** * Size computation                                                  *)
(* ================================================================== *)

Section MeasureText.
(** The canvas measurement [ctx.measureText(text).width] under the font of
    size [fontSize], and the runtime's number-to-string conversion used in
    the cache key. *)
Variable canvas_width : string -> Q -> Q.
Variable show : Q -> string.

Definition cache_key (text : string) (fontSize : Q) : string :=
  text +:+ ":" +:+ show fontSize.

(** [_measureText(text, fontSize)] with [this._textCache] threaded through.
    A cached width is used only when truthy (non-zero). *)
Definition _measureText (cache : gmap string Q) (text : string) (fontSize : Q)
  : Q * gmap string Q :=
  let key := cache_key text fontSize in
  match cache !! key with
  | Some w =>
      if negb (Qeq_bool w 0) then (w, cache)
      else let w := canvas_width text fontSize in (w, <[key := w]> cache)
  | None => let w := canvas_width text fontSize in (w, <[key := w]> cache)
  end.

(** Every cached width is the width the canvas reports for the text and
    font size of its key. *)
Definition cache_consistent (cache : gmap string Q) : Prop :=
  forall text fontSize w,
    cache !! cache_key text fontSize = Some w -> w = canvas_width text fontSize.
End MeasureText.

(** [lines.reduce((m, l) => Math.max(m, measure(l)), 0)]. *)
Definition maxLineW (measure : string -> Q) (ls : list string) : Q :=
  fold_left (fun m l => Math_max m (measure l)) ls 0.

Section ComputeSizes.
Variable o : O.t.
(** [this._measureText], as the function of [(text, fontSize)] it computes
    (see [measureText_cached_sound]). *)
Variable measureText : string -> Q -> Q.

Definition style_of (d : nat) : Style.t :=
  if (d =? 0)%nat then O.center o
  else if (d =? 1)%nat then O.branch o
  else O.leaf o.

Definition measured (n : node) (cs : list node) (ls : list string) : node :=
  let st := style_of (depth n) in
  let fs := Style.fontSize st in
  let px := Style.paddingX st in
  let py := Style.paddingY st in
  let maxW := Style.maxWidth st in
  let iconExtra := if truthy (url n) then LINK_ICON_SPACE else 0 in
  let measure := fun t => measureText t fs in
  let maxLineW := maxLineW measure ls in
  let lh := fs * O.lineHeight o in
  mkNode (topic n) (url n) (direction n) (depth n) (parent n) (colorIdx n) cs
         (_id n) (x n) (y n)
         (Math_ceil (Math_min (maxLineW + px * 2 + iconExtra) maxW))
         (Math_ceil (nat_Q (length ls) * lh + py * 2))
         fs lh px py ls.

(** [wrapText(node.topic, maxContentW, measure)]: [text.split] exists only
    on a string. *)
Definition wrapTopic (n : node) : result (list string) :=
  let st := style_of (depth n) in
  let iconExtra := if truthy (url n) then LINK_ICON_SPACE else 0 in
  let maxContentW := Style.maxWidth st - Style.paddingX st * 2 - iconExtra in
  match topic n with
  | JStr text => Ok (wrapText maxContentW (fun t => measureText t (Style.fontSize st)) text)
  | _ => Throw (TypeError "text.split is not a function")
  end.

Fixpoint _computeSizes (n : node) : result node :=
  do ls <- wrapTopic n;
  do cs <- (fix forEach (cs : list node) : result (list node) :=
              match cs with
              | [] => Ok []
              | c :: rest =>
                  do c' <- _computeSizes c;
                  do rest' <- forEach rest;
                  Ok (c' :: rest')
              end) (children n);
  Ok (measured n cs ls).
End ComputeSizes.

(* ================================================================== *)
(** * Adaptive spacing                                                  *)
(* ================================================================== *)

(** [_maxDepth].  [Math.max(...ds)] of a non-empty list of depths is
    [list_max ds]. *)
Fixpoint _maxDepth (n : node) : nat :=
  if (length (children n) =? 0)%nat then depth n
  else list_max (List.map _maxDepth (children n)).

Definition is_vertical (layout : string) : bool :=
  String.eqb layout "up" || String.eqb layout "down".

(** [depthFactor], with [MIN_FACTOR = 0.45], [FULL_UP_TO = 2] and
    [SCALE_DIVISOR = 2.5]; the division is carried out beyond depth 2 only,
    so its divisor is not zero. *)
Definition depthFactor (maxD : nat) : Q :=
  if (maxD <=? 2)%nat then 1
  else Math_max (fl (45 # 100)) (fdiv (25 # 10) (nat_Q maxD)).

Definition _computeAdaptiveSpacing (o : O.t) (root : node) : Sp.t :=
  let sm := match O.spacing o with Some s => s | None => 1 end in
  if is_vertical (O.layout o)
  then Sp.mk (Math_round (fmul (O.branchSpacingX o) sm))
             (Math_round (fmul (O.subSpacingX o) sm))
             (Math_round (fmul (O.verticalSpacingY o) sm))
             (Math_round (fmul (O.horizontalSpacing o) sm))
             (Math_round (fmul (O.verticalSpacing o) sm))
  else
    let maxD := _maxDepth root in
    let factor := fmul sm (depthFactor maxD) in
    Sp.mk (Math_round (fmul (O.branchSpacingX o) factor))
          (Math_round (fmul (O.subSpacingX o) factor))
          (Math_round (fmul (O.verticalSpacingY o) sm))
          (Math_round (fmul (O.horizontalSpacing o) sm))
          (Math_round (fmul (O.verticalSpacing o) sm)).

(* ================================================================== *)
(** * Layout                                                            *)
(* ================================================================== *)

Section Layout.
Variable o : O.t.
(** [this._sp]: [_renderInternal] runs [_computeAdaptiveSpacing] before
    [_layoutTree], so the guards [this._sp ? ... : ...] take their first
    branch. *)
Variable sp : Sp.t.
Variable collapsed : gset nat.

(** [!node.children.length || this._collapsed.has(node._id)]. *)
Definition childless_or_collapsed (n : node) : bool :=
  (length (children n) =? 0)%nat || bool_decide (_id n ∈ collapsed).

(** [xs.reduce((a, b) => a + b, 0)]. *)
Definition sum (xs : list Q) : Q := fold_left Qplus xs 0.

Fixpoint _subtreeHeight (n : node) : Q :=
  let vs := Sp.verticalSpacing sp in
  if childless_or_collapsed n then height n + vs
  else
    let childH := fold_left (fun acc c => acc + _subtreeHeight c) (children n) 0 in
    Math_max childH (height n + vs).

Fixpoint _subtreeWidth (n : node) : Q :=
  let hs := Sp.horizontalSpacing sp in
  if childless_or_collapsed n then width n + hs
  else
    let childW := fold_left (fun acc c => acc + _subtreeWidth c) (children n) 0 in
    Math_max childW (width n + hs).

(** [_layoutNode(node, anchorX, y, dir)].  The inner loop is
    [node.children.forEach((child, i) => ...)] run along [heights], with
    the running [cy]. *)
Fixpoint _layoutNode (n : node) (anchorX ny : Q) (dir : string) : node :=
  let nx := if String.eqb dir "right"
            then anchorX + width n / 2
            else anchorX - width n / 2 in
  let n' := set_xy n nx ny in
  if childless_or_collapsed n then n'
  else
    let nextAnchor := if String.eqb dir "right"
                      then nx + width n / 2 + Sp.subSpacingX sp
                      else nx - width n / 2 - Sp.subSpacingX sp in
    let heights := List.map _subtreeHeight (children n) in
    let totalH := sum heights in
    set_children n'
      ((fix forEach (cs : list node) (hs : list Q) (cy : Q) : list node :=
          match cs, hs with
          | child :: cs', h :: hs' =>
              _layoutNode child nextAnchor (cy + h / 2) dir :: forEach cs' hs' (cy + h)
          | _, _ => cs
          end) (children n) heights (ny - totalH / 2)).

(** [branches.forEach((branch, i) => ...)] of [_layoutSide].  [branches]
    holds, in child order, references to the children of the root whose
    direction is [dir]; laying one out writes its coordinates in place.  As
    a pass over [root.children] it lays out exactly those children, each
    with the next entry of [heights], and leaves the others
    ([layoutBranches_in_place] relates the two readings). *)
Fixpoint layoutBranches (dir : string) (edgeX : Q) (cs : list node) (hs : list Q) (ly : Q)
  : list node :=
  match cs with
  | [] => []
  | c :: cs' =>
      if is_str (direction c) dir
      then match hs with
           | h :: hs' =>
               _layoutNode c edgeX (ly + h / 2) dir :: layoutBranches dir edgeX cs' hs' (ly + h)
           | [] => cs
           end
      else c :: layoutBranches dir edgeX cs' hs ly
  end.

Definition _layoutSide (root : node) (branches : list node) (dir : string) : node :=
  if (length branches =? 0)%nat then root
  else
    let edgeX :=
      if String.eqb dir "right"
      then (if String.eqb (O.centerEdge o) "side"
            then width root / 2 + Sp.branchSpacingX sp
            else Sp.branchSpacingX sp)
      else (if String.eqb (O.centerEdge o) "side"
            then - (width root / 2 + Sp.branchSpacingX sp)
            else - Sp.branchSpacingX sp) in
    let heights := List.map _subtreeHeight branches in
    let totalH := sum heights in
    set_children root (layoutBranches dir edgeX (children root) heights (- totalH / 2)).

(** [_layoutVerticalNode(node, sign)] on a node whose coordinates have just
    been set to [(nx, ny)]: the source assigns [child.x] and [child.y] and
    then recurses into the child. *)
Fixpoint layoutVerticalAt (n : node) (nx ny : Q) (sign : Q) : node :=
  let n' := set_xy n nx ny in
  if childless_or_collapsed n then n'
  else
    let edgeY := ny + sign * (height n / 2 + Sp.verticalSpacingY sp) in
    let widths := List.map _subtreeWidth (children n) in
    let totalW := sum widths in
    set_children n'
      ((fix forEach (cs : list node) (ws : list Q) (cx : Q) : list node :=
          match cs, ws with
          | child :: cs', w :: ws' =>
              layoutVerticalAt child (cx + w / 2) (edgeY + sign * height child / 2) sign
                :: forEach cs' ws' (cx + w)
          | _, _ => cs
          end) (children n) widths (nx - totalW / 2)).

Definition _layoutVerticalNode (n : node) (sign : Q) : node :=
  layoutVerticalAt n (x n) (y n) sign.

Definition _layoutTree (root : node) : node :=
  let root := set_xy root 0 0 in
  let layout := O.layout o in
  if String.eqb layout "down" || String.eqb layout "up"
  then _layoutVerticalNode root (if String.eqb layout "down" then 1 else -1)
  else
    let rightBranches := List.filter (fun c => is_str (direction c) "right") (children root) in
    let leftBranches := List.filter (fun c => is_str (direction c) "left") (children root) in
    let root := _layoutSide root rightBranches "right" in
    _layoutSide root leftBranches "left".

(* ------------------------------------------------------------------ *)
(** ** The draw traversal: which nodes are shown                        *)
(* ------------------------------------------------------------------ *)

(** The nodes [_drawSubtree] hands to [_drawNode], in order. *)
Fixpoint _drawSubtree (n : node) : list node :=
  if bool_decide (_id n ∈ collapsed) then []
  else flat_map (fun child => child :: _drawSubtree child) (children n).

Definition _drawTree (root : node) : list node := root :: _drawSubtree root.
End Layout.

(** [o.colors[node.colorIdx]], the palette lookup of the drawing code;
    [None] is [undefined]. *)
Definition nodeColor (o : O.t) (n : node) : option string :=
  if (colorIdx n <? 0)%Z then None
  else nth_error (O.colors o) (Z.to_nat (colorIdx n)).

(* ================================================================== *)
(** * The layout pass and [render]                                      *)
(* ================================================================== *)

Section Render.
Variable o : O.t.
Variable measureText : string -> Q -> Q.

(** [_renderInternal] from the reset of [this._nodeIdCounter] to the
    drawing: the positioned tree and the nodes drawn, or the exception that
    escapes to the caller. *)
Definition _renderInternal (collapsed : gset nat) (lastData : jsval)
  : result (node * list node) :=
  do (tree, _) <- _buildTree lastData None (-1)%Z 0%nat 0%nat;
  let tree := _assignDirections o tree in
  do tree <- _computeSizes o measureText tree;
  let sp := _computeAdaptiveSpacing o tree in
  let tree := _layoutTree o sp collapsed tree in
  Ok (tree, _drawTree collapsed tree).

(** [render(data)] clears the collapse state first. *)
Definition render (data : jsval) : result (node * list node) :=
  _renderInternal ∅ data.
End Render.

(* ================================================================== *)
(** * Auxiliary definitions used to state the properties                *)
(* ================================================================== *)

(** The array a node description holds under [children] (empty when
    [Array.isArray(data.children)] is false). *)
Definition children_data (data : jsval) : list jsval :=
  match data with
  | JObj fields =>
      match obj_get fields "children" with
      | JArr items => items
      | _ => []
      end
  | _ => []
  end.

(** The [forEach] of [_buildTree] as a function of its own. *)
Fixpoint buildChildren (items : list jsval) (id : nat) (colorIdx : Z) (depth : nat)
    (i : nat) (counter : nat) : result (list node * nat) :=
  match items with
  | [] => Ok ([], counter)
  | childData :: rest =>
      let ci := if (depth =? 0)%nat
                then Z.of_nat (i mod length DEFAULT_COLORS)
                else colorIdx in
      do (child, counter) <- _buildTree childData (Some id) ci (S depth) counter;
      do (cs, counter) <- buildChildren rest id colorIdx depth (S i) counter;
      Ok (child :: cs, counter)
  end.

(** The node a call of [_buildTree] creates, given its children. *)
Definition built (data : jsval) (parent : option nat) (colorIdx : Z) (depth : nat)
    (id : nat) (cs : list node) : node :=
  let get k := match data with JObj fields => obj_get fields k | _ => JUndefined end in
  mkNode (js_or (get "topic") (JStr "")) (js_or (get "url") JNull)
         (js_or (get "direction") JNull)
         depth parent colorIdx cs id 0 0 0 0 0 0 0 0 [].

(** [null] and [undefined], the values whose properties cannot be read. *)
Definition nullish (v : jsval) : bool :=
  match v with
  | JUndefined | JNull => true
  | _ => false
  end.

(** The root shapes the input schema asks for: a plain object. *)
Definition object_shaped (v : jsval) : bool :=
  match v with
  | JObj _ => true
  | _ => false
  end.

Fixpoint jsize (v : jsval) : nat :=
  match v with
  | JArr items => S (list_sum (List.map jsize items))
  | JObj fields => S (list_sum (List.map (fun kv => jsize (snd kv)) fields))
  | _ => 1
  end.

(** Number of nodes of the tree an input describes. *)
Fixpoint node_count (data : jsval) : nat :=
  match data with
  | JObj fields =>
      (fix find (fields : list (string * jsval)) : nat :=
         match fields with
         | [] => 1%nat
         | (k, v) :: rest =>
             if String.eqb k "children"
             then match v with
                  | JArr items => S (list_sum (List.map node_count items))
                  | _ => 1%nat
                  end
             else find rest
         end) fields
  | _ => 1%nat
  end.

(** No node of the described tree is [null] or [undefined]. *)
Fixpoint readable (data : jsval) : bool :=
  match data with
  | JUndefined | JNull => false
  | JObj fields =>
      (fix find (fields : list (string * jsval)) : bool :=
         match fields with
         | [] => true
         | (k, v) :: rest =>
             if String.eqb k "children"
             then match v with
                  | JArr items => forallb readable items
                  | _ => true
                  end
             else find rest
         end) fields
  | _ => true
  end.

(** [data.key] on a value that is neither [null] nor [undefined]. *)
Definition raw (data : jsval) (key : string) : jsval :=
  match data with
  | JObj fields => obj_get fields key
  | _ => JUndefined
  end.

(** The built tree has the shape of its description: same topics (empty
    when missing) and directions ([null] when missing), children in
    child-array order. *)
Inductive mirrors : jsval -> node -> Prop :=
| mirrors_node (data : jsval) (n : node) :
    topic n = js_or (raw data "topic") (JStr "") ->
    direction n = js_or (raw data "direction") JNull ->
    Forall2 mirrors (children_data data) (children n) ->
    mirrors data n.


(* ------------------------------------------------------------------ *)
(** ** Sample inputs                                                    *)
(* ------------------------------------------------------------------ *)

Definition describe (t : string) (cs : list jsval) : jsval :=
  JObj [("topic", JStr t); ("children", JArr cs)].

Definition describe_leaf (t : string) : jsval := JObj [("topic", JStr t)].

(** [{topic:"Root", children:[{topic:"A"},{topic:"B"},{topic:"C"}]}]. *)
Definition sample_root_ABC : jsval :=
  describe "Root" [describe_leaf "A"; describe_leaf "B"; describe_leaf "C"].

Definition sample_four_branches : jsval :=
  describe "Root" [describe_leaf "A"; describe_leaf "B"; describe_leaf "C";
                   describe_leaf "D"].

(** The options of the README example: a palette of three colors. *)
Definition three_color_options : O.t :=
  O.mk ["#E05C5C"; "#4A90D9"; "#4CAF82"] "auto" "side" 220 170 50 60 30 (145 # 100)
       (Style.mk 17 28 16 240) (Style.mk 14 18 10 200) (Style.mk 13 10 7 170)
       (Some 1).

(** A measurement with 10 pixels of side bearing around the text. *)
Definition padded_measure (text : string) (fontSize : Q) : Q :=
  10 + nat_Q (String.length text) * 8.

(** A measurement that gives every character 8 pixels. *)
Definition eight_per_char (text : string) (fontSize : Q) : Q :=
  nat_Q (String.length text) * 8.

(* ------------------------------------------------------------------ *)
(** ** Direction assignment as the specification words it               *)
(* ------------------------------------------------------------------ *)

(** An explicit pin: the direction is ['left'] or ['right']. *)
Definition pinned (d : jsval) : bool := is_str d "left" || is_str d "right".

(** Follows the specification: pinned children keep their side; each
    unpinned child (no direction), in child-array order, goes to the side
    that currently has strictly fewer assigned children, right winning
    ties.  [rightN] and [leftN] are the running counts. *)
Fixpoint greedy_sides (ds : list jsval) (rightN leftN : nat) : list jsval :=
  match ds with
  | [] => []
  | d :: rest =>
      if pinned d then d :: greedy_sides rest rightN leftN
      else if truthy d then d :: greedy_sides rest rightN leftN
      else if (leftN <? rightN)%nat
           then JStr "left" :: greedy_sides rest rightN (S leftN)
      else if (rightN <? leftN)%nat
           then JStr "right" :: greedy_sides rest (S rightN) leftN
      else JStr "right" :: greedy_sides rest (S rightN) leftN
  end.

(** The running counts start from the pinned children. *)
Definition spec_auto_sides (ds : list jsval) : list jsval :=
  greedy_sides ds
    (length (List.filter (fun d => is_str d "right") ds))
    (length (List.filter (fun d => is_str d "left") ds)).

(** The running counts [(rightCount, leftCount)] after [floats.forEach]
    has gone through the children [cs]. *)
Fixpoint floatCounts (cs : list node) (rightCount leftCount : nat) : nat * nat :=
  match cs with
  | [] => (rightCount, leftCount)
  | c :: rest =>
      if is_float c
      then if (rightCount <=? leftCount)%nat
           then floatCounts rest (S rightCount) leftCount
           else floatCounts rest rightCount (S leftCount)
      else floatCounts rest rightCount leftCount
  end.

(** A childless top-level node with the given id and direction, and a root
    over given children, as [_buildTree] creates them. *)
Definition sample_branch (id : nat) (dir : jsval) : node :=
  mkNode (JStr "B") JNull dir 1 (Some 0%nat) 0 [] id 0 0 0 0 0 0 0 0 [].

Definition sample_root (cs : list node) : node :=
  mkNode (JStr "Root") JNull JNull 0 None (-1) cs 0 0 0 0 0 0 0 0 0 [].

Definition sample_five_unpinned : node :=
  sample_root [sample_branch 1 JNull; sample_branch 2 JNull; sample_branch 3 JNull;
               sample_branch 4 JNull; sample_branch 5 JNull].

(* ------------------------------------------------------------------ *)
(** ** Vocabulary of the text-wrapping and spacing properties           *)
(* ------------------------------------------------------------------ *)

(** A returned line is within the budget, or is a single character that
    alone is wider than the budget. *)
Definition line_ok (maxPx : Q) (measureFn : string -> Q) (l : string) : Prop :=
  measureFn l <= maxPx \/ (String.length l = 1%nat /\ maxPx < measureFn l).

(** A line or chunk the loops of [wrapText] may hold: non-empty and
    [line_ok]; and the condition the state [(lines, current)] of its main
    loop keeps. *)
Definition good_line (maxPx : Q) (measureFn : string -> Q) (s : string) : Prop :=
  s <> "" /\ line_ok maxPx measureFn s.

Definition wrap_state_ok (maxPx : Q) (measureFn : string -> Q)
    (st : list string * string) : Prop :=
  Forall (good_line maxPx measureFn) (fst st)
  /\ (snd st = "" \/ good_line maxPx measureFn (snd st)).

Definition all_whitespace (text : string) : bool :=
  forallb is_ws (list_ascii_of_string text).

(** The leaves of a subtree. *)
Fixpoint leaves (n : node) : list node :=
  if (length (children n) =? 0)%nat then [n]
  else flat_map leaves (children n).

(** A chain of [k + 1] nodes below one another, the first at depth [d]. *)
Fixpoint sample_chain (d k : nat) : node :=
  mkNode (JStr "N") JNull JNull d None (-1)
         (match k with O => [] | S k' => [sample_chain (S d) k'] end)
         d 0 0 0 0 0 0 0 0 [].

(** The default options with [branchSpacingX: 200] and [spacing: 1.15]. *)
Definition sample_scaled_options : O.t :=
  O.mk DEFAULT_COLORS "auto" "side" 200 170 50 60 30 (145 # 100)
       (Style.mk 17 28 16 240) (Style.mk 14 18 10 200) (Style.mk 13 10 7 170)
       (Some (115 # 100)).

(* ------------------------------------------------------------------ *)
(** ** Vocabulary of the layout properties                              *)
(* ------------------------------------------------------------------ *)

(** The box of a node: [width] by [height], centered at [(x, y)]. *)
Definition left_edge (n : node) : Q := x n - width n / 2.
Definition right_edge (n : node) : Q := x n + width n / 2.
Definition top_edge (n : node) : Q := y n - height n / 2.
Definition bottom_edge (n : node) : Q := y n + height n / 2.

(** The interiors of two boxes meet. *)
Definition overlaps (a b : node) : Prop :=
  left_edge a < right_edge b /\ left_edge b < right_edge a /\
  top_edge a < bottom_edge b /\ top_edge b < bottom_edge a.

(** No two nodes of the list, at distinct positions, overlap. *)
Definition no_overlap (ns : list node) : Prop :=
  ForallOrdPairs (fun a b => ~ overlaps a b) ns.

(** Two boxes lie on either side of a vertical or horizontal line. *)
Definition separated (a b : node) : Prop :=
  right_edge a <= left_edge b \/ right_edge b <= left_edge a \/
  bottom_edge a <= top_edge b \/ bottom_edge b <= top_edge a.

(** Every box of the subtree has non-negative width and height. *)
Definition sized (n : node) : Prop :=
  Forall (fun m => 0 <= width m /\ 0 <= height m) (preorder n).

Definition spacing_nonneg (sp : Sp.t) : Prop :=
  0 <= Sp.branchSpacingX sp /\ 0 <= Sp.subSpacingX sp /\
  0 <= Sp.verticalSpacingY sp /\ 0 <= Sp.horizontalSpacing sp /\
  0 <= Sp.verticalSpacing sp.

(** The loops of [_layoutNode] and [_layoutVerticalNode] as functions of
    their own. *)
Fixpoint layoutChildren (sp : Sp.t) (collapsed : gset nat) (nextAnchor : Q)
    (dir : string) (cs : list node) (hs : list Q) (cy : Q) : list node :=
  match cs, hs with
  | child :: cs', h :: hs' =>
      _layoutNode sp collapsed child nextAnchor (cy + h / 2) dir
        :: layoutChildren sp collapsed nextAnchor dir cs' hs' (cy + h)
  | _, _ => cs
  end.

Fixpoint layoutVerticalChildren (sp : Sp.t) (collapsed : gset nat) (edgeY sign : Q)
    (cs : list node) (ws : list Q) (cx : Q) : list node :=
  match cs, ws with
  | child :: cs', w :: ws' =>
      layoutVerticalAt sp collapsed child (cx + w / 2) (edgeY + sign * height child / 2) sign
        :: layoutVerticalChildren sp collapsed edgeY sign cs' ws' (cx + w)
  | _, _ => cs
  end.

(** The nodes drawn below a list of siblings. *)
Definition drawn_below (collapsed : gset nat) (cs : list node) : list node :=
  flat_map (fun child => child :: _drawSubtree collapsed child) cs.

(** A box lies on the far side of the line [x = a] in direction [dir], and
    between the lines [y = lo] and [y = hi]. *)
Definition beyond (dir : string) (a : Q) (b : node) : Prop :=
  if String.eqb dir "right" then a <= left_edge b else right_edge b <= a.

Definition in_band (lo hi : Q) (b : node) : Prop :=
  lo <= top_edge b /\ bottom_edge b <= hi.

(** The same for the vertical modes: beyond [y = e] in the flow direction
    (downward or upward), between [x = lo] and [x = hi]. *)
Definition beyond_row (down : bool) (e : Q) (b : node) : Prop :=
  if down then e <= top_edge b else bottom_edge b <= e.

(** The [sign] argument of [_layoutVerticalNode]. *)
Definition flow_sign (down : bool) : Q := if down then 1 else -1.

Definition in_column (lo hi : Q) (b : node) : Prop :=
  lo <= left_edge b /\ right_edge b <= hi.

(* ------------------------------------------------------------------ *)
(** ** Addressing a node by its path of child indices                   *)
(* ------------------------------------------------------------------ *)

Fixpoint node_at (path : list nat) (n : node) : option node :=
  match path with
  | [] => Some n
  | i :: path' =>
      match children n !! i with
      | Some c => node_at path' c
      | None => None
      end
  end.

(** The tree in which the node at [path] has its children replaced by
    [cs'] and nothing else differs. *)
Fixpoint replace_children_at (path : list nat) (cs' : list node) (n : node) : node :=
  match path with
  | [] => set_children n cs'
  | i :: path' => set_children n (alter (replace_children_at path' cs') i (children n))
  end.

(** What the rendering collaborator reads of a positioned node. *)
Definition geometry (n : node) : nat * Q * Q * Q * Q :=
  (_id n, x n, y n, width n, height n).

(** A root with two branches, the first of which (id 1) has two children
    of its own. *)
Definition sample_sized (id : nat) (dir : jsval) (d : nat) (cs : list node) (w h : Q) : node :=
  mkNode (JStr "N") JNull dir d None 0 cs id 0 0 w h 14 20 18 10 ["N"].

Definition sample_two_levels : node :=
  sample_sized 0 JNull 0
    [ sample_sized 1 (JStr "right") 1
        [ sample_sized 2 (JStr "right") 2 [] 60 30;
          sample_sized 3 (JStr "right") 2 [] 60 90 ] 80 40;
      sample_sized 4 (JStr "right") 1 [] 80 40 ] 100 50.

Definition sample_spacing : Sp.t := Sp.mk 220 170 60 30 50.

(** What [_layoutNode] guarantees for the drawn part of a subtree: all of
    it lies beyond the anchor, inside the footprint slice centered at
    [ny], and its boxes are pairwise separated. *)
Definition region_ok (sp : Sp.t) (collapsed : gset nat) (n : node) : Prop :=
  forall anchorX ny dir,
    let n' := _layoutNode sp collapsed n anchorX ny dir in
    Forall (fun b => beyond dir anchorX b
                     /\ in_band (ny - _subtreeHeight sp collapsed n / 2)
                                (ny + _subtreeHeight sp collapsed n / 2) b)
           (n' :: _drawSubtree collapsed n')
    /\ ForallOrdPairs separated (n' :: _drawSubtree collapsed n').

(** What [_layoutVerticalNode] guarantees for the drawn part of a subtree
    whose root has just been placed at [(nx, ny)]: all of it lies beyond
    the near edge of the root in the flow direction, inside the footprint
    column centered at [nx], and its boxes are pairwise separated. *)
Definition column_ok (sp : Sp.t) (collapsed : gset nat) (n : node) : Prop :=
  forall nx ny down,
    let sign := flow_sign down in
    let n' := layoutVerticalAt sp collapsed n nx ny sign in
    Forall (fun b => beyond_row down (ny - sign * height n / 2) b
                     /\ in_column (nx - _subtreeWidth sp collapsed n / 2)
                                  (nx + _subtreeWidth sp collapsed n / 2) b)
           (n' :: _drawSubtree collapsed n')
    /\ ForallOrdPairs separated (n' :: _drawSubtree collapsed n').

(** A top-level child is on one of the two sides. *)
Definition on_a_side (c : node) : Prop :=
  is_str (direction c) "right" = true \/ is_str (direction c) "left" = true.

(** What the two [_layoutSide] passes guarantee for a drawn box: it is on
    the right of [eR] in the band of the right group, or on the left of
    [eL] in the band of the left group. *)
Definition in_side_bands (eR eL yR hR yL hL : Q) (b : node) : Prop :=
  (eR <= left_edge b /\ in_band yR (yR + hR) b)
  \/ (right_edge b <= eL /\ in_band yL (yL + hL) b).

(** The [edgeX] of [_layoutSide]. *)
Definition side_edge (o : O.t) (sp : Sp.t) (root : node) (dir : string) : Q :=
  if String.eqb dir "right"
  then (if String.eqb (O.centerEdge o) "side"
        then width root / 2 + Sp.branchSpacingX sp
        else Sp.branchSpacingX sp)
  else (if String.eqb (O.centerEdge o) "side"
        then - (width root / 2 + Sp.branchSpacingX sp)
        else - Sp.branchSpacingX sp).

(** The layout mode is one of the two vertical ones, as [_layoutTree]
    tests it. *)
Definition vertical_mode (o : O.t) : bool :=
  String.eqb (O.layout o) "down" || String.eqb (O.layout o) "up".

(* ------------------------------------------------------------------ *)
(** ** Well-formed inputs and valid configurations                      *)
(* ------------------------------------------------------------------ *)

Definition is_string (v : jsval) : bool :=
  match v with
  | JStr _ => true
  | _ => false
  end.

(** Every node of the described tree has a string topic, or none. *)
Fixpoint string_topics (data : jsval) : bool :=
  match data with
  | JObj fields =>
      is_string (js_or (obj_get fields "topic") (JStr ""))
      && (fix find (fields : list (string * jsval)) : bool :=
            match fields with
            | [] => true
            | (k, v) :: rest =>
                if String.eqb k "children"
                then match v with
                     | JArr items => forallb string_topics items
                     | _ => true
                     end
                else find rest
            end) fields
  | _ => true
  end.

(** The [direction] of a node description follows the input schema:
    absent (falsy), ['left'] or ['right']. *)
Definition schema_direction (data : jsval) : bool :=
  let v := raw data "direction" in
  negb (truthy v) || pinned v.

(** ... for every top-level child. *)
Definition schema_directions (data : jsval) : bool :=
  forallb schema_direction (children_data data).

(** The layout mode is none of [left], [right], [down], [up]: the auto
    branch of [_assignDirections] runs. *)
Definition auto_mode (o : O.t) : bool :=
  negb (vertical_mode o || String.eqb (O.layout o) "left"
        || String.eqb (O.layout o) "right").

Definition valid_style (st : Style.t) : Prop :=
  0 <= Style.fontSize st /\ 0 <= Style.paddingX st /\ 0 <= Style.paddingY st
  /\ 0 <= Style.maxWidth st.

(** A valid configuration: positive multiplier and base gaps, style
    values and line height not negative. *)
Definition valid_config (o : O.t) : Prop :=
  match O.spacing o with Some s => 0 < s | None => True end
  /\ 0 < O.branchSpacingX o /\ 0 < O.subSpacingX o /\ 0 < O.verticalSpacing o
  /\ 0 < O.verticalSpacingY o /\ 0 < O.horizontalSpacing o
  /\ 0 <= O.lineHeight o
  /\ valid_style (O.center o) /\ valid_style (O.branch o) /\ valid_style (O.leaf o).

(** The [forEach] of [_computeSizes] as a function of its own. *)
Fixpoint sizeChildren (o : O.t) (measureText : string -> Q -> Q) (cs : list node)
  : result (list node) :=
  match cs with
  | [] => Ok []
  | c :: rest =>
      do c' <- _computeSizes o measureText c;
      do rest' <- sizeChildren o measureText rest;
      Ok (c' :: rest')
  end.

(** The topics of a subtree are all strings. *)
Definition topics_are_strings (n : node) : bool :=
  forallb is_string (List.map topic (preorder n)).

(** A top-level child as the input schema allows it before the sides are
    assigned: no direction, or a pin. *)
Definition unassigned_or_pinned (c : node) : Prop :=
  truthy (direction c) = false \/ pinned (direction c) = true.

(** The default options with [centerEdge: 'vertical']. *)
Definition vertical_edge_options : O.t :=
  O.mk DEFAULT_COLORS "auto" "vertical" 220 170 50 60 30 (145 # 100)
       (Style.mk 17 28 16 240) (Style.mk 14 18 10 200) (Style.mk 13 10 7 170)
       (Some 1).

(** A root with a long label over a single chain of six levels. *)
Definition sample_wide_root_deep : jsval :=
  describe "AAAAAAAAAAAAAAAAAAAAAAA"
    [describe "B" [describe "C" [describe "D" [describe "E" [describe "F"
       [describe_leaf "G"]]]]]].

(** A measurement that returns a negative width for every text. *)
Definition negative_measure (text : string) (fontSize : Q) : Q := -5.

(* ------------------------------------------------------------------ *)
(** ** In-place loops over a filtered array                             *)
(* ------------------------------------------------------------------ *)

(** [root.children.filter(sel)] holds references to elements of
    [root.children]; a reference is rendered as the index of the element.
    [indices_where sel cs] lists, in order, the indices the filter keeps. *)
Fixpoint indices_where (sel : node -> bool) (cs : list node) : list nat :=
  match cs with
  | [] => []
  | c :: rest =>
      (if sel c then [0%nat] else []) ++ List.map S (indices_where sel rest)
  end.

(** [filtered.forEach(...)] where the body rewrites the element it visits
    and updates a loop state of type [St]: each visited index of the
    shared array [cs] is overwritten with the rewritten node. *)
Fixpoint forEach_at {St : Type} (body : St -> node -> node * St) (idx : list nat)
    (cs : list node) (st : St) : list node :=
  match idx with
  | [] => cs
  | i :: rest =>
      match cs !! i with
      | Some c => let '(c', st') := body st c in forEach_at body rest (<[i := c']> cs) st'
      | None => cs
      end
  end.

(** The body of [floats.forEach]: the state is [(rightCount, leftCount)]. *)
Definition float_body (st : nat * nat) (c : node) : node * (nat * nat) :=
  let '(rightCount, leftCount) := st in
  if (rightCount <=? leftCount)%nat
  then (set_direction c (JStr "right"), (S rightCount, leftCount))
  else (set_direction c (JStr "left"), (rightCount, S leftCount)).

(** The body of [branches.forEach] in [_layoutSide]: the state is the
    heights still to use and the running [y]. *)
Definition branch_body (sp : Sp.t) (collapsed : gset nat) (dir : string) (edgeX : Q)
    (st : list Q * Q) (c : node) : node * (list Q * Q) :=
  let '(hs, ly) := st in
  match hs with
  | h :: hs' => (_layoutNode sp collapsed c edgeX (ly + h / 2) dir, (hs', ly + h))
  | [] => (c, ([], ly))
  end.

(* ================================================================== *)
(** * Further vocabulary: directions                                    *)
(* ================================================================== *)

(** The layout mode is one of [left], [right], [down], [up]: one of the
    first three branches of [_assignDirections] runs. *)
Definition forced_mode (o : O.t) : bool :=
  vertical_mode o || String.eqb (O.layout o) "left" || String.eqb (O.layout o) "right".

(** The options [o] with another layout mode. *)
Definition with_layout (o : O.t) (layout : string) : O.t :=
  O.mk (O.colors o) layout (O.centerEdge o) (O.branchSpacingX o) (O.subSpacingX o)
       (O.verticalSpacing o) (O.verticalSpacingY o) (O.horizontalSpacing o)
       (O.lineHeight o) (O.center o) (O.branch o) (O.leaf o) (O.spacing o).

(** Number of nodes of a list whose direction is the string [lit]. *)
Definition count_dir (lit : string) (cs : list node) : nat :=
  length (List.filter (fun c => is_str (direction c) lit) cs).

(** The tree with every direction blanked: what is left of a tree when
    directions are disregarded. *)
Definition without_directions (n : node) : node := _propagateDir n JNull.

(** A root over two pinned branches and three unpinned ones, the second
    of which has a child. *)
Definition sample_mixed_pins : node :=
  sample_root
    [ sample_branch 1 (JStr "left");
      sample_branch 2 JNull;
      mkNode (JStr "C") JNull JNull 1 (Some 0%nat) 2
             [mkNode (JStr "D") JNull (JStr "left") 2 (Some 3%nat) 2 [] 4 0 0 0 0 0 0 0 0 []]
             3 0 0 0 0 0 0 0 0 [];
      sample_branch 5 (JStr "left");
      sample_branch 6 JNull ].

(* ================================================================== *)
(** * Further vocabulary: the built tree                                *)
(* ================================================================== *)

(** Every node of the subtree is the parent its children name, and the
    children are one level deeper. *)
Definition well_linked (n : node) : Prop :=
  Forall (fun m => Forall (fun c => parent c = Some (_id m) /\ depth c = S (depth m))
                          (children m))
         (preorder n).

(** A tree whose second branch is [null]. *)
Definition sample_null_branch : jsval :=
  describe "Root" [describe_leaf "A"; JNull].

(* ================================================================== *)
(** * Collapse toggles                                                  *)
(* ================================================================== *)

(** The nodes [_drawAllToggles] hands to [_drawCollapseBtn], in order. *)
Fixpoint _drawAllToggles (collapsed : gset nat) (n : node) : list node :=
  (if (0 <? depth n)%nat && (0 <? length (children n))%nat then [n] else [])
  ++ (if negb (bool_decide (_id n ∈ collapsed))
      then flat_map (_drawAllToggles collapsed) (children n)
      else []).

(** The click handler [_drawCollapseBtn] installs on the button of the
    node with id [id]: the new content of [this._collapsed].  The handler
    tests the membership it found when the button was drawn; every change
    of the collapse state redraws the buttons ([_renderInternal]), so that
    is the membership at the time of the click. *)
Definition toggle_click (collapsed : gset nat) (id : nat) : gset nat :=
  if bool_decide (id ∈ collapsed) then collapsed ∖ {[ id ]} else collapsed ∪ {[ id ]}.

(** No node on the way from [n] down the child indices [path], the end
    of the path excepted, is collapsed. *)
Fixpoint visible_path (collapsed : gset nat) (path : list nat) (n : node) : bool :=
  match path with
  | [] => true
  | i :: path' =>
      negb (bool_decide (_id n ∈ collapsed))
      && match children n !! i with
         | Some c => visible_path collapsed path' c
         | None => false
         end
  end.

(** A node that gets a collapse button: below the root, with children. *)
Definition has_toggle (n : node) : bool :=
  (0 <? depth n)%nat && (0 <? length (children n))%nat.

(** The first branch of [sample_two_levels]. *)
Definition sample_first_branch : node :=
  sample_sized 1 (JStr "right") 1
    [ sample_sized 2 (JStr "right") 2 [] 60 30;
      sample_sized 3 (JStr "right") 2 [] 60 90 ] 80 40.

(* ================================================================== *)
(** * Further vocabulary: layout                                        *)
(* ================================================================== *)

(** The tree with every position reset to the origin: what is left of a
    tree when positions are disregarded. *)
Fixpoint unplaced (n : node) : node :=
  set_children (set_xy n 0 0) (List.map unplaced (children n)).

(* ================================================================== *)
(** * Further vocabulary: boxes and their text                          *)
(* ================================================================== *)

(** [iconExtra] and [maxContentW] of [_computeSizes], for a node. *)
Definition iconExtra (n : node) : Q :=
  if truthy (url n) then LINK_ICON_SPACE else 0.

Definition maxContentW (o : O.t) (n : node) : Q :=
  let st := style_of o (depth n) in
  Style.maxWidth st - Style.paddingX st * 2 - iconExtra n.

(** What [_computeSizes] establishes for a box: it carries the style of
    its depth and at least one line, is no wider than the rounded-up
    [maxWidth] of that style, is high enough for its lines and vertical
    padding, and wide enough for every line that is within the wrapping
    budget together with the horizontal padding and the icon space. *)
Definition box_fits (o : O.t) (measureText : string -> Q -> Q) (b : node) : Prop :=
  let st := style_of o (depth b) in
  fontSize b = Style.fontSize st
  /\ paddingX b = Style.paddingX st
  /\ paddingY b = Style.paddingY st
  /\ lineHeight b = Style.fontSize st * O.lineHeight o
  /\ lines b <> []
  /\ width b <= Math_ceil (Style.maxWidth st)
  /\ nat_Q (length (lines b)) * lineHeight b + paddingY b * 2 <= height b
  /\ Forall (fun l => measureText l (fontSize b) <= maxContentW o b ->
                      measureText l (fontSize b) + paddingX b * 2 + iconExtra b
                      <= width b)
            (lines b).

(** A linked branch with a long topic under a root. *)
Definition sample_linked : node :=
  sample_root
    [ mkNode (JStr "a long topic that needs more than one line to fit")
             (JStr "https://example.org") (JStr "right") 1 (Some 0%nat) 0 []
             1 0 0 0 0 0 0 0 0 [] ].

(* ------------------------------------------------------------------ *)
(** ** The text element of a node                                       *)
(* ------------------------------------------------------------------ *)

(** A [<tspan>] of [_makeText]: its [x] and [y] attributes and its text.
    Every tspan is anchored at its middle ([text-anchor: middle] on the
    parent, [dominant-baseline: central]). *)
Record tspan : Type := mkTspan {
  tspan_x : Q;
  tspan_y : Q;
  textContent : string }.

(** The [<text>] element: the attributes that vary and the tspans. *)
Record text_el : Type := mkText {
  font_size : Q;
  text_fill : string;
  font_weight : string;
  tspans : list tspan }.

(** [_makeText(lines, cx, cy, fontSize, lineHeight, fill, weight)]. *)
Definition _makeText (lines : list string) (cx cy fontSize lineHeight : Q)
    (fill weight : string) : text_el :=
  let totalH := (nat_Q (length lines) - 1) * lineHeight in
  let startY := cy - totalH / 2 in
  mkText fontSize fill (if String.eqb weight "" then "normal" else weight)
         (imap (fun i line => mkTspan cx (startY + nat_Q i * lineHeight) line) lines).

(** [textX] of [_drawNode], and the text element every branch of
    [_drawNode] creates for the node (the branches differ in [fill] and
    [weight] only). *)
Definition textX (n : node) : Q :=
  if truthy (url n) then x n - LINK_ICON_SPACE / 2 else x n.

Definition node_text (n : node) (fill weight : string) : text_el :=
  _makeText (lines n) (textX n) (y n) (fontSize n) (lineHeight n) fill weight.

(** A line of text, centered at its tspan, lies inside the box of the
    node: vertically inside the padding, and horizontally, when the line
    is within the wrapping budget, inside the padding with the icon space
    left free on the right. *)
Definition tspan_inside (o : O.t) (measureText : string -> Q -> Q) (b : node)
    (s : tspan) : Prop :=
  let w := measureText (textContent s) (fontSize b) in
  top_edge b + paddingY b <= tspan_y s - lineHeight b / 2
  /\ tspan_y s + lineHeight b / 2 <= bottom_edge b - paddingY b
  /\ (w <= maxContentW o b ->
      left_edge b + paddingX b <= tspan_x s - w / 2
      /\ tspan_x s + w / 2 <= right_edge b - paddingX b - iconExtra b).

(* ================================================================== *)
(** * Edges                                                             *)
(* ================================================================== *)

(** The options the edge drawing reads besides those of [O.t]:
    [theme], [edgeWidth.root], [edgeWidth.branch], [edgeWidth.leaf] and
    [edgeOpacity]. *)
Module EdgeOptions.
Record t : Type := mk {
  theme : string;
  root : Q;
  branch : Q;
  leaf : Q;
  edgeOpacity : Q }.
End EdgeOptions.

Definition DEFAULT_EDGE_OPTIONS : EdgeOptions.t :=
  EdgeOptions.mk "classic" (25 # 10) 2 (15 # 10) (85 # 100).

(** The [<path>] an edge is drawn as: the numbers of its
    [d = "M x1 y1 C c1x c1y, c2x c2y, x2 y2"] and the attributes that
    vary.  [stroke] is [o.colors[child.colorIdx]], [None] when that is
    [undefined]. *)
Record edge_path : Type := mkPath {
  x1 : Q; y1 : Q;
  c1x : Q; c1y : Q;
  c2x : Q; c2y : Q;
  x2 : Q; y2 : Q;
  stroke : option string;
  stroke_width : Q;
  opacity : Q }.

(** [_nodeEdgeAnchorY(node, role)]; [role] is not read. *)
Definition _nodeEdgeAnchorY (eo : EdgeOptions.t) (n : node) : Q :=
  let theme := if String.eqb (EdgeOptions.theme eo) "" then "classic"
               else EdgeOptions.theme eo in
  if String.eqb theme "underline" || String.eqb theme "baseline"
  then y n + height n / 2
  else if String.eqb theme "classic" && (1 <? depth n)%nat
  then y n + height n / 2
  else y n.

(** The [strokeW] of both edge drawers. *)
Definition strokeW (eo : EdgeOptions.t) (parent : node) : Q :=
  if (depth parent =? 0)%nat then EdgeOptions.root eo
  else if (depth parent =? 1)%nat then EdgeOptions.branch eo
  else EdgeOptions.leaf eo.

(** [_drawEdgeVertical(parent, child, layout)]. *)
Definition _drawEdgeVertical (o : O.t) (eo : EdgeOptions.t) (parent child : node)
    (layout : string) : edge_path :=
  let sign : Q := if String.eqb layout "down" then 1 else -1 in
  let color := nodeColor o child in
  let x1 := x parent in
  let y1 := y parent + sign * height parent / 2 in
  let x2 := x child in
  let y2 := y child - sign * height child / 2 in
  let my := (y1 + y2) / 2 in
  mkPath x1 y1 x1 my x2 my x2 y2 color (strokeW eo parent) (EdgeOptions.edgeOpacity eo).

(** [_drawEdge(parent, child)]. *)
Definition _drawEdge (o : O.t) (eo : EdgeOptions.t) (parent child : node) : edge_path :=
  let layout := O.layout o in
  if String.eqb layout "down" || String.eqb layout "up"
  then _drawEdgeVertical o eo parent child layout
  else
    let color := nodeColor o child in
    let right := is_str (direction child) "right" in
    let ce := if String.eqb (O.centerEdge o) "" then "side" else O.centerEdge o in
    let '(x1, y1) :=
      if (depth parent =? 0)%nat
      then (if String.eqb ce "vertical"
            then (0, if Qle_bool (y child) 0
                     then - height parent / 2 else height parent / 2)
            else (if right then width parent / 2 else - width parent / 2,
                  _nodeEdgeAnchorY eo parent))
      else (if right then x parent + width parent / 2
            else x parent - width parent / 2,
            _nodeEdgeAnchorY eo parent) in
    let x2 := if right then x child - width child / 2
              else x child + width child / 2 in
    let y2 := _nodeEdgeAnchorY eo child in
    let isVerticalFan := (depth parent =? 0)%nat && String.eqb ce "vertical" in
    let mx := (x1 + x2) / 2 in
    let my := (y1 + y2) / 2 in
    if isVerticalFan
    then mkPath x1 y1 x1 my mx y2 x2 y2 color (strokeW eo parent)
                (EdgeOptions.edgeOpacity eo)
    else mkPath x1 y1 mx y1 mx y2 x2 y2 color (strokeW eo parent)
                (EdgeOptions.edgeOpacity eo).

(** The pairs [(node, child)] for which [_drawSubtree] calls [_drawEdge],
    in order. *)
Fixpoint drawnEdges (collapsed : gset nat) (n : node) : list (node * node) :=
  if bool_decide (_id n ∈ collapsed) then []
  else flat_map (fun child => (n, child) :: drawnEdges collapsed child) (children n).

(** In the vertical modes: the near face of the child is one level gap
    beyond the far face of the parent, in the flow direction [sign]. *)
Definition row_aligned (sp : Sp.t) (sign : Q) (pc : node * node) : Prop :=
  y (snd pc) - sign * height (snd pc) / 2
  == y (fst pc) + sign * height (fst pc) / 2 + sign * Sp.verticalSpacingY sp.

(** The default options in the mode [down]. *)
Definition down_options : O.t := with_layout DEFAULT_OPTIONS "down".

(** In the horizontal modes: the near wall of the child is one sub-level
    gap beyond the far wall of the parent, on the side [dir]. *)
Definition col_aligned (sp : Sp.t) (dir : string) (pc : node * node) : Prop :=
  if String.eqb dir "right"
  then left_edge (snd pc) == right_edge (fst pc) + Sp.subSpacingX sp
  else right_edge (snd pc) == left_edge (fst pc) - Sp.subSpacingX sp.

(** The horizontal gap an edge leaving [p] has to cross: the branch gap
    at the root, the sub-level gap below. *)
Definition edge_gap (sp : Sp.t) (p : node) : Q :=
  if (depth p =? 0)%nat then Sp.branchSpacingX sp else Sp.subSpacingX sp.

(** What holds of the edge [_drawEdge] draws from [p] to its child [c] in
    a horizontal mode: the child is on a side, and below the root the
    parent is on the same one; the edge ends on the near wall of the
    child, starts on the far wall of the parent (at the root with
    [centerEdge] 'vertical': on its vertical axis), and runs exactly the
    gap of that level outwards. *)
Definition horizontal_edge_ok (o : O.t) (eo : EdgeOptions.t) (sp : Sp.t)
    (pc : node * node) : Prop :=
  let p := fst pc in
  let c := snd pc in
  let e := _drawEdge o eo p c in
  let axial := (depth p =? 0)%nat && String.eqb (O.centerEdge o) "vertical" in
  on_a_side c
  /\ ((0 < depth p)%nat -> direction p = direction c)
  /\
  if is_str (direction c) "right"
  then x2 e == left_edge c
       /\ x1 e == (if axial then x p else right_edge p)
       /\ x2 e - x1 e == edge_gap sp p
  else x2 e == right_edge c
       /\ x1 e == (if axial then x p else left_edge p)
       /\ x1 e - x2 e == edge_gap sp p.

(** A top-level branch as [_assignDirections] leaves it in a horizontal
    mode: on a side, with that direction throughout, below the root. *)
Definition branch_ok (c : node) : Prop :=
  on_a_side c
  /\ Forall (fun m => direction m = direction c /\ (0 < depth m)%nat) (preorder c).

(** [sample_two_levels] with its nodes at the depths [_buildTree] gives
    them: a root, a right branch with two children, and a left branch. *)
Definition sample_two_sides : node :=
  sample_sized 0 JNull 0
    [ sample_sized 1 (JStr "right") 1
        [ sample_sized 2 (JStr "right") 2 [] 60 30;
          sample_sized 3 (JStr "right") 2 [] 60 90 ] 80 40;
      sample_sized 4 (JStr "left") 1 [] 80 40 ] 100 50.

(* ================================================================== *)
(** * Pan and zoom                                                      *)
(* ================================================================== *)

(** [this._pz]. *)
Module PZ.
Record t : Type := mk {
  tx : Q;
  ty : Q;
  scale : Q }.
End PZ.

(** The options the view code reads: [minZoom], [maxZoom],
    [zoomSensitivity] and [fitPadding]. *)
Module ViewOptions.
Record t : Type := mk {
  minZoom : Q;
  maxZoom : Q;
  zoomSensitivity : Q;
  fitPadding : Q }.
End ViewOptions.

Definition DEFAULT_VIEW_OPTIONS : ViewOptions.t :=
  ViewOptions.mk (8 # 100) 4 (12 # 100) 20.

(** What a view operation leaves in [this._pz]: nothing new, a new
    transform, or numbers that are not finite ([Infinity] or [NaN], which
    a division by zero produces and the rational model does not hold). *)
Inductive outcome : Type :=
| Unchanged
| Moved (pz : PZ.t)
| NotFinite.

(** The lines shared, word for word, by [_hudZoom], the wheel handler and
    the pinch handler: zoom by [factor] about the point [(mx, my)] of the
    container.  With [scale = 0] the quotient [newScale / scale] is
    [Infinity] or [NaN], and so are the new [tx] and [ty]. *)
Definition zoomAbout (vo : ViewOptions.t) (pz : PZ.t) (mx my factor : Q) : outcome :=
  let newScale := Math_min (ViewOptions.maxZoom vo)
                    (Math_max (ViewOptions.minZoom vo) (PZ.scale pz * factor)) in
  if Qeq_bool (PZ.scale pz) 0 then NotFinite
  else
    let tx := mx - (mx - PZ.tx pz) * (newScale / PZ.scale pz) in
    let ty := my - (my - PZ.ty pz) * (newScale / PZ.scale pz) in
    Moved (PZ.mk tx ty newScale).

(** [_hudZoom(factor)] in a container of the given client size. *)
Definition _hudZoom (vo : ViewOptions.t) (clientWidth clientHeight : Q) (pz : PZ.t)
    (factor : Q) : outcome :=
  let cw := clientWidth / 2 in
  let ch := clientHeight / 2 in
  zoomAbout vo pz cw ch factor.

(** The [wheel] listener of [_bindPanZoom], at the point [(mx, my)] of the
    container with scroll amount [deltaY]. *)
Definition wheel (vo : ViewOptions.t) (pz : PZ.t) (mx my deltaY : Q) : outcome :=
  let direction : Q := if Qlt_le_dec deltaY 0 then 1 else -1 in
  let factor := 1 + direction * ViewOptions.zoomSensitivity vo in
  zoomAbout vo pz mx my factor.

(** The result of [getBBox()]. *)
Module BBox.
Record t : Type := mk {
  x : Q;
  y : Q;
  width : Q;
  height : Q }.
End BBox.

(** [fit()] once a tree has been rendered, in a container of the given
    client size; [bbox] is [None] when [getBBox] throws or returns nothing.
    [scaleY] is [Infinity] when the box has no height and the container
    has room, in which case [Math.min] ignores it; with no height and no
    room the scale is [-Infinity] or [NaN]. *)
Definition fit (vo : ViewOptions.t) (clientWidth clientHeight : Q)
    (bbox : option BBox.t) : outcome :=
  match bbox with
  | None => Unchanged
  | Some bbox =>
      if Qeq_bool (BBox.width bbox) 0 then Unchanged
      else
        let cw := clientWidth in
        let ch := clientHeight in
        let p := ViewOptions.fitPadding vo in
        let scaleX := (cw - p * 2) / BBox.width bbox in
        let place scale :=
          Moved (PZ.mk (cw / 2 - (BBox.x bbox + BBox.width bbox / 2) * scale)
                       (ch / 2 - (BBox.y bbox + BBox.height bbox / 2) * scale)
                       scale) in
        if Qeq_bool (BBox.height bbox) 0
        then (if Qlt_le_dec 0 (ch - p * 2)
              then place (Math_min scaleX (14 # 10))
              else NotFinite)
        else
          let scaleY := (ch - p * 2) / BBox.height bbox in
          place (Math_min (Math_min scaleX scaleY) (14 # 10))
  end.

(** The view [pz'] is the view [pz] zoomed about the point [(mx, my)] of
    the container within the zoom limits: its scale is the clamped
    product, no more than [maxZoom] and (when the limits are in order) no
    less than [minZoom]; and whatever point [(cx, cy)] of the content was
    shown at [(mx, my)] still is. *)
Definition zoomed_about (vo : ViewOptions.t) (pz pz' : PZ.t) (mx my factor : Q) : Prop :=
  PZ.scale pz' = Math_min (ViewOptions.maxZoom vo)
                   (Math_max (ViewOptions.minZoom vo) (PZ.scale pz * factor))
  /\ PZ.scale pz' <= ViewOptions.maxZoom vo
  /\ (ViewOptions.minZoom vo <= ViewOptions.maxZoom vo ->
      ViewOptions.minZoom vo <= PZ.scale pz')
  /\ forall cx cy,
       mx == PZ.tx pz + PZ.scale pz * cx ->
       my == PZ.ty pz + PZ.scale pz * cy ->
       mx == PZ.tx pz' + PZ.scale pz' * cx
       /\ my == PZ.ty pz' + PZ.scale pz' * cy.

(** The view [reset] sets in a container of 800 by 600. *)
Definition sample_view : PZ.t := PZ.mk 400 300 1.

(** A bounding box 1000 wide and 400 high around the origin. *)
Definition sample_bbox : BBox.t := BBox.mk (-500) (-200) 1000 400.

(* ================================================================== *)
(** * Further vocabulary: text                                          *)
(* ================================================================== *)

(** The text with its whitespace characters dropped. *)
Fixpoint strip (s : string) : string :=
  match s with
  | EmptyString => EmptyString
  | String c s' => if is_ws c then strip s' else String c (strip s')
  end.

(** The characters of a list of lines, in order, whitespace dropped. *)
Fixpoint squeeze (ls : list string) : string :=
  match ls with
  | [] => EmptyString
  | l :: ls' => strip l +:+ squeeze ls'
  end.

(* ================================================================== *)
(** * Further vocabulary: the measurement cache                         *)
(* ================================================================== *)

(** A run of calls [_measureText(text, fontSize)], one per request, on
    the same instance: the widths returned, and the cache at the end. *)
Fixpoint measureAll (canvas_width : string -> Q -> Q) (show : Q -> string)
    (cache : gmap string Q) (reqs : list (string * Q)) : list Q * gmap string Q :=
  match reqs with
  | [] => ([], cache)
  | (text, fontSize) :: rest =>
      let '(w, cache) := _measureText canvas_width show cache text fontSize in
      let '(ws, cache) := measureAll canvas_width show cache rest in
      (w :: ws, cache)
  end.

(** A number printer that knows one font size only. *)
Definition show_fourteen (fontSize : Q) : string := "14".

(* ================================================================== *)
(** * Further vocabulary: spacing                                       *)
(* ================================================================== *)

(** [sm] of [_computeAdaptiveSpacing]. *)
Definition spacing_multiplier (o : O.t) : Q :=
  match O.spacing o with Some s => s | None => 1 end.

(* ================================================================== *)
(** * Further vocabulary: sides                                         *)
(* ================================================================== *)

(** Two placed boxes of the same node that are mirror images of one
    another in the vertical axis through the origin. *)
Definition mirror_images (l r : node) : Prop :=
  x l == - x r /\ y l = y r /\ width l = width r /\ height l = height r
  /\ _id l = _id r.

(** [centerEdge] is one of the two documented values. *)
Definition known_center_edge (o : O.t) : Prop :=
  O.centerEdge o = "side" \/ O.centerEdge o = "vertical".

(* ================================================================== *)
(** * Collapse buttons                                                  *)
(* ================================================================== *)

(** The [<circle>] of a collapse button: center and radius. *)
Module Circle.
Record t : Type := mk {
  cx : Q;
  cy : Q;
  r : Q }.
End Circle.

(** [_drawCollapseBtn(node)]: where the button goes. *)
Definition _drawCollapseBtn (o : O.t) (n : node) : Circle.t :=
  let layout := O.layout o in
  let vertical := String.eqb layout "up" || String.eqb layout "down" in
  let R : Q := 8 in
  let '(bx, by') :=
    if vertical
    then (x n, if String.eqb layout "down"
               then y n + height n / 2 + R + 1
               else y n - height n / 2 - R - 1)
    else
      let dir := js_or (direction n) (JStr "right") in
      (if is_str dir "right"
       then x n + width n / 2 + R + 1
       else x n - width n / 2 - R - 1,
       y n) in
  Circle.mk bx by' R.

(** The button of [p] lies in the gap between [p] and its child [c]: on
    the axis of [p], one pixel clear of the far side of [p], and short of
    the near side of [c] by the level gap less the 17 pixels the button
    takes. *)
Definition toggle_in_gap (o : O.t) (sp : Sp.t) (pc : node * node) : Prop :=
  let p := fst pc in
  let c := snd pc in
  let b := _drawCollapseBtn o p in
  if vertical_mode o
  then Circle.cx b = x p
       /\ (if String.eqb (O.layout o) "down"
           then Circle.cy b - Circle.r b == bottom_edge p + 1
                /\ top_edge c - (Circle.cy b + Circle.r b) == Sp.verticalSpacingY sp - 17
           else Circle.cy b + Circle.r b == top_edge p - 1
                /\ (Circle.cy b - Circle.r b) - bottom_edge c == Sp.verticalSpacingY sp - 17)
  else Circle.cy b = y p
       /\ (if is_str (direction c) "right"
           then Circle.cx b - Circle.r b == right_edge p + 1
                /\ left_edge c - (Circle.cx b + Circle.r b) == Sp.subSpacingX sp - 17
           else Circle.cx b + Circle.r b == left_edge p - 1
                /\ (Circle.cx b - Circle.r b) - right_edge c == Sp.subSpacingX sp - 17).

(** A box drawn on its side of the root: to the right of the branch gap
    when its direction is ['right'], to the left of it when ['left']. *)
Definition side_ok (sp : Sp.t) (b : node) : Prop :=
  (is_str (direction b) "right" = true -> Sp.branchSpacingX sp <= left_edge b)
  /\ (is_str (direction b) "left" = true -> right_edge b <= - Sp.branchSpacingX sp).

(* ================================================================== *)
(** * The link icon                                                     *)
(* ================================================================== *)

(** [_makeLinkIcon(node, color)]: the points of its two paths, the box
    outline [M ix+3 iy H ix+s V iy+s H ix V iy+3] and the arrow
    [M ix iy+s L ix-5 iy+s+5]. *)
Definition _makeLinkIcon (n : node) : list (Q * Q) * list (Q * Q) :=
  let s : Q := 9 in
  let margin : Q := 12 in
  let ix := x n + width n / 2 - margin - s in
  let iy := y n - s / 2 in
  ([(ix + 3, iy); (ix + s, iy); (ix + s, iy + s); (ix, iy + s); (ix, iy + 3)],
   [(ix, iy + s); (ix - 5, iy + s + 5)]).

(** The points of the icon [_drawNode] adds to a node: none unless the
    node has a link. *)
Definition icon_points (n : node) : list (Q * Q) :=
  if truthy (url n)
  then fst (_makeLinkIcon n) ++ snd (_makeLinkIcon n)
  else [].

(** A point of the icon of [b] is between 26 and 12 pixels to the left
    of the right wall of the box, and to the right of every line of its
    text that is within the wrapping budget, by at least the horizontal
    padding less one pixel. *)
Definition icon_clear (o : O.t) (measureText : string -> Q -> Q) (b : node)
    (pt : Q * Q) : Prop :=
  right_edge b - 26 <= fst pt /\ fst pt <= right_edge b - 12
  /\ Forall (fun s =>
               let w := measureText (textContent s) (fontSize b) in
               w <= maxContentW o b ->
               tspan_x s + w / 2 + (paddingX b - 1) <= fst pt)
            (tspans (node_text b "" "")).

(** A root over one linked branch. *)
Definition sample_with_link : jsval :=
  JObj [("topic", JStr "Root");
        ("children", JArr [JObj [("topic", JStr "Read the docs");
                                 ("url", JStr "https://example.org")]])].

(* ================================================================== *)
(** * Further vocabulary: layouts under two collapse states             *)
(* ================================================================== *)

(** Two laid-out versions of a subtree agree, in the reading [f] (a
    coordinate), on every node that is shown in both: at the end of a
    path that is visible under the collapse state of each. *)
Definition agree_where_shown (f : node -> Q) (c1 c2 : gset nat) (n1 n2 : node) : Prop :=
  forall path m1 m2,
    node_at path n1 = Some m1 -> node_at path n2 = Some m2 ->
    visible_path c1 path n1 = true -> visible_path c2 path n2 = true ->
    f m1 = f m2.
(* ================================================================== *)
(** * Properties of tree building                                       *)
(* ================================================================== *)

Lemma bind_Ok_inv {A B} (r : result A) (k : A -> result B) (b : B) :
  bind r k = Ok b -> exists a, r = Ok a /\ k a = Ok b.
Proof. destruct r; simpl; [eauto | discriminate]. Qed.

Lemma node_count_eq (data : jsval) :
  node_count data = S (list_sum (List.map node_count (children_data data))).
Proof.
  destruct data; try reflexivity.
  simpl. induction fields as [|[k v] rest IH]; [reflexivity|].
  simpl. destruct (String.eqb k "children"); [|exact IH].
  destruct v; reflexivity.
Qed.

Lemma readable_eq (data : jsval) :
  readable data = negb (nullish data) && forallb readable (children_data data).
Proof.
  destruct data; try reflexivity.
  simpl. induction fields as [|[k v] rest IH]; [reflexivity|].
  simpl. destruct (String.eqb k "children"); [|exact IH].
  destruct v; reflexivity.
Qed.

(** The recursion equation of [_buildTree], with the loops named. *)
Lemma buildTree_eq (data : jsval) (parent : option nat) (colorIdx : Z)
    (depth counter : nat) :
  _buildTree data parent colorIdx depth counter =
  if nullish data
  then Throw (TypeError ("Cannot read properties of null or undefined, reading " +:+ "topic"))
  else
    do (cs, counter') <- buildChildren (children_data data) counter colorIdx depth 0 (S counter);
    Ok (built data parent colorIdx depth counter cs, counter').
Proof.
  assert (Hloop : forall id items i c,
    (fix forEach (items : list jsval) (i : nat) (counter : nat)
       : result (list node * nat) :=
       match items with
       | [] => Ok ([], counter)
       | childData :: rest =>
           let ci := if (depth =? 0)%nat
                     then Z.of_nat (i mod length DEFAULT_COLORS)
                     else colorIdx in
           do (child, counter) <- _buildTree childData (Some id) ci (S depth) counter;
           do (cs, counter) <- forEach rest (S i) counter;
           Ok (child :: cs, counter)
       end) items i c = buildChildren items id colorIdx depth i c).
  { intros id. induction items as [|d rest IH]; intros i c; [reflexivity|].
    simpl. destruct (_buildTree d _ _ _ c) as [[child c']|]; simpl; [|reflexivity].
    rewrite IH. reflexivity. }
  destruct data; try reflexivity.
  simpl. unfold built.
  generalize (obj_get fields "topic"), (obj_get fields "url"),
    (obj_get fields "direction").
  intros vt vu vd.
  induction fields as [|[k v] rest IH]; [reflexivity|].
  simpl. destruct (String.eqb k "children"); [|exact IH].
  destruct v; try reflexivity.
  rewrite Hloop. reflexivity.
Qed.

Lemma children_data_smaller (data c : jsval) :
  In c (children_data data) -> (jsize c < jsize data)%nat.
Proof.
  destruct data; simpl; try tauto.
  induction fields as [|[k v] rest IH]; simpl; [tauto|].
  destruct (String.eqb k "children").
  - destruct v; simpl; try tauto.
    intros Hin.
    assert (jsize c <= list_sum (List.map jsize items))%nat; [|lia].
    clear IH. induction items as [|d items IHi]; simpl in *; [tauto|].
    destruct Hin as [->|Hin]; [lia|]. specialize (IHi Hin). lia.
  - intros Hin. specialize (IH Hin). lia.
Qed.

(** Induction over the tree an input describes. *)
Lemma jsval_tree_ind (P : jsval -> Prop) :
  (forall data, Forall P (children_data data) -> P data) ->
  forall data, P data.
Proof.
  intros step data.
  remember (jsize data) as k eqn:Hk.
  revert data Hk. induction k as [k IH] using lt_wf_ind. intros data ->.
  apply step. apply List.Forall_forall. intros c Hin.
  apply (IH (jsize c)); [apply children_data_smaller; exact Hin | reflexivity].
Qed.

Lemma buildChildren_ids (items : list jsval) :
  Forall (fun data => forall parent ci depth counter,
            exists t, _buildTree data parent ci depth counter
                      = Ok (t, (counter + node_count data)%nat)
                   /\ List.map _id (preorder t) = seq counter (node_count data)
                   /\ mirrors data t) items ->
  forall id ci depth i counter,
  exists cs, buildChildren items id ci depth i counter
             = Ok (cs, (counter + list_sum (List.map node_count items))%nat)
          /\ List.map _id (flat_map preorder cs)
             = seq counter (list_sum (List.map node_count items))
          /\ Forall2 mirrors items cs.
Proof.
  induction 1 as [|d rest Hd _ IH]; intros id ci depth i counter.
  - exists []. simpl. rewrite Nat.add_0_r. auto.
  - cbn [buildChildren List.map list_sum].
    destruct (Hd (Some id)
                (if (depth =? 0)%nat then Z.of_nat (i mod length DEFAULT_COLORS) else ci)
                (S depth) counter) as (t & Ht & Hids & Hm).
    rewrite Ht. simpl bind.
    destruct (IH id ci depth (S i) (counter + node_count d)%nat) as (cs & Hcs & Hids' & Hms).
    rewrite Hcs. simpl bind.
    exists (t :: cs). simpl list_sum.
    split; [rewrite Nat.add_assoc; reflexivity|].
    split; [|constructor; assumption].
    change (flat_map preorder (t :: cs)) with (preorder t ++ flat_map preorder cs).
    rewrite List.map_app, Hids, Hids', <- seq_app. reflexivity.
Qed.

Lemma forallb_Forall_readable (items : list jsval) (P : jsval -> Prop) :
  Forall (fun data => readable data = true -> P data) items ->
  forallb readable items = true -> Forall P items.
Proof.
  induction 1 as [|d rest Hd _ IH]; simpl; intros Hr; [constructor|].
  apply andb_true_iff in Hr as [Hr1 Hr2]. constructor; auto.
Qed.

Lemma buildTree_ids (data : jsval) :
  readable data = true ->
  forall parent ci depth counter,
  exists t, _buildTree data parent ci depth counter = Ok (t, (counter + node_count data)%nat)
         /\ List.map _id (preorder t) = seq counter (node_count data)
         /\ mirrors data t.
Proof.
  induction data as [data IH] using jsval_tree_ind.
  intros Hr parent ci depth counter.
  rewrite readable_eq in Hr. apply andb_true_iff in Hr as [Hn Hc].
  apply negb_true_iff in Hn.
  rewrite buildTree_eq, Hn.
  pose proof (forallb_Forall_readable _ _ IH Hc) as Hall.
  destruct (buildChildren_ids _ Hall counter ci depth 0%nat (S counter))
    as (cs & Hcs & Hids & Hms).
  rewrite Hcs. simpl bind.
  rewrite node_count_eq.
  exists (built data parent ci depth counter cs).
  split; [rewrite Nat.add_succ_r; reflexivity|]. split.
  - simpl. rewrite Hids. reflexivity.
  - constructor; [destruct data; reflexivity | destruct data; reflexivity | exact Hms].
Qed.

(** ** Color indices *)

Lemma buildChildren_children_inv (items : list jsval) (id : nat) (ci : Z)
    (depth i counter : nat) (cs : list node) (counter' : nat) :
  buildChildren items id ci depth i counter = Ok (cs, counter') ->
  forall j child, nth_error cs j = Some child ->
  exists data c0 c1,
    nth_error items j = Some data /\
    _buildTree data (Some id)
      (if (depth =? 0)%nat then Z.of_nat ((i + j) mod length DEFAULT_COLORS) else ci)
      (S depth) c0 = Ok (child, c1).
Proof.
  revert i counter cs counter'.
  induction items as [|d rest IH]; intros i counter cs counter' H j child Hj.
  - simpl in H. injection H as <- <-. destruct j; discriminate.
  - cbn [buildChildren] in H.
    apply bind_Ok_inv in H as ([t c1] & Ht & H).
    apply bind_Ok_inv in H as ([cs' c2] & Hcs & H).
    injection H as <- <-.
    destruct j as [|j]; simpl in Hj.
    + injection Hj as <-. exists d, counter, c1. rewrite Nat.add_0_r. auto.
    + destruct (IH _ _ _ _ Hcs j child Hj) as (data & c0 & c3 & Hnth & Hb).
      exists data, c0, c3. split; [exact Hnth|].
      replace (i + S j)%nat with (S i + j)%nat by lia. exact Hb.
Qed.

Lemma buildTree_inv (data : jsval) (parent : option nat) (ci : Z)
    (depth counter : nat) (t : node) (counter' : nat) :
  _buildTree data parent ci depth counter = Ok (t, counter') ->
  exists cs,
    buildChildren (children_data data) counter ci depth 0 (S counter) = Ok (cs, counter')
    /\ t = built data parent ci depth counter cs.
Proof.
  rewrite buildTree_eq. destruct (nullish data); [discriminate|].
  intros H. apply bind_Ok_inv in H as ([cs c] & Hcs & H).
  injection H as <- <-. eauto.
Qed.

(** Below the root every node of a built subtree carries the color index
    the call was given. *)
Lemma buildTree_color_inherited (data : jsval) :
  forall parent ci depth counter t counter',
  (0 < depth)%nat ->
  _buildTree data parent ci depth counter = Ok (t, counter') ->
  Forall (fun n => colorIdx n = ci) (preorder t).
Proof.
  induction data as [data IH] using jsval_tree_ind.
  intros parent ci depth counter t counter' Hd H.
  apply buildTree_inv in H as (cs & Hcs & ->).
  simpl. constructor; [reflexivity|].
  apply List.Forall_forall. intros n Hn.
  apply in_flat_map in Hn as (child & Hchild & Hn).
  apply In_nth_error in Hchild as (j & Hj).
  destruct (buildChildren_children_inv _ _ _ _ _ _ _ _ Hcs j child Hj)
    as (d & c0 & c1 & Hnth & Hb).
  destruct depth as [|depth]; [lia|]. simpl in Hb.
  rewrite List.Forall_forall in IH.
  assert (Hin : In d (children_data data)) by (eapply nth_error_In; eauto).
  pose proof (IH d Hin _ _ _ _ _ _ (Nat.lt_0_succ _) Hb) as Hall.
  rewrite List.Forall_forall in Hall. apply Hall, Hn.
Qed.

(** What the code does: the root keeps the sentinel, the [i]-th child of
    the root and all its descendants get [i mod DEFAULT_COLORS.length]. *)
Lemma buildTree_colors (data : jsval) (t : node) (counter' : nat) :
  _buildTree data None (-1)%Z 0%nat 0%nat = Ok (t, counter') ->
  colorIdx t = (-1)%Z /\
  forall i child, nth_error (children t) i = Some child ->
    Forall (fun n => colorIdx n = Z.of_nat (i mod length DEFAULT_COLORS))
           (preorder child).
Proof.
  intros H. apply buildTree_inv in H as (cs & Hcs & ->).
  split; [reflexivity|]. simpl. intros i child Hi.
  destruct (buildChildren_children_inv _ _ _ _ _ _ _ _ Hcs i child Hi)
    as (d & c0 & c1 & _ & Hb).
  simpl in Hb. eapply buildTree_color_inherited; [|exact Hb]. lia.
Qed.

(** C6. For every input tree of n nodes (none of them [null] or
    [undefined]), tree building succeeds and the ids, read in depth-first
    preorder of the built tree (which has the input's shape, children in
    child-array order), are exactly 0, 1, ..., n-1, hence unique; for
    [{topic:"Root", children:[A, B, C]}] they are root 0, A 1, B 2, C 3. *)
Theorem C6_ids_depth_first_preorder :
  (forall data, readable data = true ->
     exists t,
       _buildTree data None (-1)%Z 0%nat 0%nat = Ok (t, node_count data)
       /\ mirrors data t
       /\ List.map _id (preorder t) = seq 0 (node_count data)
       /\ List.NoDup (List.map _id (preorder t)))
  /\ (exists t,
        _buildTree sample_root_ABC None (-1)%Z 0%nat 0%nat = Ok (t, 4%nat)
        /\ List.map (fun n => (topic n, _id n)) (preorder t)
           = [(JStr "Root", 0%nat); (JStr "A", 1%nat); (JStr "B", 2%nat);
              (JStr "C", 3%nat)]).
Proof.
  split.
  - intros data Hr.
    destruct (buildTree_ids data Hr None (-1)%Z 0%nat 0%nat) as (t & Ht & Hids & Hm).
    exists t. simpl in Ht.
    split; [exact Ht|]. split; [exact Hm|]. split; [exact Hids|].
    rewrite Hids. apply List.seq_NoDup.
  - eexists. split; [vm_compute; reflexivity | vm_compute; reflexivity].
Qed.

Lemma C6_ids_depth_first_preorder_witness :
  readable sample_four_branches = true /\
  exists t,
    _buildTree sample_four_branches None (-1)%Z 0%nat 0%nat
      = Ok (t, node_count sample_four_branches)
    /\ mirrors sample_four_branches t
    /\ List.map _id (preorder t) = seq 0 (node_count sample_four_branches)
    /\ List.NoDup (List.map _id (preorder t)).
Proof.
  split; [reflexivity|].
  apply (proj1 C6_ids_depth_first_preorder sample_four_branches). reflexivity.
Defined.

(** C7 (the code departs from the claim). With a configured palette of
    three colors and four top-level children, the fourth child gets color
    index 3 = 3 mod 10 (the length of the built-in palette), not
    3 mod 3 = 0, and the palette lookup for it is undefined. *)
Theorem C7_color_index_ignores_configured_palette :
  exists t d,
    _buildTree sample_four_branches None (-1)%Z 0%nat 0%nat = Ok (t, 5%nat)
    /\ nth_error (children t) 3 = Some d
    /\ length (O.colors three_color_options) = 3%nat
    /\ colorIdx d = 3%Z
    /\ colorIdx d <> Z.of_nat (3 mod length (O.colors three_color_options))
    /\ nodeColor three_color_options d = None.
Proof.
  do 2 eexists. split; [vm_compute; reflexivity|].
  split; [reflexivity|]. repeat split. vm_compute. discriminate.
Qed.

(** ** Roots that are not objects *)

Lemma assignDirections_childless (o : O.t) (n : node) :
  children n = [] -> _assignDirections o n = n.
Proof.
  intros Hc. unfold _assignDirections. rewrite Hc. simpl.
  destruct n; simpl in *; subst.
  repeat match goal with |- context [if ?b then _ else _] => destruct b end;
    reflexivity.
Qed.

Lemma layoutTree_childless (o : O.t) (sp : Sp.t) (collapsed : gset nat) (n : node) :
  children n = [] -> _layoutTree o sp collapsed n = set_xy n 0 0.
Proof.
  intros Hc. unfold _layoutTree.
  destruct (_ || _).
  - unfold _layoutVerticalNode.
    destruct n; simpl in *; subst. reflexivity.
  - simpl. rewrite Hc. reflexivity.
Qed.

Lemma drawTree_childless (collapsed : gset nat) (n : node) :
  children n = [] -> _drawTree collapsed n = [n].
Proof.
  intros Hc. unfold _drawTree. destruct n; simpl in *; subst.
  destruct (bool_decide _); reflexivity.
Qed.

(** C8 (amended). For a root that is not a plain object: when it is
    [null] or [undefined], tree building and [render] fail with the
    runtime's TypeError and produce no tree; otherwise (a boolean, number,
    string or array) they do not fail, and tree building returns a single
    childless node with empty topic and id 0. *)
Theorem C8_non_object_root (o : O.t) (measureText : string -> Q -> Q) (data : jsval) :
  object_shaped data = false ->
  if nullish data
  then (exists msg, _buildTree data None (-1)%Z 0%nat 0%nat = Throw (TypeError msg))
       /\ (exists msg, render o measureText data = Throw (TypeError msg))
  else _buildTree data None (-1)%Z 0%nat 0%nat
         = Ok (built JUndefined None (-1)%Z 0%nat 0%nat [], 1%nat)
       /\ (exists t, render o measureText data = Ok (t, [t])
                     /\ topic t = JStr "" /\ children t = [] /\ _id t = 0%nat).
Proof.
  intros Hobj.
  assert (Hb : nullish data = false ->
               _buildTree data None (-1)%Z 0%nat 0%nat
               = Ok (built JUndefined None (-1)%Z 0%nat 0%nat [], 1%nat)).
  { destruct data; try discriminate; reflexivity. }
  destruct (nullish data) eqn:Hn.
  - unfold render, _renderInternal.
    destruct data; try discriminate; simpl; eauto.
  - specialize (Hb eq_refl). split; [exact Hb|].
    unfold render, _renderInternal. rewrite Hb. simpl bind.
    rewrite assignDirections_childless by reflexivity.
    simpl bind.
    rewrite layoutTree_childless by reflexivity.
    rewrite drawTree_childless by reflexivity.
    eexists. split; [reflexivity|]. repeat split.
Qed.

Lemma C8_non_object_root_witness :
  object_shaped JNull = false /\
  (exists msg, _buildTree JNull None (-1)%Z 0%nat 0%nat = Throw (TypeError msg))
  /\ (exists msg, render DEFAULT_OPTIONS eight_per_char JNull = Throw (TypeError msg)).
Proof.
  split; [reflexivity|].
  exact (C8_non_object_root DEFAULT_OPTIONS eight_per_char JNull eq_refl).
Defined.

(** C8, as stated, fails: the number 5 is not an object, and [render]
    returns normally with a one-node tree. *)
Lemma C8_number_root_renders :
  object_shaped (JNum 5) = false /\
  exists t, render DEFAULT_OPTIONS eight_per_char (JNum 5) = Ok (t, [t])
            /\ topic t = JStr "" /\ children t = [] /\ _id t = 0%nat.
Proof.
  split; [reflexivity|]. eexists. split; [vm_compute; reflexivity|].
  repeat split.
Qed.

(* ================================================================== *)
(** * Properties of direction assignment                                *)
(* ================================================================== *)

Lemma direction_propagateDir (n : node) (dir : jsval) :
  direction (_propagateDir n dir) = dir.
Proof. destruct n; reflexivity. Qed.

Lemma children_propagateDir (n : node) (dir : jsval) :
  children (_propagateDir n dir) = List.map (fun c => _propagateDir c dir) (children n).
Proof. destruct n; reflexivity. Qed.

(** Induction over a node tree. *)
Lemma node_tree_ind (P : node -> Prop) :
  (forall n, Forall P (children n) -> P n) -> forall n, P n.
Proof.
  intros step.
  fix IH 1. intros n. apply step.
  destruct n as [t u d dp p ci cs i nx ny w h f lh px py ls]. simpl.
  induction cs as [|c cs IHcs]; constructor; [apply IH | exact IHcs].
Qed.

(** Once assigned, a direction reaches the whole subtree unchanged. *)
Lemma propagateDir_all (n : node) (dir : jsval) :
  Forall (fun m => direction m = dir) (preorder (_propagateDir n dir)).
Proof.
  induction n as [n IH] using node_tree_ind.
  destruct n as [t u d dp p ci cs i nx ny w h f lh px py ls].
  simpl in *. constructor; [reflexivity|].
  induction IH as [|c cs Hc _ IHcs]; simpl; [constructor|].
  apply Forall_app. split; assumption.
Qed.

Lemma map_direction_propagate (cs : list node) :
  List.map direction (List.map (fun c => _propagateDir c (direction c)) cs)
  = List.map direction cs.
Proof.
  induction cs as [|c cs IH]; simpl; [reflexivity|].
  rewrite direction_propagateDir, IH. reflexivity.
Qed.

Lemma pinned_truthy (d : jsval) : pinned d = true -> truthy d = true.
Proof.
  destruct d; try discriminate. unfold pinned. simpl.
  destruct s; [discriminate | reflexivity].
Qed.

Lemma assignFloats_greedy (cs : list node) (r l : nat) :
  List.map direction (assignFloats cs r l) = greedy_sides (List.map direction cs) r l.
Proof.
  revert r l. induction cs as [|c cs IH]; intros r l; [reflexivity|].
  simpl. unfold is_float.
  destruct (pinned (direction c)) eqn:Hp.
  - rewrite (pinned_truthy _ Hp). simpl. rewrite IH. reflexivity.
  - destruct (truthy (direction c)); simpl; [rewrite IH; reflexivity|].
    destruct (Nat.leb_spec r l) as [Hle|Hlt].
    + destruct (Nat.ltb_spec l r); [lia|].
      simpl. rewrite IH. destruct (r <? l)%nat; reflexivity.
    + destruct (Nat.ltb_spec l r); [|lia].
      simpl. rewrite IH. reflexivity.
Qed.

Lemma fixed_count (cs : list node) (lit : string) :
  (lit = "left" \/ lit = "right") ->
  length (List.filter (fun c => is_str (direction c) lit) (List.filter is_fixed cs))
  = length (List.filter (fun d => is_str d lit) (List.map direction cs)).
Proof.
  intros Hlit. induction cs as [|c cs IH]; [reflexivity|].
  simpl. unfold is_fixed at 1.
  destruct (is_str (direction c) lit) eqn:E.
  - assert (is_str (direction c) "left" || is_str (direction c) "right" = true) as ->.
    { destruct Hlit as [-> | ->]; rewrite E; auto using orb_true_r. }
    simpl. rewrite E. simpl. f_equal. exact IH.
  - destruct (_ || _); simpl; [rewrite E|]; exact IH.
Qed.

Lemma auto_children (o : O.t) (root : node) :
  O.layout o = "auto" ->
  children (_assignDirections o root)
  = List.map (fun c => _propagateDir c (direction c))
      (assignFloats (children root)
         (length (List.filter (fun c => is_str (direction c) "right")
                    (List.filter is_fixed (children root))))
         (length (List.filter (fun c => is_str (direction c) "left")
                    (List.filter is_fixed (children root))))).
Proof. intros H. unfold _assignDirections. rewrite H. reflexivity. Qed.

Lemma greedy_keeps_pins (cs : list node) (r l : nat) :
  Forall2 (fun c side => pinned (direction c) = true -> side = direction c)
          cs (greedy_sides (List.map direction cs) r l).
Proof.
  revert r l. induction cs as [|c cs IH]; intros r l; simpl; [constructor|].
  destruct (pinned (direction c)) eqn:Hp; [constructor; auto|].
  destruct (truthy (direction c)); [constructor; auto; congruence|].
  destruct (l <? r)%nat; [constructor; auto; congruence|].
  destruct (r <? l)%nat; constructor; auto; congruence.
Qed.

Lemma falsy_not_str (d : jsval) (lit : string) :
  truthy d = false -> lit <> "" -> is_str d lit = false.
Proof.
  destruct d; simpl; try reflexivity. intros Hs Hlit.
  apply negb_false_iff, String.eqb_eq in Hs. subst.
  apply String.eqb_neq. congruence.
Qed.

Lemma falsy_not_pinned (ds : list jsval) (lit : string) :
  forallb (fun d => negb (truthy d)) ds = true -> lit <> "" ->
  List.filter (fun d => is_str d lit) ds = [].
Proof.
  intros Hf Hlit. induction ds as [|d ds IH]; [reflexivity|].
  simpl in *. apply andb_true_iff in Hf as [H1 H2].
  apply negb_true_iff in H1. rewrite (falsy_not_str d lit H1 Hlit). auto.
Qed.

(** On children without any direction the greedy pass depends on their
    number only. *)
Lemma greedy_falsy (ds : list jsval) (r l : nat) :
  forallb (fun d => negb (truthy d)) ds = true ->
  greedy_sides ds r l = greedy_sides (repeat JNull (length ds)) r l.
Proof.
  revert r l. induction ds as [|d ds IH]; intros r l Hf; [reflexivity|].
  simpl in *. apply andb_true_iff in Hf as [H1 H2].
  apply negb_true_iff in H1. rewrite H1.
  unfold pinned. rewrite !(falsy_not_str d _ H1) by discriminate. simpl.
  rewrite !(IH _ _ H2). reflexivity.
Qed.

(** C1. In auto mode the sides of the top-level children are those the
    specification describes: a child pinned ['left'] or ['right'] keeps its
    side; every unpinned child, in child-array order, goes to the side with
    strictly fewer assigned children, right winning ties.  Five unpinned
    children and no pins give right, left, right, left, right. *)
Theorem C1_auto_greedy_sides (o : O.t) (root : node) :
  O.layout o = "auto" ->
  let sides := List.map direction (children (_assignDirections o root)) in
  sides = spec_auto_sides (List.map direction (children root))
  /\ Forall2 (fun c side => pinned (direction c) = true -> side = direction c)
             (children root) sides
  /\ (length (children root) = 5%nat ->
      forallb is_float (children root) = true ->
      sides = [JStr "right"; JStr "left"; JStr "right"; JStr "left"; JStr "right"]).
Proof.
  intros Hauto sides.
  assert (Hs : sides = spec_auto_sides (List.map direction (children root))).
  { unfold sides. rewrite (auto_children o root Hauto).
    rewrite map_direction_propagate, assignFloats_greedy.
    unfold spec_auto_sides.
    rewrite !fixed_count by auto. reflexivity. }
  split; [exact Hs|]. split.
  - rewrite Hs. unfold spec_auto_sides.
    apply greedy_keeps_pins.
  - intros Hlen Hfl. rewrite Hs. unfold spec_auto_sides.
    assert (Hf : forallb (fun d => negb (truthy d)) (List.map direction (children root))
                 = true).
    { clear -Hfl. induction (children root) as [|c cs IH]; [reflexivity|].
      simpl in *. apply andb_true_iff in Hfl as [H1 H2].
      unfold is_float in H1. rewrite H1. auto. }
    rewrite !(falsy_not_pinned _ _ Hf) by discriminate.
    rewrite (greedy_falsy _ _ _ Hf), length_map, Hlen. reflexivity.
Qed.

Lemma C1_auto_greedy_sides_witness :
  O.layout DEFAULT_OPTIONS = "auto" /\
  let sides := List.map direction
                 (children (_assignDirections DEFAULT_OPTIONS sample_five_unpinned)) in
  sides = spec_auto_sides (List.map direction (children sample_five_unpinned))
  /\ Forall2 (fun c side => pinned (direction c) = true -> side = direction c)
             (children sample_five_unpinned) sides
  /\ (length (children sample_five_unpinned) = 5%nat ->
      forallb is_float (children sample_five_unpinned) = true ->
      sides = [JStr "right"; JStr "left"; JStr "right"; JStr "left"; JStr "right"]).
Proof.
  split; [reflexivity|].
  apply (C1_auto_greedy_sides DEFAULT_OPTIONS sample_five_unpinned). reflexivity.
Defined.

Lemma assignFloats_app (a b : list node) (r l : nat) :
  assignFloats (a ++ b) r l
  = assignFloats a r l
    ++ assignFloats b (fst (floatCounts a r l)) (snd (floatCounts a r l)).
Proof.
  revert r l. induction a as [|c a IH]; intros r l; [reflexivity|].
  simpl. destruct (is_float c); [destruct (r <=? l)%nat|]; simpl; rewrite IH;
    reflexivity.
Qed.

Lemma length_assignFloats (cs : list node) (r l : nat) :
  length (assignFloats cs r l) = length cs.
Proof.
  revert r l. induction cs as [|c cs IH]; intros r l; [reflexivity|].
  simpl. destruct (is_float c); [destruct (r <=? l)%nat|]; simpl; rewrite IH;
    reflexivity.
Qed.

Lemma filter_fixed_skip (l1 l2 : list node) (c : node) :
  is_fixed c = false ->
  List.filter is_fixed (l1 ++ c :: l2) = List.filter is_fixed (l1 ++ l2).
Proof.
  intros Hc. rewrite !List.filter_app. simpl. rewrite Hc. reflexivity.
Qed.

(** C10. In auto mode a top-level child whose direction is truthy but
    neither ['left'] nor ['right'] is in neither the pinned set nor the
    balancing pool: the running counts pass over it unchanged, the other
    children get the sides they would get without it, and its own value
    becomes the direction of every node of its subtree. *)
Theorem C10_unrecognized_direction (o : O.t) (root : node)
    (l1 l2 : list node) (c : node) :
  O.layout o = "auto" ->
  children root = l1 ++ c :: l2 ->
  truthy (direction c) = true ->
  is_fixed c = false ->
  let others := children (_assignDirections o (set_children root (l1 ++ l2))) in
  (is_float c = false
   /\ forall r l, floatCounts [c] r l = (r, l))
  /\ children (_assignDirections o root)
     = firstn (length l1) others
       ++ _propagateDir c (direction c) :: skipn (length l1) others
  /\ Forall (fun n => direction n = direction c)
            (preorder (_propagateDir c (direction c))).
Proof.
  intros Hauto Hcs Ht Hfix others.
  assert (Hfl : is_float c = false) by (unfold is_float; rewrite Ht; reflexivity).
  split; [split; [exact Hfl | intros r l; simpl; rewrite Hfl; reflexivity]|].
  split; [|apply propagateDir_all].
  unfold others. rewrite !(auto_children _ _ Hauto).
  replace (children (set_children root (l1 ++ l2))) with (l1 ++ l2)
    by (destruct root; reflexivity).
  rewrite Hcs, (filter_fixed_skip l1 l2 c Hfix).
  set (r0 := length (List.filter (fun c0 => is_str (direction c0) "right") _)).
  set (l0 := length (List.filter (fun c0 => is_str (direction c0) "left") _)).
  rewrite !assignFloats_app, !List.map_app.
  simpl assignFloats. rewrite Hfl. simpl List.map.
  set (A := List.map _ (assignFloats l1 r0 l0)).
  assert (HA : length A = length l1)
    by (unfold A; rewrite length_map, length_assignFloats; reflexivity).
  rewrite <- HA, firstn_app, skipn_app, Nat.sub_diag, firstn_all, skipn_all. simpl.
  rewrite app_nil_r. reflexivity.
Qed.

Lemma C10_unrecognized_direction_witness :
  let root := sample_root [sample_branch 1 JNull; sample_branch 2 (JStr "up");
                           sample_branch 3 JNull] in
  let c := sample_branch 2 (JStr "up") in
  let others := children (_assignDirections DEFAULT_OPTIONS
                  (set_children root ([sample_branch 1 JNull] ++ [sample_branch 3 JNull]))) in
  (is_float c = false
   /\ forall r l, floatCounts [c] r l = (r, l))
  /\ children (_assignDirections DEFAULT_OPTIONS root)
     = firstn (length [sample_branch 1 JNull]) others
       ++ _propagateDir c (direction c) :: skipn (length [sample_branch 1 JNull]) others
  /\ Forall (fun n => direction n = direction c)
            (preorder (_propagateDir c (direction c))).
Proof.
  exact (C10_unrecognized_direction DEFAULT_OPTIONS
           (sample_root [sample_branch 1 JNull; sample_branch 2 (JStr "up");
                         sample_branch 3 JNull])
           [sample_branch 1 JNull] [sample_branch 3 JNull]
           (sample_branch 2 (JStr "up"))
           eq_refl eq_refl eq_refl eq_refl).
Defined.

(** ** The passes over the children are the in-place loops *)

Lemma forEach_at_shift {St : Type} (body : St -> node -> node * St)
    (idx : list nat) (c : node) (cs : list node) (st : St) :
  forEach_at body (List.map S idx) (c :: cs) st = c :: forEach_at body idx cs st.
Proof.
  revert cs st. induction idx as [|i idx IH]; intros cs st; [reflexivity|].
  simpl. destruct (cs !! i) as [ci|]; [|reflexivity].
  destruct (body st ci) as [c' st']. apply IH.
Qed.

(** [floats.forEach] writing through the references equals the pass
    [assignFloats] over the children. *)
Lemma assignFloats_in_place (cs : list node) (r l : nat) :
  forEach_at float_body (indices_where is_float cs) cs (r, l) = assignFloats cs r l.
Proof.
  revert r l. induction cs as [|c cs IH]; intros r l; [reflexivity|].
  simpl. destruct (is_float c).
  - simpl. destruct (r <=? l)%nat; rewrite forEach_at_shift, IH; reflexivity.
  - simpl. rewrite forEach_at_shift, IH. reflexivity.
Qed.

(* ================================================================== *)
(** * Properties of double arithmetic                                   *)
(* ================================================================== *)

(** ** Powers of two *)

Lemma pow2_pos (k : Z) : 0 < 2 ^ k.
Proof. apply Qpower_0_lt. reflexivity. Qed.

Lemma pow2_add (a b : Z) : 2 ^ (a + b) == 2 ^ a * 2 ^ b.
Proof. apply Qpower_plus. discriminate. Qed.

Lemma pow2_le (a b : Z) : (a <= b)%Z -> 2 ^ a <= 2 ^ b.
Proof. intros H. apply Qpower_le_compat_l; [exact H | discriminate]. Qed.

Lemma pow2_lt (a b : Z) : (a < b)%Z -> 2 ^ a < 2 ^ b.
Proof. intros H. apply Qpower_lt_compat_l; [exact H | reflexivity]. Qed.

Lemma pow2_lt_inv (a b : Z) : 2 ^ a < 2 ^ b -> (a < b)%Z.
Proof. intros H. apply (Qpower_lt_compat_l_inv 2); [exact H | reflexivity]. Qed.

Lemma pow2_inject (a : Z) : (0 <= a)%Z -> inject_Z (2 ^ a) == 2 ^ a.
Proof. intros H. apply (Zpower_Qpower 2 a H). Qed.

Lemma Qlog2_spec (q : Q) : 0 < q -> 2 ^ Qlog2 q <= q /\ q < 2 ^ (Qlog2 q + 1).
Proof.
  intros Hq. unfold Qlog2.
  destruct q as [n d]. cbn [Qnum Qden].
  assert (Hn : (0 < n)%Z).
  { unfold Qlt in Hq. cbn in Hq. lia. }
  set (a := Z.log2 n). set (b := Z.log2 (Zpos d)).
  destruct (Z.log2_spec n Hn) as [Ha1 Ha2]. fold a in Ha1, Ha2.
  destruct (Z.log2_spec (Zpos d) ltac:(lia)) as [Hb1 Hb2]. fold b in Hb1, Hb2.
  assert (Ha0 : (0 <= a)%Z) by apply Z.log2_nonneg.
  assert (Hb0 : (0 <= b)%Z) by apply Z.log2_nonneg.
  assert (Hq' : n # d == inject_Z n / inject_Z (Zpos d)) by apply Qmake_Qdiv.
  assert (Hd : 0 < inject_Z (Zpos d)) by reflexivity.
  assert (Qa1 : 2 ^ a <= inject_Z n).
  { rewrite <- pow2_inject by lia. rewrite <- Zle_Qle. exact Ha1. }
  assert (Qa2 : inject_Z n < 2 ^ (a + 1)).
  { rewrite <- pow2_inject by lia. rewrite <- Zlt_Qlt.
    replace (a + 1)%Z with (Z.succ a) by lia. exact Ha2. }
  assert (Qb1 : 2 ^ b <= inject_Z (Zpos d)).
  { rewrite <- pow2_inject by lia. rewrite <- Zle_Qle. exact Hb1. }
  assert (Qb2 : inject_Z (Zpos d) < 2 ^ (b + 1)).
  { rewrite <- pow2_inject by lia. rewrite <- Zlt_Qlt.
    replace (b + 1)%Z with (Z.succ b) by lia. exact Hb2. }
  assert (Hup : n # d < 2 ^ (a - b + 1)).
  { rewrite Hq'. apply Qlt_shift_div_r; [exact Hd|].
    apply Qlt_le_trans with (2 ^ (a + 1)); [exact Qa2|].
    replace (a + 1)%Z with ((a - b + 1) + b)%Z by lia. rewrite pow2_add.
    apply Qmult_le_l; [apply pow2_pos | exact Qb1]. }
  assert (Hlo : 2 ^ (a - b - 1) <= n # d).
  { rewrite Hq'. apply Qle_shift_div_l; [exact Hd|].
    apply Qle_trans with (2 ^ a); [|exact Qa1].
    replace a with ((a - b - 1) + (b + 1))%Z at 2 by lia. rewrite pow2_add.
    apply Qmult_le_l; [apply pow2_pos | apply Qlt_le_weak; exact Qb2]. }
  destruct (Qle_bool (2 ^ (a - b)) (n # d)) eqn:E.
  - apply Qle_bool_iff in E. split; assumption.
  - assert (Hlt : n # d < 2 ^ (a - b)).
    { apply Qnot_le_lt. intros H. apply Qle_bool_iff in H. congruence. }
    split; [exact Hlo|]. replace (a - b - 1 + 1)%Z with (a - b)%Z by lia. exact Hlt.
Qed.

Lemma Qlog2_unique (q : Q) (k : Z) : 2 ^ k <= q -> q < 2 ^ (k + 1) -> Qlog2 q = k.
Proof.
  intros H1 H2.
  assert (Hq : 0 < q) by (apply Qlt_le_trans with (2 ^ k); [apply pow2_pos | exact H1]).
  destruct (Qlog2_spec q Hq) as [L1 L2].
  assert ((Qlog2 q < k + 1)%Z) by (apply pow2_lt_inv; eapply Qle_lt_trans; eassumption).
  assert ((k < Qlog2 q + 1)%Z) by (apply pow2_lt_inv; eapply Qle_lt_trans; eassumption).
  lia.
Qed.

Lemma Qlog2_mono (q q' : Q) : 0 < q -> q <= q' -> (Qlog2 q <= Qlog2 q')%Z.
Proof.
  intros Hq Hle.
  destruct (Qlog2_spec q Hq) as [L1 _].
  destruct (Qlog2_spec q' (Qlt_le_trans _ _ _ Hq Hle)) as [_ L2].
  assert ((Qlog2 q < Qlog2 q' + 1)%Z); [|lia].
  apply pow2_lt_inv. eapply Qle_lt_trans; [exact L1|]. eapply Qle_lt_trans; eassumption.
Qed.

Lemma Qlog2_comp (q q' : Q) : 0 < q -> q == q' -> Qlog2 q = Qlog2 q'.
Proof.
  intros Hq E. symmetry. destruct (Qlog2_spec q Hq) as [L1 L2].
  apply Qlog2_unique; rewrite <- E; assumption.
Qed.

(** ** Rounding to an integer *)

Lemma round_half_even_range (x : Q) :
  (Qfloor x <= round_half_even x <= Qfloor x + 1)%Z.
Proof.
  unfold round_half_even. destruct (Qcompare _ _); [destruct (Z.even _)| |]; lia.
Qed.

Lemma round_half_even_Z (z : Z) : round_half_even (inject_Z z) = z.
Proof.
  unfold round_half_even. rewrite Qfloor_Z.
  destruct (Qcompare_spec (inject_Z z - inject_Z z) (1 # 2)) as [H | H | H];
    [exfalso; lra | reflexivity | exfalso; lra].
Qed.

Lemma round_half_even_comp (x y : Q) : x == y -> round_half_even x = round_half_even y.
Proof.
  intros E. unfold round_half_even.
  assert (F : Qfloor x = Qfloor y) by (apply Qfloor_comp; exact E).
  rewrite F. rewrite E. reflexivity.
Qed.

Lemma round_half_even_mono (x y : Q) : x <= y -> (round_half_even x <= round_half_even y)%Z.
Proof.
  intros Hle.
  pose proof (Qfloor_resp_le x y Hle) as Hf.
  destruct (Z.eq_dec (Qfloor x) (Qfloor y)) as [E | N].
  - unfold round_half_even. rewrite <- E.
    destruct (Qcompare_spec (x - inject_Z (Qfloor x)) (1 # 2)) as [Hx | Hx | Hx];
    destruct (Qcompare_spec (y - inject_Z (Qfloor x)) (1 # 2)) as [Hy | Hy | Hy];
    try destruct (Z.even (Qfloor x)); try lia; exfalso; lra.
  - pose proof (round_half_even_range x). pose proof (round_half_even_range y). lia.
Qed.

Lemma round_half_even_near (x : Q) :
  x - (1 # 2) <= inject_Z (round_half_even x) /\ inject_Z (round_half_even x) <= x + (1 # 2).
Proof.
  unfold round_half_even.
  pose proof (Qfloor_le x) as H1. pose proof (Qlt_floor x) as H2.
  rewrite inject_Z_plus in H2. change (inject_Z 1) with 1 in H2.
  destruct (Qcompare_spec (x - inject_Z (Qfloor x)) (1 # 2)) as [H | H | H];
    [destruct (Z.even (Qfloor x))| |];
    rewrite ?inject_Z_plus; change (inject_Z 1) with 1; split; lra.
Qed.

(** ** Rounding to a double *)

Lemma fl_comp (x y : Q) : x == y -> fl x = fl y.
Proof. intros E. unfold fl. rewrite (Qred_complete x y E). reflexivity. Qed.

Lemma fl_zero (q : Q) : q == 0 -> fl q = 0.
Proof.
  intros E. unfold fl.
  assert (H : Qeq_bool (Qred q) 0 = true) by (apply Qeq_bool_iff; rewrite Qred_correct; exact E).
  rewrite H. reflexivity.
Qed.

Lemma Qabs_pos_nz (q : Q) : ~ q == 0 -> 0 < Qabs q.
Proof.
  intros N. apply Qabs_case; intros H.
  - destruct (Qle_lt_or_eq _ _ H) as [L | L]; [exact L | exfalso; apply N; symmetry; exact L].
  - destruct (Qle_lt_or_eq _ _ H) as [L | L]; [lra | exfalso; apply N; exact L].
Qed.

Lemma ulp_exp_comp (x y : Q) : ~ x == 0 -> x == y -> ulp_exp x = ulp_exp y.
Proof.
  intros N E. unfold ulp_exp. f_equal. f_equal.
  apply Qlog2_comp; [apply Qabs_pos_nz; exact N | rewrite E; reflexivity].
Qed.

Lemma fl_eq (q : Q) :
  ~ q == 0 ->
  fl q == inject_Z (round_half_even (q / 2 ^ ulp_exp q)) * 2 ^ ulp_exp q.
Proof.
  intros N. unfold fl.
  assert (H : Qeq_bool (Qred q) 0 = false).
  { destruct (Qeq_bool (Qred q) 0) eqn:E; [|reflexivity].
    apply Qeq_bool_iff in E. rewrite Qred_correct in E. contradiction. }
  rewrite H. cbv zeta. rewrite Qred_correct.
  assert (Ee : ulp_exp (Qred q) = ulp_exp q).
  { symmetry. apply ulp_exp_comp; [exact N | symmetry; apply Qred_correct]. }
  rewrite Ee.
  assert (Er : round_half_even (Qred q / 2 ^ ulp_exp q) = round_half_even (q / 2 ^ ulp_exp q)).
  { apply round_half_even_comp. rewrite Qred_correct. reflexivity. }
  rewrite Er. reflexivity.
Qed.

Lemma ulp_exp_ge (q : Q) : (-1074 <= ulp_exp q)%Z.
Proof. unfold ulp_exp. lia. Qed.

Lemma ulp_exp_above (q : Q) : ~ q == 0 -> Qabs q < 2 ^ (ulp_exp q + 53).
Proof.
  intros N. destruct (Qlog2_spec (Qabs q) (Qabs_pos_nz q N)) as [_ H].
  eapply Qlt_le_trans; [exact H|]. apply pow2_le. unfold ulp_exp. lia.
Qed.

Lemma ulp_exp_normal (q : Q) :
  ~ q == 0 -> (-1074 < ulp_exp q)%Z -> 2 ^ (ulp_exp q + 52) <= Qabs q.
Proof.
  intros N Hn. destruct (Qlog2_spec (Qabs q) (Qabs_pos_nz q N)) as [H _].
  assert (E : (ulp_exp q + 52 = Qlog2 (Qabs q))%Z) by (unfold ulp_exp in *; lia).
  rewrite E. exact H.
Qed.

Lemma div_pow2 (q : Q) (e : Z) : q / 2 ^ e * 2 ^ e == q.
Proof.
  pose proof (pow2_pos e). field. intros E. rewrite E in H. apply (Qlt_irrefl 0 H).
Qed.

Lemma div_pow2_le (q : Q) (e k : Z) : q <= 2 ^ (e + k) -> q / 2 ^ e <= 2 ^ k.
Proof.
  intros H. apply Qle_shift_div_r; [apply pow2_pos|].
  rewrite <- pow2_add. replace (k + e)%Z with (e + k)%Z by lia. exact H.
Qed.

Lemma div_pow2_ge (q : Q) (e k : Z) : 2 ^ (e + k) <= q -> 2 ^ k <= q / 2 ^ e.
Proof.
  intros H. apply Qle_shift_div_l; [apply pow2_pos|].
  rewrite <- pow2_add. replace (k + e)%Z with (e + k)%Z by lia. exact H.
Qed.

Lemma div_pow2_nonneg (q : Q) (e : Z) : 0 <= q -> 0 <= q / 2 ^ e.
Proof. intros H. apply Qle_shift_div_l; [apply pow2_pos | lra]. Qed.

Lemma div_pow2_mono (q q' : Q) (e : Z) : q <= q' -> q / 2 ^ e <= q' / 2 ^ e.
Proof.
  intros H. apply Qle_shift_div_l; [apply pow2_pos|]. rewrite div_pow2. exact H.
Qed.

Lemma round_half_even_nonneg (x : Q) : 0 <= x -> (0 <= round_half_even x)%Z.
Proof.
  intros H. rewrite <- (round_half_even_Z 0). apply round_half_even_mono. exact H.
Qed.

Lemma fl_nonneg (q : Q) : 0 <= q -> 0 <= fl q.
Proof.
  intros H. destruct (Qeq_dec q 0) as [E | N].
  - rewrite (fl_zero q E). lra.
  - rewrite (fl_eq q N). apply Qmult_le_0_compat; [|apply Qlt_le_weak, pow2_pos].
    change 0 with (inject_Z 0). rewrite <- Zle_Qle.
    apply round_half_even_nonneg, div_pow2_nonneg, H.
Qed.

(** The significand of a rounded positive number has at most 53 bits. *)
Lemma significand_le (q : Q) :
  0 < q -> inject_Z (round_half_even (q / 2 ^ ulp_exp q)) <= 2 ^ 53.
Proof.
  intros H. assert (N : ~ q == 0) by (intros E; rewrite E in H; apply (Qlt_irrefl 0 H)).
  pose proof (ulp_exp_above q N) as Ha. rewrite Qabs_pos in Ha by lra.
  rewrite <- (pow2_inject 53) by lia. rewrite <- Zle_Qle.
  rewrite <- (round_half_even_Z (2 ^ 53)). apply round_half_even_mono.
  rewrite pow2_inject by lia. apply div_pow2_le. lra.
Qed.

Lemma significand_ge (q : Q) :
  0 < q -> (-1074 < ulp_exp q)%Z ->
  2 ^ 52 <= inject_Z (round_half_even (q / 2 ^ ulp_exp q)).
Proof.
  intros H Hn. assert (N : ~ q == 0) by (intros E; rewrite E in H; apply (Qlt_irrefl 0 H)).
  pose proof (ulp_exp_normal q N Hn) as Ha. rewrite Qabs_pos in Ha by lra.
  rewrite <- (pow2_inject 52) by lia. rewrite <- Zle_Qle.
  rewrite <- (round_half_even_Z (2 ^ 52)). apply round_half_even_mono.
  rewrite pow2_inject by lia. apply div_pow2_ge. exact Ha.
Qed.

(** Rounding to the nearest double keeps the order of non-negative
    numbers. *)
Lemma fl_mono (q q' : Q) : 0 <= q -> q <= q' -> fl q <= fl q'.
Proof.
  intros H0 Hle. destruct (Qeq_dec q 0) as [E | N].
  { rewrite (fl_zero q E). apply fl_nonneg. lra. }
  assert (Hq : 0 < q).
  { destruct (Qle_lt_or_eq _ _ H0) as [L | L]; [exact L | exfalso; apply N; symmetry; exact L]. }
  assert (Hq' : 0 < q') by lra.
  assert (N' : ~ q' == 0) by (intros E; rewrite E in Hq'; apply (Qlt_irrefl 0 Hq')).
  rewrite (fl_eq q N), (fl_eq q' N').
  assert (He : (ulp_exp q <= ulp_exp q')%Z).
  { unfold ulp_exp. apply Z.max_le_compat_r. apply Z.sub_le_mono_r.
    apply Qlog2_mono; [apply Qabs_pos_nz; exact N|]. rewrite !Qabs_pos by lra. exact Hle. }
  destruct (Z.eq_dec (ulp_exp q) (ulp_exp q')) as [Ee | Ne].
  - rewrite <- Ee. apply Qmult_le_compat_r; [|apply Qlt_le_weak, pow2_pos].
    rewrite <- Zle_Qle. apply round_half_even_mono, div_pow2_mono, Hle.
  - pose proof (significand_le q Hq) as H1.
    pose proof (significand_ge q' Hq' ltac:(pose proof (ulp_exp_ge q); lia)) as H2.
    apply Qle_trans with (2 ^ 53 * 2 ^ ulp_exp q).
    { apply Qmult_le_compat_r; [exact H1 | apply Qlt_le_weak, pow2_pos]. }
    apply Qle_trans with (2 ^ 52 * 2 ^ ulp_exp q').
    2:{ apply Qmult_le_compat_r; [exact H2 | apply Qlt_le_weak, pow2_pos]. }
    rewrite <- !pow2_add. apply pow2_le. lia.
Qed.

(** A number on the grid of its own binade is its own rounding. *)
Lemma fl_on_grid (v : Q) (z : Z) :
  ~ v == 0 -> v / 2 ^ ulp_exp v == inject_Z z -> fl v == v.
Proof.
  intros N Hz. rewrite (fl_eq v N).
  rewrite (round_half_even_comp _ _ Hz), round_half_even_Z, <- Hz. apply div_pow2.
Qed.

Lemma pow2_sub (a b : Z) : 2 ^ a / 2 ^ b == 2 ^ (a - b).
Proof.
  replace a with ((a - b) + b)%Z at 1 by lia. rewrite pow2_add.
  pose proof (pow2_pos b). field. intros E. rewrite E in H. apply (Qlt_irrefl 0 H).
Qed.

(** The doubles: [m * 2^e] with a significand of at most 53 bits and an
    exponent of at least -1074. *)
Lemma fl_exact (m e : Z) :
  (Z.abs m <= 2 ^ 53)%Z -> (-1074 <= e)%Z ->
  fl (inject_Z m * 2 ^ e) == inject_Z m * 2 ^ e.
Proof.
  intros Hm He. set (v := inject_Z m * 2 ^ e).
  destruct (Z.eq_dec m 0%Z) as [-> | Nm].
  { rewrite (fl_zero v); unfold v; [|ring]. ring. }
  assert (N : ~ v == 0).
  { unfold v. intros E. apply Qmult_integral in E. destruct E as [E | E].
    - apply Nm. unfold Qeq in E. cbn in E. lia.
    - pose proof (pow2_pos e) as H. rewrite E in H. apply (Qlt_irrefl 0 H). }
  assert (Ha : Qabs v == inject_Z (Z.abs m) * 2 ^ e).
  { unfold v. rewrite Qabs_Qmult. rewrite (Qabs_pos (2 ^ e)) by apply Qlt_le_weak, pow2_pos.
    apply Qmult_comp; [|reflexivity]. unfold Qabs, inject_Z. reflexivity. }
  destruct (Qlog2_spec (Qabs v) (Qabs_pos_nz v N)) as [L1 L2].
  destruct (Z.eq_dec (Z.abs m) (2 ^ 53)%Z) as [Em | Nm'].
  - (* the top of a binade *)
    assert (El : Qlog2 (Qabs v) = (e + 53)%Z).
    { apply Qlog2_unique; rewrite Ha, Em, pow2_inject by lia; rewrite <- pow2_add.
      - apply pow2_le. lia.
      - apply pow2_lt. lia. }
    assert (Ee : ulp_exp v = (e + 1)%Z) by (unfold ulp_exp; rewrite El; lia).
    apply (fl_on_grid v (m / 2)); [exact N|]. rewrite Ee.
    assert (E2 : m = (2 * (m / 2))%Z).
    { destruct (Z.abs_spec m) as [[_ E] | [_ E]]; rewrite E in Em.
      - rewrite Em. reflexivity.
      - replace m with (- 2 ^ 53)%Z by lia. reflexivity. }
    unfold v. rewrite E2 at 1. rewrite inject_Z_mult. rewrite pow2_add.
    pose proof (pow2_pos e) as Hp. change (2 ^ 1) with 2. change (inject_Z 2) with 2.
    field. intros E. rewrite E in Hp. apply (Qlt_irrefl 0 Hp).
  - assert (Hlt : Qabs v < 2 ^ (e + 53)).
    { rewrite Ha. rewrite Z.add_comm, pow2_add. apply Qmult_lt_compat_r; [apply pow2_pos|].
      rewrite <- pow2_inject by lia. rewrite <- Zlt_Qlt. lia. }
    assert (Hl : (Qlog2 (Qabs v) < e + 53)%Z).
    { apply pow2_lt_inv. eapply Qle_lt_trans; eassumption. }
    assert (Ee : (ulp_exp v <= e)%Z) by (unfold ulp_exp; lia).
    apply (fl_on_grid v (m * 2 ^ (e - ulp_exp v))); [exact N|].
    rewrite inject_Z_mult, pow2_inject by lia. rewrite <- pow2_sub.
    unfold v. pose proof (pow2_pos (ulp_exp (inject_Z m * 2 ^ e))) as Hp. field.
    intros E. rewrite E in Hp. apply (Qlt_irrefl 0 Hp).
Qed.

(** Every rounding is a double. *)
Lemma fl_is_double (q : Q) : is_double (fl q).
Proof.
  unfold is_double.
  destruct (Qeq_dec q 0) as [E | N].
  { exists 0%Z, 0%Z. rewrite (fl_zero q E). split; [lia | split; [lia | reflexivity]]. }
  exists (round_half_even (q / 2 ^ ulp_exp q)), (ulp_exp q).
  split; [|split; [apply ulp_exp_ge | apply fl_eq, N]].
  pose proof (ulp_exp_above q N) as Ha.
  apply Qabs_Qlt_condition in Ha. destruct Ha as [Ha1 Ha2].
  assert (H1 : (round_half_even (q / 2 ^ ulp_exp q) <= 2 ^ 53)%Z).
  { rewrite <- (round_half_even_Z (2 ^ 53)). apply round_half_even_mono.
    rewrite pow2_inject by lia. apply div_pow2_le. lra. }
  assert (H2 : (- 2 ^ 53 <= round_half_even (q / 2 ^ ulp_exp q))%Z).
  { rewrite <- (round_half_even_Z (- 2 ^ 53)). apply round_half_even_mono.
    rewrite inject_Z_opp, pow2_inject by lia.
    assert (H : - q / 2 ^ ulp_exp q <= 2 ^ 53) by (apply div_pow2_le; lra).
    unfold Qdiv in *. lra. }
  lia.
Qed.

Lemma fl_canon (q : Q) : Qred (fl q) = fl q.
Proof.
  unfold fl. destruct (Qeq_bool (Qred q) 0); [reflexivity|].
  cbv zeta. apply Qred_complete, Qred_correct.
Qed.

(** Rounding twice is rounding once. *)
Lemma fl_idem (q : Q) : fl (fl q) = fl q.
Proof.
  destruct (fl_is_double q) as (m & e & Hm & He & E).
  transitivity (Qred (fl (fl q))); [symmetry; apply fl_canon|].
  transitivity (Qred (fl q)); [|apply fl_canon]. apply Qred_complete.
  rewrite (fl_comp _ _ E). rewrite E. apply fl_exact; assumption.
Qed.

Lemma fl_Z (z : Z) : (Z.abs z <= 2 ^ 53)%Z -> fl (inject_Z z) == inject_Z z.
Proof.
  intros H. pose proof (fl_exact z 0 H ltac:(lia)) as E.
  change (2 ^ 0) with 1 in E.
  rewrite (fl_comp (inject_Z z) (inject_Z z * 1)) by ring. rewrite E. ring.
Qed.

(** [round_half_even x] is an integer nearest to [x]. *)
Lemma round_half_even_nearest (x : Q) (z : Z) :
  Qabs (x - inject_Z (round_half_even x)) <= Qabs (x - inject_Z z).
Proof.
  pose proof (Qfloor_le x) as H1. pose proof (Qlt_floor x) as H2.
  rewrite inject_Z_plus in H2. change (inject_Z 1) with 1 in H2.
  assert (Hz : inject_Z z <= inject_Z (Qfloor x) \/ inject_Z (Qfloor x) + 1 <= inject_Z z).
  { destruct (Z_le_gt_dec z (Qfloor x)) as [L | G].
    - left. rewrite <- Zle_Qle. exact L.
    - right. change 1 with (inject_Z 1). rewrite <- inject_Z_plus, <- Zle_Qle. lia. }
  unfold round_half_even.
  destruct (Qcompare_spec (x - inject_Z (Qfloor x)) (1 # 2)) as [H | H | H];
    [destruct (Z.even (Qfloor x))| |];
    rewrite ?inject_Z_plus; change (inject_Z 1) with 1;
    apply Qabs_case; intros Ha; apply Qabs_case; intros Hb; destruct Hz; lra.
Qed.

(** A tie goes to the even integer. *)
Lemma round_half_even_tie (x : Q) :
  x - inject_Z (Qfloor x) == 1 # 2 -> Z.even (round_half_even x) = true.
Proof.
  intros H. unfold round_half_even.
  destruct (Qcompare_spec (x - inject_Z (Qfloor x)) (1 # 2)) as [E | E | E];
    [|exfalso; lra|exfalso; lra].
  destruct (Z.even (Qfloor x)) eqn:Ev; [exact Ev|].
  rewrite Z.even_add, Ev. reflexivity.
Qed.

Lemma Qabs_scale (a : Q) (e : Z) : Qabs (a * 2 ^ e) == Qabs a * 2 ^ e.
Proof. rewrite Qabs_Qmult, (Qabs_pos (2 ^ e)) by apply Qlt_le_weak, pow2_pos. reflexivity. Qed.

Lemma Qabs_div_pow2 (a : Q) (e : Z) : Qabs (a / 2 ^ e) == Qabs a / 2 ^ e.
Proof.
  unfold Qdiv. rewrite Qabs_Qmult, Qabs_Qinv, (Qabs_pos (2 ^ e)) by apply Qlt_le_weak, pow2_pos.
  reflexivity.
Qed.

(** No double is nearer to [q] than [fl q]. *)
Lemma fl_nearest (q d : Q) : is_double d -> Qabs (q - fl q) <= Qabs (q - d).
Proof.
  intros (m & e & Hm & He & Ed).
  destruct (Qeq_dec q 0) as [E | N].
  { rewrite (fl_zero q E), E. apply Qabs_case; intros; apply Qabs_case; intros; lra. }
  set (E := ulp_exp q). set (x := q / 2 ^ E).
  assert (Hq : q == x * 2 ^ E) by (unfold x; symmetry; apply div_pow2).
  assert (Hd : d == d / 2 ^ E * 2 ^ E) by (symmetry; apply div_pow2).
  assert (Hfl : fl q == inject_Z (round_half_even x) * 2 ^ E) by apply fl_eq, N.
  assert (Hx : Qabs (x - inject_Z (round_half_even x)) <= Qabs (x - d / 2 ^ E)).
  { destruct (Z_le_gt_dec E e) as [Le | Gt].
    - (* [d] lies on the grid of [q] *)
      assert (Ez : d / 2 ^ E == inject_Z (m * 2 ^ (e - E))).
      { rewrite inject_Z_mult, pow2_inject by lia. rewrite <- pow2_sub, Ed.
        pose proof (pow2_pos E) as Hp. field.
        intros Z0. rewrite Z0 in Hp. apply (Qlt_irrefl 0 Hp). }
      rewrite Ez. apply round_half_even_nearest.
    - (* [d] lies below the binade of [q] *)
      assert (Hn : 2 ^ (E + 52) <= Qabs q) by (apply ulp_exp_normal; [exact N | fold E; lia]).
      assert (Hax : 2 ^ 52 <= Qabs x).
      { unfold x. rewrite Qabs_div_pow2. apply div_pow2_ge. exact Hn. }
      assert (Hay : Qabs (d / 2 ^ E) <= 2 ^ 52).
      { rewrite Qabs_div_pow2, Ed, Qabs_scale. apply div_pow2_le.
        assert (Hm' : Qabs (inject_Z m) <= 2 ^ 53).
        { rewrite <- pow2_inject by lia. change (Qabs (inject_Z m)) with (inject_Z (Z.abs m)).
          rewrite <- Zle_Qle. exact Hm. }
        apply Qle_trans with (2 ^ 53 * 2 ^ e).
        { apply Qmult_le_compat_r; [exact Hm' | apply Qlt_le_weak, pow2_pos]. }
        rewrite <- pow2_add. apply pow2_le. lia. }
      apply Qabs_Qle_condition in Hay. destruct Hay as [Hy1 Hy2].
      revert Hax. apply Qabs_case; intros Hs Hax.
      + apply Qle_trans with (Qabs (x - inject_Z (2 ^ 52))); [apply round_half_even_nearest|].
        rewrite pow2_inject by lia.
        apply Qabs_case; intros; apply Qabs_case; intros; lra.
      + apply Qle_trans with (Qabs (x - inject_Z (- 2 ^ 52))); [apply round_half_even_nearest|].
        rewrite inject_Z_opp, pow2_inject by lia.
        apply Qabs_case; intros; apply Qabs_case; intros; lra. }
  assert (E1 : q - fl q == (x - inject_Z (round_half_even x)) * 2 ^ E).
  { rewrite Hfl. rewrite Hq at 1. ring. }
  assert (E2 : q - d == (x - d / 2 ^ E) * 2 ^ E).
  { rewrite Hq at 1. rewrite Hd at 1. ring. }
  rewrite E1, E2, !Qabs_scale.
  apply Qmult_le_compat_r; [exact Hx | apply Qlt_le_weak, pow2_pos].
Qed.

(** [Math.round]: the nearest integer, a half-way case going up. *)
Lemma Math_round_spec (a : Q) :
  exists z : Z, Math_round a = inject_Z z
                /\ inject_Z z - (1 # 2) <= a /\ a < inject_Z z + (1 # 2).
Proof.
  exists (Qfloor (a + (1 # 2))). split; [reflexivity|].
  pose proof (Qfloor_le (a + (1 # 2))) as H1. pose proof (Qlt_floor (a + (1 # 2))) as H2.
  rewrite inject_Z_plus in H2. change (inject_Z 1) with 1 in H2. split; lra.
Qed.

Lemma fmul_nonneg (a b : Q) : 0 <= a -> 0 <= b -> 0 <= fmul a b.
Proof.
  intros Ha Hb. unfold fmul. apply fl_nonneg, Qmult_le_0_compat; apply fl_nonneg; assumption.
Qed.

Lemma fmul_mono_r (a b b' : Q) : 0 <= a -> 0 <= b -> b <= b' -> fmul a b <= fmul a b'.
Proof.
  intros Ha Hb Hle. unfold fmul.
  pose proof (fl_nonneg a Ha). pose proof (fl_nonneg b Hb). pose proof (fl_mono b b' Hb Hle).
  apply fl_mono; [apply Qmult_le_0_compat; assumption|].
  rewrite !(Qmult_comm (fl a)). apply Qmult_le_compat_r; assumption.
Qed.

Lemma fmul_fl_r (a b : Q) : fmul a (fl b) = fmul a b.
Proof. unfold fmul. rewrite fl_idem. reflexivity. Qed.

Lemma fmul_1_r (a : Q) : fmul a 1 = fl a.
Proof.
  unfold fmul. rewrite (fl_comp (fl a * fl 1) (fl a)); [apply fl_idem|].
  change (fl 1) with 1. ring.
Qed.

(** [fmul a b] is a double nearest to the exact product of the operands,
    and [fdiv a b] one nearest to their exact quotient. *)
Lemma fmul_spec (a b : Q) :
  is_double (fmul a b)
  /\ forall d, is_double d -> Qabs (fl a * fl b - fmul a b) <= Qabs (fl a * fl b - d).
Proof. split; [apply fl_is_double | intros d; apply fl_nearest]. Qed.

Lemma fdiv_spec (a b : Q) :
  is_double (fdiv a b)
  /\ forall d, is_double d -> Qabs (fl a / fl b - fdiv a b) <= Qabs (fl a / fl b - d).
Proof. split; [apply fl_is_double | intros d; apply fl_nearest]. Qed.

(** Half-way between two doubles, the one with the even significand is
    taken. *)
Lemma fl_tie_even (q : Q) :
  ~ q == 0 ->
  q / 2 ^ ulp_exp q - inject_Z (Qfloor (q / 2 ^ ulp_exp q)) == 1 # 2 ->
  exists m : Z, Z.even m = true /\ fl q == inject_Z m * 2 ^ ulp_exp q.
Proof.
  intros N H. exists (round_half_even (q / 2 ^ ulp_exp q)).
  split; [apply round_half_even_tie, H | apply fl_eq, N].
Qed.

(** Where the code's result is finite, so is [fl]'s; where it is
    [Infinity], [fl]'s is above every finite double. *)
Lemma fl_finite (q : Q) : 0 <= q -> q < overflow_threshold -> fl q <= max_double.
Proof.
  intros H0 Hq. destruct (Qlt_le_dec q (2 ^ 1023)) as [Hlt | Hge].
  - apply Qle_trans with (fl (2 ^ 1023)); [apply fl_mono; lra|].
    vm_compute. discriminate.
  - assert (Hq' : q < 2 ^ 1024).
    { eapply Qlt_trans; [exact Hq|]. vm_compute. reflexivity. }
    assert (N : ~ q == 0).
    { intros E. rewrite E in Hge. revert Hge. vm_compute. intros C. apply C. reflexivity. }
    assert (El : Qlog2 (Qabs q) = 1023%Z).
    { apply Qlog2_unique; rewrite Qabs_pos by exact H0; [exact Hge | exact Hq']. }
    assert (Ee : ulp_exp q = 971%Z) by (unfold ulp_exp; rewrite El; reflexivity).
    rewrite (fl_eq q N), Ee. unfold max_double.
    apply Qmult_le_compat_r; [|apply Qlt_le_weak, pow2_pos].
    rewrite <- Zle_Qle.
    destruct (round_half_even_near (q / 2 ^ 971)) as [_ Hn].
    assert (Hx : q / 2 ^ 971 < inject_Z (2 ^ 53) - (1 # 2)).
    { apply Qlt_shift_div_r; [apply pow2_pos|].
      eapply Qlt_le_trans; [exact Hq|]. vm_compute. discriminate. }
    assert (Hlt : inject_Z (round_half_even (q / 2 ^ 971)) < inject_Z (2 ^ 53)) by lra.
    rewrite <- Zlt_Qlt in Hlt. lia.
Qed.

Lemma fl_overflow (q : Q) : overflow_threshold <= q -> 2 ^ 1024 <= fl q.
Proof.
  intros H. apply Qle_trans with (fl overflow_threshold).
  - vm_compute. discriminate.
  - apply fl_mono; [vm_compute; discriminate | exact H].
Qed.

(* ================================================================== *)
(** * Properties of the adaptive spacing                                *)
(* ================================================================== *)

Lemma list_max_app_nat (a b : list nat) :
  list_max (a ++ b) = Nat.max (list_max a) (list_max b).
Proof. apply list_max_app. Qed.

(** [_maxDepth] is the depth of the deepest leaf. *)
Lemma maxDepth_deepest_leaf (n : node) :
  _maxDepth n = list_max (List.map depth (leaves n)).
Proof.
  induction n as [n IH] using node_tree_ind.
  destruct n as [t u d dp p ci cs i nx ny w h f lh px py ls]. simpl in *.
  destruct cs as [|c cs]; [simpl; lia|].
  change (length (c :: cs) =? 0)%nat with false. cbv iota.
  induction IH as [|c' cs' Hc _ IHcs]; [reflexivity|].
  simpl. rewrite List.map_app, list_max_app_nat, Hc.
  f_equal. exact IHcs.
Qed.

Lemma Math_max_spec (a b : Q) :
  a <= Math_max a b /\ b <= Math_max a b /\ (Math_max a b = a \/ Math_max a b = b).
Proof.
  unfold Math_max. destruct (Qle_bool a b) eqn:E.
  - apply Qle_bool_iff in E. repeat split; [lra | lra | auto].
  - assert (~ a <= b) by (rewrite <- Qle_bool_iff; congruence).
    repeat split; [lra | lra | auto].
Qed.

Lemma Qdiv_le_den (a b c : Q) : 0 <= a -> 0 < c -> c <= b -> a / b <= a / c.
Proof.
  intros Ha Hc Hb. apply Qle_shift_div_l; [exact Hc|].
  assert (Hb' : 0 < b) by lra.
  assert (E : a / b * c == a * (c / b)) by (field; lra).
  rewrite E. rewrite <- (Qmult_1_r a) at 2.
  rewrite !(Qmult_comm a). apply Qmult_le_compat_r; [|exact Ha].
  apply Qle_shift_div_r; [exact Hb' | lra].
Qed.

Lemma nat_Q_mono (d d' : nat) : (d <= d')%nat -> nat_Q d <= nat_Q d'.
Proof. intros H. unfold nat_Q. rewrite <- Zle_Qle. lia. Qed.

Lemma nat_Q_nonneg (d : nat) : 0 <= nat_Q d.
Proof. apply (nat_Q_mono 0 d). lia. Qed.

(** The quotient [2.5 / maxD] of the code does not grow with the depth. *)
Lemma scale_quotient_antitone (d d' : nat) :
  (3 <= d)%nat -> (d <= d')%nat ->
  fdiv (25 # 10) (nat_Q d') <= fdiv (25 # 10) (nat_Q d).
Proof.
  intros H3 Hle. unfold fdiv.
  assert (Hd : 3 <= fl (nat_Q d)).
  { change 3 with (fl (nat_Q 3)). apply fl_mono; [apply nat_Q_nonneg | apply nat_Q_mono, H3]. }
  assert (Hdd : fl (nat_Q d) <= fl (nat_Q d'))
    by (apply fl_mono; [apply nat_Q_nonneg | apply nat_Q_mono, Hle]).
  assert (Ha : 0 <= fl (25 # 10)) by (apply fl_nonneg; lra).
  apply fl_mono.
  - apply Qle_shift_div_l; lra.
  - apply Qdiv_le_den; [exact Ha | lra | exact Hdd].
Qed.

(** From depth 6 on the quotient is below [MIN_FACTOR]. *)
Lemma depthFactor_floor (maxD : nat) : (6 <= maxD)%nat -> depthFactor maxD = fl (45 # 100).
Proof.
  intros H. unfold depthFactor.
  destruct (Nat.leb_spec maxD 2); [lia|].
  unfold Math_max.
  assert (E : Qle_bool (fl (45 # 100)) (fdiv (25 # 10) (nat_Q maxD)) = false);
    [|rewrite E; reflexivity].
  apply not_true_iff_false. rewrite Qle_bool_iff. intros Hle.
  pose proof (scale_quotient_antitone 6 maxD ltac:(lia) H) as Hq.
  assert (H6 : fdiv (25 # 10) (nat_Q 6) < fl (45 # 100)) by (vm_compute; reflexivity).
  lra.
Qed.

(** C5. In the horizontal modes the depth factor is 1 up to depth 2 and
    max(0.45, 2.5 / _maxDepth) beyond, _maxDepth being the depth of the
    deepest leaf; multiplier times depth factor scales (before rounding)
    the branch gap and the sub-level gap only, the sibling gap and the two
    vertical-layout gaps being scaled by the multiplier alone; at
    _maxDepth = 6, and at every greater depth, the branch gap is
    round(base * (multiplier * 0.45)).  In the vertical modes every gap is
    round(base * multiplier).  The products and the quotient are those of
    double arithmetic ([fmul], [fdiv]), the factor multiplier * depthFactor
    being formed first, as the code forms it; round is [Math.round]. *)
Theorem C5_adaptive_spacing (o : O.t) (root : node) :
  let sm := match O.spacing o with Some s => s | None => 1 end in
  let maxD := _maxDepth root in
  let sp := _computeAdaptiveSpacing o root in
  maxD = list_max (List.map depth (leaves root))
  /\ (is_vertical (O.layout o) = false ->
      ((maxD <= 2)%nat -> depthFactor maxD = 1)
      /\ ((2 < maxD)%nat ->
          depthFactor maxD = Math_max (fl (45 # 100)) (fdiv (25 # 10) (nat_Q maxD)))
      /\ Sp.branchSpacingX sp
         = Math_round (fmul (O.branchSpacingX o) (fmul sm (depthFactor maxD)))
      /\ Sp.subSpacingX sp
         = Math_round (fmul (O.subSpacingX o) (fmul sm (depthFactor maxD)))
      /\ Sp.verticalSpacing sp = Math_round (fmul (O.verticalSpacing o) sm)
      /\ Sp.verticalSpacingY sp = Math_round (fmul (O.verticalSpacingY o) sm)
      /\ Sp.horizontalSpacing sp = Math_round (fmul (O.horizontalSpacing o) sm)
      /\ ((6 <= maxD)%nat ->
          Sp.branchSpacingX sp
          = Math_round (fmul (O.branchSpacingX o) (fmul sm (45 # 100)))))
  /\ (is_vertical (O.layout o) = true ->
      Sp.branchSpacingX sp = Math_round (fmul (O.branchSpacingX o) sm)
      /\ Sp.subSpacingX sp = Math_round (fmul (O.subSpacingX o) sm)
      /\ Sp.verticalSpacing sp = Math_round (fmul (O.verticalSpacing o) sm)
      /\ Sp.verticalSpacingY sp = Math_round (fmul (O.verticalSpacingY o) sm)
      /\ Sp.horizontalSpacing sp = Math_round (fmul (O.horizontalSpacing o) sm)).
Proof.
  intros sm maxD sp. split; [apply maxDepth_deepest_leaf|].
  unfold sp, _computeAdaptiveSpacing. fold sm. fold maxD.
  split; intros Hv; rewrite Hv; cbn [Sp.branchSpacingX Sp.subSpacingX Sp.verticalSpacing
                                      Sp.verticalSpacingY Sp.horizontalSpacing].
  - split; [intros H; unfold depthFactor; apply Nat.leb_le in H; rewrite H; reflexivity|].
    split; [intros H; unfold depthFactor; apply Nat.leb_gt in H; rewrite H; reflexivity|].
    repeat (split; [reflexivity|]).
    intros H6. rewrite (depthFactor_floor maxD H6), fmul_fl_r. reflexivity.
  - repeat split.
Qed.

(** The gaps of a depth-6 chain with [branchSpacingX: 200] and
    [spacing: 1.15]. *)
Lemma C5_adaptive_spacing_witness :
  is_vertical (O.layout sample_scaled_options) = false
  /\ _maxDepth (sample_chain 0 6) = 6%nat
  /\ Sp.branchSpacingX (_computeAdaptiveSpacing sample_scaled_options (sample_chain 0 6))
     = Math_round (fmul 200 (fmul (115 # 100) (45 # 100)))
  /\ _computeAdaptiveSpacing sample_scaled_options (sample_chain 0 6)
     = Sp.mk 103 88 69 35 57.
Proof.
  pose proof (C5_adaptive_spacing sample_scaled_options (sample_chain 0 6)) as (_ & Hh & _).
  specialize (Hh eq_refl). destruct Hh as (_ & _ & Hb & Hs & Hv & Hvy & Hhs & H6).
  specialize (H6 (le_n 6)).
  split; [reflexivity|]. split; [reflexivity|]. split; [exact H6|].
  destruct (_computeAdaptiveSpacing sample_scaled_options (sample_chain 0 6))
    as [b s vy h v].
  cbn [Sp.branchSpacingX Sp.subSpacingX Sp.verticalSpacing
       Sp.verticalSpacingY Sp.horizontalSpacing] in *.
  rewrite Hb, Hs, Hv, Hvy, Hhs. vm_compute. reflexivity.
Defined.

(* ================================================================== *)
(** * Properties of text wrapping                                       *)
(* ================================================================== *)

Section WrapTextFacts.
Variable maxPx : Q.
Variable measureFn : string -> Q.

Local Abbreviation good := (good_line maxPx measureFn).
Local Abbreviation wrap_inv := (wrap_state_ok maxPx measureFn).

Lemma nonempty_true (s : string) : nonempty s = true <-> s <> "".
Proof.
  unfold nonempty. rewrite negb_true_iff. split.
  - intros H ->. discriminate.
  - intros H. apply String.eqb_neq. exact H.
Qed.

Lemma nonempty_false (s : string) : nonempty s = false <-> s = "".
Proof. unfold nonempty. rewrite negb_false_iff. apply String.eqb_eq. Qed.

Lemma append_nonempty_r (a b : string) : b <> "" -> a +:+ b <> "".
Proof. destruct a; simpl; [auto | discriminate]. Qed.

Lemma fits_good (s : string) :
  s <> "" -> Qle_bool (measureFn s) maxPx = true -> good s.
Proof. intros Hs H. split; [exact Hs|]. left. apply Qle_bool_iff, H. Qed.

Lemma single_char_good (c : ascii) : good (String c "").
Proof.
  split; [discriminate|].
  destruct (Qle_bool (measureFn (String c "")) maxPx) eqn:E.
  - left. apply Qle_bool_iff, E.
  - right. split; [reflexivity|].
    apply Qnot_le_lt. rewrite <- Qle_bool_iff. congruence.
Qed.

Lemma Forall_push (P : string -> Prop) (l : list string) (s : string) :
  Forall P l -> P s -> Forall P (push l s).
Proof. intros Hl Hs. unfold push. apply Forall_app. split; auto. Qed.

Lemma breakWord_loop_good (rest : string) (chunks : list string) (chunk : string) :
  Forall good chunks -> (chunk = "" \/ good chunk) ->
  let '(chunks', chunk') := breakWord_loop maxPx measureFn rest chunks chunk in
  Forall good chunks' /\ (chunk' = "" \/ good chunk')
  /\ (rest <> "" \/ chunk <> "" -> chunk' <> "").
Proof.
  revert chunks chunk. induction rest as [|c rest IH]; intros chunks chunk Hcs Hc.
  - simpl. repeat split; auto. intros [H|H]; [congruence | exact H].
  - simpl.
    destruct (Qle_bool (measureFn (chunk +:+ String c "")) maxPx) eqn:E.
    + assert (Hne : chunk +:+ String c "" <> "") by (apply append_nonempty_r; discriminate).
      specialize (IH chunks (chunk +:+ String c "") Hcs (or_intror (fits_good _ Hne E))).
      destruct (breakWord_loop _ _ rest chunks _) as [chunks' chunk'].
      destruct IH as (H1 & H2 & H3). repeat split; auto.
    + assert (Hcs' : Forall good (if nonempty chunk then push chunks chunk else chunks)).
      { destruct (nonempty chunk) eqn:En; [|exact Hcs].
        apply Forall_push; [exact Hcs|].
        destruct Hc as [->|Hc]; [discriminate | exact Hc]. }
      specialize (IH _ (String c "") Hcs' (or_intror (single_char_good c))).
      destruct (breakWord_loop _ _ rest _ _) as [chunks' chunk'].
      destruct IH as (H1 & H2 & H3). repeat split; auto.
      all: intros _; apply H3; right; discriminate.
Qed.

Lemma breakWord_good (word : string) :
  word <> "" -> Forall good (breakWord maxPx measureFn word) /\
                breakWord maxPx measureFn word <> [].
Proof.
  intros Hw. unfold breakWord.
  pose proof (breakWord_loop_good word [] "" (List.Forall_nil _) (or_introl eq_refl)) as H.
  destruct (breakWord_loop _ _ word [] "") as [chunks chunk].
  destruct H as (H1 & H2 & H3).
  specialize (H3 (or_introl Hw)).
  apply nonempty_true in H3 as Hne. rewrite Hne.
  destruct H2 as [->|H2]; [congruence|].
  unfold push. rewrite length_app. simpl.
  replace (0 <? length chunks + 1)%nat with true by (symmetry; apply Nat.ltb_lt; lia).
  split; [apply Forall_app; auto|]. destruct chunks; discriminate.
Qed.

Lemma wrap_part_inv (st : list string * string) (part : string) :
  wrap_inv st -> good part ->
  wrap_inv (wrap_part maxPx measureFn st part)
  /\ snd (wrap_part maxPx measureFn st part) <> "".
Proof.
  destruct st as [lines current]. intros [Hl Hc] Hp. simpl in *.
  set (candidate := if nonempty current then current +:+ " " +:+ part else part).
  assert (Hne : candidate <> "").
  { unfold candidate. destruct (nonempty current); [|exact (proj1 Hp)].
    apply append_nonempty_r. discriminate. }
  destruct (Qle_bool (measureFn candidate) maxPx) eqn:E; simpl.
  - split; [|exact Hne]. split; [exact Hl | right; apply fits_good; assumption].
  - split; [|exact (proj1 Hp)]. split; [|right; exact Hp]. simpl.
    destruct (nonempty current) eqn:En; [|exact Hl].
    apply Forall_push; [exact Hl|].
    destruct Hc as [->|Hc]; [discriminate | exact Hc].
Qed.

Lemma wrap_parts_inv (parts : list string) (st : list string * string) :
  wrap_inv st -> Forall good parts ->
  wrap_inv (fold_left (wrap_part maxPx measureFn) parts st)
  /\ (parts <> [] \/ snd st <> "" ->
      snd (fold_left (wrap_part maxPx measureFn) parts st) <> "").
Proof.
  revert st. induction parts as [|p parts IH]; intros st Hst Hps.
  - simpl. split; [exact Hst|]. intros [H|H]; [congruence | exact H].
  - simpl. apply Forall_cons_1 in Hps as [Hp Hps].
    destruct (wrap_part_inv st p Hst Hp) as [Hinv Hne].
    destruct (IH _ Hinv Hps) as [H1 H2]. split; [exact H1|].
    intros _. apply H2. right. exact Hne.
Qed.

Lemma wrap_word_inv (st : list string * string) (word : string) :
  wrap_inv st -> word <> "" ->
  wrap_inv (wrap_word maxPx measureFn st word)
  /\ snd (wrap_word maxPx measureFn st word) <> "".
Proof.
  intros Hst Hw. unfold wrap_word.
  destruct (Qgt_bool (measureFn word) maxPx) eqn:E.
  - destruct (breakWord_good word Hw) as [Hg Hne].
    destruct (wrap_parts_inv _ st Hst Hg) as [H1 H2]. auto.
  - assert (Hg : Forall good [word]).
    { constructor; [|constructor]. apply fits_good; [exact Hw|].
      unfold Qgt_bool in E. apply negb_false_iff in E. exact E. }
    destruct (wrap_parts_inv _ st Hst Hg) as [H1 H2].
    split; [exact H1|]. apply H2. left. discriminate.
Qed.

Lemma wrap_words_inv (words : list string) (st : list string * string) :
  wrap_inv st -> Forall (fun w => w <> "") words ->
  wrap_inv (fold_left (wrap_word maxPx measureFn) words st)
  /\ (words <> [] ->
      snd (fold_left (wrap_word maxPx measureFn) words st) <> "").
Proof.
  revert st. induction words as [|w words IH]; intros st Hst Hws.
  - simpl. split; [exact Hst | congruence].
  - simpl. apply Forall_cons_1 in Hws as [Hw Hws].
    destruct (wrap_word_inv st w Hst Hw) as [Hinv Hne].
    destruct (IH _ Hinv Hws) as [H1 H2]. split; [exact H1|].
    intros _. destruct words as [|w' words]; [exact Hne|].
    apply H2. discriminate.
Qed.

Lemma words_nonempty (text : string) :
  Forall (fun w => w <> "") (List.filter nonempty (split_ws text)).
Proof.
  apply List.Forall_forall. intros w Hw.
  apply List.filter_In in Hw as [_ Hw]. apply nonempty_true, Hw.
Qed.

Lemma split_go_whitespace (s : string) (prev : bool) :
  forallb is_ws (list_ascii_of_string s) = true ->
  Forall (fun f => f = "") (split_go "" prev s).
Proof.
  revert prev. induction s as [|c s IH]; intros prev Hws; simpl in *.
  - constructor; [reflexivity | constructor].
  - apply andb_true_iff in Hws as [Hc Hs]. rewrite Hc.
    destruct prev; [apply IH, Hs|].
    constructor; [reflexivity | apply IH, Hs].
Qed.

Lemma wrapText_whitespace (text : string) :
  all_whitespace text = true -> wrapText maxPx measureFn text = [""].
Proof.
  intros Hws. unfold wrapText.
  assert (E : List.filter nonempty (split_ws text) = []).
  { pose proof (split_go_whitespace text false Hws) as H.
    unfold split_ws. induction H as [|f fs -> _ IH]; [reflexivity | exact IH]. }
  rewrite E. reflexivity.
Qed.

Lemma split_go_word (s field : string) (prev : bool) :
  (prev = true -> field = "") ->
  field <> "" \/ forallb is_ws (list_ascii_of_string s) = false ->
  List.filter nonempty (split_go field prev s) <> [].
Proof.
  revert field prev. induction s as [|c s IH]; intros field prev Hprev H; simpl in *.
  - destruct H as [H|H]; [|discriminate].
    apply nonempty_true in H. rewrite H. discriminate.
  - destruct (is_ws c) eqn:Ec; simpl in H.
    + destruct prev.
      * apply IH; [reflexivity|]. destruct H as [H|H]; [|auto].
        rewrite Hprev in H by reflexivity. congruence.
      * simpl. destruct (nonempty field) eqn:En; [discriminate|].
        apply nonempty_false in En. subst.
        apply IH; [reflexivity|]. destruct H as [H|H]; [congruence | auto].
    + apply IH; [discriminate|]. left. apply append_nonempty_r. discriminate.
Qed.

Lemma wrapText_not_nil (text : string) : wrapText maxPx measureFn text <> [].
Proof.
  unfold wrapText.
  destruct (List.filter nonempty (split_ws text)) as [|w ws] eqn:Ew;
    [discriminate|].
  change (length (w :: ws) =? 0)%nat with false. cbv iota.
  pose proof (words_nonempty text) as Hws. rewrite Ew in Hws.
  destruct (wrap_words_inv (w :: ws) ([], "") (conj (List.Forall_nil _) (or_introl eq_refl)) Hws)
    as [_ Hne].
  specialize (Hne ltac:(discriminate)).
  destruct (fold_left _ (w :: ws) _) as [lines current]. simpl in Hne.
  apply nonempty_true in Hne. rewrite Hne. unfold push.
  destruct lines; discriminate.
Qed.

Lemma wrapText_lines_ok (text : string) :
  all_whitespace text = false ->
  Forall (line_ok maxPx measureFn) (wrapText maxPx measureFn text).
Proof.
  intros Hws. unfold wrapText.
  destruct (List.filter nonempty (split_ws text)) as [|w ws] eqn:Ew.
  - exfalso. revert Ew. apply split_go_word; [discriminate | right; exact Hws].
  - change (length (w :: ws) =? 0)%nat with false. cbv iota.
    pose proof (words_nonempty text) as Hwn. rewrite Ew in Hwn.
    destruct (wrap_words_inv (w :: ws) ([], "") (conj (List.Forall_nil _) (or_introl eq_refl)) Hwn)
      as [[Hl Hc] _].
    destruct (fold_left _ (w :: ws) _) as [lines current]. simpl in Hl, Hc.
    assert (Hok : Forall (line_ok maxPx measureFn) lines)
      by (eapply List.Forall_impl; [|exact Hl]; intros ? [_ ?]; assumption).
    destruct (nonempty current) eqn:En; [|exact Hok].
    unfold push. apply Forall_app. split; [exact Hok|].
    constructor; [|constructor].
    destruct Hc as [->|[_ Hc]]; [discriminate | exact Hc].
Qed.
End WrapTextFacts.

(** C4 (amended). [wrapText] returns at least one line, the single empty
    line for an empty or whitespace-only text; for any other text no
    returned line is wider than the budget, except a line that is a single
    character wider than the budget by itself.  (The empty line is returned
    unmeasured.) *)
Theorem C4_wrapText_lines (text : string) (maxPx : Q) (measureFn : string -> Q) :
  (1 <= length (wrapText maxPx measureFn text))%nat
  /\ (all_whitespace text = true -> wrapText maxPx measureFn text = [""])
  /\ (all_whitespace text = false ->
      Forall (line_ok maxPx measureFn) (wrapText maxPx measureFn text)).
Proof.
  split; [|split].
  - pose proof (wrapText_not_nil maxPx measureFn text) as H.
    destruct (wrapText maxPx measureFn text); [congruence | simpl; lia].
  - apply wrapText_whitespace.
  - apply wrapText_lines_ok.
Qed.

Lemma C4_wrapText_lines_witness :
  let text := "SuperLongSingleWordWithoutSpacesThatShouldStillRender" in
  let measureFn := fun t => eight_per_char t 14 in
  all_whitespace text = false
  /\ Forall (line_ok 100 measureFn) (wrapText 100 measureFn text)
  /\ all_whitespace "   " = true
  /\ wrapText 100 measureFn "   " = [""].
Proof.
  split; [reflexivity|].
  split; [apply (C4_wrapText_lines
                   "SuperLongSingleWordWithoutSpacesThatShouldStillRender" 100
                   (fun t => eight_per_char t 14)); reflexivity|].
  split; [reflexivity|].
  apply (C4_wrapText_lines "   " 100 (fun t => eight_per_char t 14)). reflexivity.
Defined.

(** C4, as stated, fails on the empty line: under a negative budget the
    empty text yields the empty line, whose measured width 0 exceeds the
    budget although it is not a single character; likewise under the
    budget 5 when the measurement of the empty string is 10. *)
Lemma C4_empty_line_exceeds_budget :
  (wrapText (-1) (fun t => eight_per_char t 14) "" = [""]
   /\ ~ line_ok (-1) (fun t => eight_per_char t 14) "")
  /\ (wrapText 5 (fun t => padded_measure t 14) "   " = [""]
      /\ ~ line_ok 5 (fun t => padded_measure t 14) "").
Proof.
  split; (split; [reflexivity|]);
    (intros [H | [H _]]; [|discriminate]);
    vm_compute in H; apply H; reflexivity.
Qed.


(* ================================================================== *)
(** * Properties of the layout                                          *)
(* ================================================================== *)

Section LayoutFacts.
Variable o : O.t.
Variable sp : Sp.t.
Variable collapsed : gset nat.

Local Abbreviation _subtreeHeight := (_subtreeHeight sp collapsed).
Local Abbreviation _subtreeWidth := (_subtreeWidth sp collapsed).
Local Abbreviation _layoutNode := (_layoutNode sp collapsed).
Local Abbreviation layoutVerticalAt := (layoutVerticalAt sp collapsed).
Local Abbreviation _drawSubtree := (_drawSubtree collapsed).


Lemma fold_sum_map {A} (f : A -> Q) (l : list A) (a : Q) :
  fold_left (fun acc c => acc + f c) l a = fold_left Qplus (List.map f l) a.
Proof. revert a. induction l as [|c l IH]; intros a; simpl; [reflexivity | apply IH]. Qed.

Lemma fold_Qplus_acc (l : list Q) (a : Q) :
  fold_left Qplus l a == a + fold_left Qplus l 0.
Proof.
  revert a. induction l as [|h l IH]; intros a; simpl; [ring|].
  rewrite (IH (a + h)), (IH (0 + h)). ring.
Qed.

Lemma sum_cons (h : Q) (l : list Q) : sum (h :: l) == h + sum l.
Proof. unfold sum. simpl. rewrite fold_Qplus_acc. ring. Qed.

(** The recursion equations, with the sum over the children spelled out. *)
Lemma subtreeHeight_eq (n : node) :
  _subtreeHeight n =
  if childless_or_collapsed collapsed n then height n + Sp.verticalSpacing sp
  else Math_max (sum (List.map _subtreeHeight (children n)))
                (height n + Sp.verticalSpacing sp).
Proof.
  destruct n as [t u d dp p ci cs i nx ny w h f lh px py ls]. simpl.
  rewrite fold_sum_map. reflexivity.
Qed.

Lemma subtreeWidth_eq (n : node) :
  _subtreeWidth n =
  if childless_or_collapsed collapsed n then width n + Sp.horizontalSpacing sp
  else Math_max (sum (List.map _subtreeWidth (children n)))
                (width n + Sp.horizontalSpacing sp).
Proof.
  destruct n as [t u d dp p ci cs i nx ny w h f lh px py ls]. simpl.
  rewrite fold_sum_map. reflexivity.
Qed.

Lemma layoutNode_eq (n : node) (anchorX ny : Q) (dir : string) :
  _layoutNode n anchorX ny dir =
  let nx := if String.eqb dir "right"
            then anchorX + width n / 2
            else anchorX - width n / 2 in
  if childless_or_collapsed collapsed n then set_xy n nx ny
  else
    let nextAnchor := if String.eqb dir "right"
                      then nx + width n / 2 + Sp.subSpacingX sp
                      else nx - width n / 2 - Sp.subSpacingX sp in
    let heights := List.map _subtreeHeight (children n) in
    set_children (set_xy n nx ny)
      (layoutChildren sp collapsed nextAnchor dir (children n) heights
         (ny - sum heights / 2)).
Proof.
  destruct n as [t u d dp p ci cs i nx ny' w h f lh px py ls]. simpl.
  destruct (childless_or_collapsed _ _); [reflexivity|].
  f_equal.
  generalize (ny - sum (List.map _subtreeHeight cs) / 2).
  generalize (List.map _subtreeHeight cs).
  induction cs as [|c cs IH]; intros hs cy; [reflexivity|].
  destruct hs as [|h0 hs]; [reflexivity|].
  simpl. f_equal. apply IH.
Qed.

Lemma layoutVerticalAt_eq (n : node) (nx ny sign : Q) :
  layoutVerticalAt n nx ny sign =
  if childless_or_collapsed collapsed n then set_xy n nx ny
  else
    let edgeY := ny + sign * (height n / 2 + Sp.verticalSpacingY sp) in
    let widths := List.map _subtreeWidth (children n) in
    set_children (set_xy n nx ny)
      (layoutVerticalChildren sp collapsed edgeY sign (children n) widths
         (nx - sum widths / 2)).
Proof.
  destruct n as [t u d dp p ci cs i nx' ny' w h f lh px py ls]. simpl.
  destruct (childless_or_collapsed _ _); [reflexivity|].
  f_equal.
  generalize (nx - sum (List.map _subtreeWidth cs) / 2).
  generalize (List.map _subtreeWidth cs).
  induction cs as [|c cs IH]; intros ws cx; [reflexivity|].
  destruct ws as [|w0 ws]; [reflexivity|].
  simpl. f_equal. apply IH.
Qed.

(** [_layoutVerticalNode], as the source has it: the parent assigns the
    coordinates of a child and recurses into it. *)
Lemma layoutVerticalNode_eq (n : node) (sign : Q) :
  _layoutVerticalNode sp collapsed n sign =
  if childless_or_collapsed collapsed n then n
  else
    let edgeY := y n + sign * (height n / 2 + Sp.verticalSpacingY sp) in
    let widths := List.map _subtreeWidth (children n) in
    set_children n
      ((fix forEach (cs : list node) (ws : list Q) (cx : Q) : list node :=
          match cs, ws with
          | child :: cs', w :: ws' =>
              _layoutVerticalNode sp collapsed
                (set_xy child (cx + w / 2) (edgeY + sign * height child / 2)) sign
                :: forEach cs' ws' (cx + w)
          | _, _ => cs
          end) (children n) widths (x n - sum widths / 2)).
Proof.
  unfold _layoutVerticalNode. rewrite layoutVerticalAt_eq.
  destruct n as [t u d dp p ci cs i nx' ny' w h f lh px py ls].
  simpl. destruct (childless_or_collapsed _ _); [reflexivity|].
  unfold set_children, set_xy. simpl. f_equal.
  generalize (nx' - sum (List.map _subtreeWidth cs) / 2).
  generalize (List.map _subtreeWidth cs).
  induction cs as [|c cs IH]; intros ws cx; [reflexivity|].
  destruct ws as [|w0 ws]; [reflexivity|].
  simpl. f_equal; [|apply IH].
  destruct c; reflexivity.
Qed.
End LayoutFacts.

Section FootprintFacts.
Variable sp : Sp.t.
Variable collapsed : gset nat.

Local Abbreviation _subtreeHeight := (_subtreeHeight sp collapsed).

Lemma collapsed_footprint (n : node) :
  _id n ∈ collapsed -> _subtreeHeight n = height n + Sp.verticalSpacing sp.
Proof.
  intros Hc. rewrite subtreeHeight_eq. unfold childless_or_collapsed.
  rewrite (bool_decide_eq_true_2 _ Hc), orb_true_r. reflexivity.
Qed.

Lemma children_set_children (n : node) (cs : list node) :
  children (set_children n cs) = cs.
Proof. reflexivity. Qed.

Lemma map_alter_same {A B} (f : A -> B) (g : A -> A) (i : nat) (l : list A) :
  (forall a, l !! i = Some a -> f (g a) = f a) ->
  List.map f (alter g i l) = List.map f l.
Proof.
  revert i. induction l as [|a l IH]; intros i H; [reflexivity|].
  destruct i as [|i]; simpl.
  - rewrite (H a eq_refl). reflexivity.
  - f_equal. apply IH. intros b Hb. apply H. exact Hb.
Qed.

(** Replacing the children of a collapsed node changes no footprint above
    it. *)
Lemma footprint_ignores_hidden (path : list nat) (cs' : list node) :
  forall root X,
  node_at path root = Some X -> _id X ∈ collapsed ->
  _subtreeHeight (replace_children_at path cs' root) = _subtreeHeight root.
Proof.
  induction path as [|i path IH]; intros root X Hat Hc.
  - simpl in Hat. injection Hat as ->. simpl replace_children_at.
    rewrite !collapsed_footprint by (destruct X; exact Hc).
    destruct X; reflexivity.
  - simpl in Hat. destruct (children root !! i) as [c|] eqn:Hi; [|discriminate].
    simpl replace_children_at.
    rewrite (subtreeHeight_eq _ _ (set_children root _)), (subtreeHeight_eq _ _ root).
    unfold childless_or_collapsed.
    rewrite children_set_children, length_alter.
    replace (_id (set_children root (alter (replace_children_at path cs') i (children root))))
      with (_id root) by (destruct root; reflexivity).
    replace (height (set_children root (alter (replace_children_at path cs') i (children root))))
      with (height root) by (destruct root; reflexivity).
    rewrite (map_alter_same _subtreeHeight); [reflexivity|].
    intros a Ha. rewrite Hi in Ha. injection Ha as <-.
    apply (IH c X Hat Hc).
Qed.

Lemma node_at_replace_prefix (p1 p2 : list nat) (cs' : list node) :
  forall root A,
  node_at p1 root = Some A ->
  node_at p1 (replace_children_at (p1 ++ p2) cs' root)
  = Some (replace_children_at p2 cs' A).
Proof.
  induction p1 as [|i p1 IH]; intros root A Hat.
  - simpl in *. congruence.
  - simpl in Hat. destruct (children root !! i) as [c|] eqn:Hi; [|discriminate].
    simpl. rewrite list_lookup_alter_eq, Hi. simpl. apply IH. exact Hat.
Qed.

Lemma node_at_app (p1 p2 : list nat) :
  forall root X, node_at (p1 ++ p2) root = Some X ->
  exists A, node_at p1 root = Some A /\ node_at p2 A = Some X.
Proof.
  induction p1 as [|i p1 IH]; intros root X Hat.
  - exists root. split; [reflexivity | exact Hat].
  - simpl in *. destruct (children root !! i) as [c|]; [|discriminate].
    apply IH, Hat.
Qed.
End FootprintFacts.

(* ------------------------------------------------------------------ *)
(** ** Pairwise separation: general facts                               *)
(* ------------------------------------------------------------------ *)

(** Linear arithmetic over [Q] with the halves [_ / 2] of the layout. *)
Ltac qlra :=
  unfold Qdiv in *; change (Qinv 2) with (1 # 2) in *; lra.

Lemma separated_no_overlap (a b : node) : separated a b -> ~ overlaps a b.
Proof. unfold separated, overlaps. intros Hs Ho. qlra. Qed.

Lemma FOP_app {A} (R : A -> A -> Prop) (l1 l2 : list A) :
  ForallOrdPairs R l1 -> ForallOrdPairs R l2 ->
  (forall a b, In a l1 -> In b l2 -> R a b) ->
  ForallOrdPairs R (l1 ++ l2).
Proof.
  intros H1 H2 H12. induction H1 as [|a l Ha Hl IH]; simpl; [exact H2|].
  constructor.
  - apply Forall_app. split; [exact Ha|].
    apply List.Forall_forall. intros b Hb. apply H12; [left; reflexivity | exact Hb].
  - apply IH. intros a' b Ha' Hb. apply H12; [right; exact Ha' | exact Hb].
Qed.

Lemma FOP_impl {A} (R R' : A -> A -> Prop) (l : list A) :
  (forall a b, R a b -> R' a b) -> ForallOrdPairs R l -> ForallOrdPairs R' l.
Proof.
  intros HR H. induction H as [|a l Ha Hl IH]; constructor; [|exact IH].
  eapply List.Forall_impl; [|exact Ha]. intros b. apply HR.
Qed.

Lemma separated_all_no_overlap (ns : list node) :
  ForallOrdPairs separated ns -> no_overlap ns.
Proof. apply FOP_impl. exact separated_no_overlap. Qed.

(* ------------------------------------------------------------------ *)
(** ** The horizontal family                                            *)
(* ------------------------------------------------------------------ *)

Section HorizontalFacts.
Variable sp : Sp.t.
Variable collapsed : gset nat.
Hypothesis Hsp : spacing_nonneg sp.

Local Abbreviation _subtreeHeight := (_subtreeHeight sp collapsed).
Local Abbreviation _layoutNode := (_layoutNode sp collapsed).
Local Abbreviation layoutChildren := (layoutChildren sp collapsed).
Local Abbreviation _drawSubtree := (_drawSubtree collapsed).


Lemma sized_inv (n : node) :
  sized n -> 0 <= width n /\ 0 <= height n /\ Forall sized (children n).
Proof.
  unfold sized. destruct n as [t u d dp p ci cs i nx ny w h f lh px py ls]. simpl.
  intros H. apply Forall_cons_1 in H as [[Hw Hh] Hcs].
  split; [exact Hw|]. split; [exact Hh|]. clear Hw Hh.
  induction cs as [|c cs IH]; [constructor|].
  simpl in Hcs. apply Forall_app in Hcs as [Hc Hcs].
  constructor; [exact Hc | apply IH, Hcs].
Qed.

Lemma subtreeHeight_lower (n : node) :
  height n + Sp.verticalSpacing sp <= _subtreeHeight n.
Proof.
  rewrite subtreeHeight_eq. destruct (childless_or_collapsed _ _); [lra|].
  apply Math_max_spec.
Qed.

Lemma subtreeHeight_children_le (n : node) :
  childless_or_collapsed collapsed n = false ->
  sum (List.map _subtreeHeight (children n)) <= _subtreeHeight n.
Proof.
  intros H. rewrite (subtreeHeight_eq sp collapsed n), H. apply Math_max_spec.
Qed.

Lemma sum_heights_nonneg (cs : list node) :
  Forall sized cs -> 0 <= sum (List.map _subtreeHeight cs).
Proof.
  induction 1 as [|c cs Hc _ IH]; [unfold sum; simpl; lra|].
  simpl List.map. rewrite sum_cons.
  pose proof (subtreeHeight_lower c) as Hl.
  apply sized_inv in Hc as (_ & Hh & _).
  destruct Hsp as (_ & _ & _ & _ & Hvs). qlra.
Qed.

Lemma layoutNode_box (n : node) (anchorX ny : Q) (dir : string) :
  let n' := _layoutNode n anchorX ny dir in
  x n' = (if String.eqb dir "right" then anchorX + width n / 2 else anchorX - width n / 2)
  /\ y n' = ny /\ width n' = width n /\ height n' = height n
  /\ _id n' = _id n /\ direction n' = direction n.
Proof.
  intros n'. unfold n'. rewrite layoutNode_eq.
  destruct n as [t u d dp p ci cs i nx ny' w h f lh px py ls]. simpl.
  destruct (childless_or_collapsed _ _); simpl; repeat split.
Qed.

Lemma drawSubtree_layoutNode (n : node) (anchorX ny : Q) (dir : string) :
  _drawSubtree (_layoutNode n anchorX ny dir) =
  if childless_or_collapsed collapsed n then []
  else
    let nx := if String.eqb dir "right"
              then anchorX + width n / 2 else anchorX - width n / 2 in
    let nextAnchor := if String.eqb dir "right"
                      then nx + width n / 2 + Sp.subSpacingX sp
                      else nx - width n / 2 - Sp.subSpacingX sp in
    let heights := List.map _subtreeHeight (children n) in
    drawn_below collapsed (layoutChildren nextAnchor dir (children n) heights
                   (ny - sum heights / 2)).
Proof.
  rewrite layoutNode_eq.
  destruct n as [t u d dp p ci cs i nx ny' w h f lh px py ls].
  unfold childless_or_collapsed. simpl.
  destruct cs as [|c cs]; simpl.
  - destruct (bool_decide _); reflexivity.
  - destruct (bool_decide (i ∈ collapsed)) eqn:E; simpl; rewrite E; reflexivity.
Qed.

Local Abbreviation region_ok := (region_ok sp collapsed).

Lemma drawn_below_cons (c : node) (cs : list node) :
  drawn_below collapsed (c :: cs)
  = (c :: _drawSubtree c) ++ drawn_below collapsed cs.
Proof. reflexivity. Qed.

Lemma layoutChildren_region (cs : list node) :
  Forall sized cs -> Forall region_ok cs ->
  forall anchorX dir cy,
    let cs' := layoutChildren anchorX dir cs (List.map _subtreeHeight cs) cy in
    Forall (fun b => beyond dir anchorX b
                     /\ in_band cy (cy + sum (List.map _subtreeHeight cs)) b)
           (drawn_below collapsed cs')
    /\ ForallOrdPairs separated (drawn_below collapsed cs').
Proof.
  intros Hsz Hreg. induction Hreg as [|c cs Hc Hcs IH]; intros anchorX dir cy.
  - simpl. split; constructor.
  - apply Forall_cons_1 in Hsz as [Hszc Hszcs].
    specialize (IH Hszcs anchorX dir (cy + _subtreeHeight c)).
    destruct IH as [IHa IHb].
    destruct (Hc anchorX (cy + _subtreeHeight c / 2) dir) as [Ha Hb].
    pose proof (sum_heights_nonneg cs Hszcs) as Hsum.
    pose proof (subtreeHeight_lower c) as Hlow.
    pose proof (sum_cons (_subtreeHeight c) (List.map _subtreeHeight cs)) as Hsc.
    apply sized_inv in Hszc as (_ & Hh & _).
    assert (Hvs : 0 <= Sp.verticalSpacing sp) by apply Hsp.
    cbv zeta. simpl List.map.
    change (layoutChildren anchorX dir (c :: cs)
              (_subtreeHeight c :: List.map _subtreeHeight cs) cy)
      with (_layoutNode c anchorX (cy + _subtreeHeight c / 2) dir
              :: layoutChildren anchorX dir cs (List.map _subtreeHeight cs)
                   (cy + _subtreeHeight c)).
    rewrite drawn_below_cons.
    split.
    + apply Forall_app. split.
      * eapply List.Forall_impl; [|exact Ha].
        intros b [H1 H2]. split; [exact H1|]. unfold in_band in *.
        qlra.
      * eapply List.Forall_impl; [|exact IHa].
        intros b [H1 H2]. split; [exact H1|]. unfold in_band in *. qlra.
    + apply FOP_app; [exact Hb | exact IHb |].
      intros a b Hina Hinb.
      rewrite List.Forall_forall in Ha, IHa.
      destruct (Ha a Hina) as [_ [_ Ha2]].
      destruct (IHa b Hinb) as [_ [Hb1 _]].
      unfold separated. right. right. left. qlra.
Qed.

Lemma Forall_modus {A} (P Q : A -> Prop) (l : list A) :
  Forall (fun a => P a -> Q a) l -> Forall P l -> Forall Q l.
Proof.
  induction 1 as [|a l Ha _ IH]; intros HP; [constructor|].
  apply Forall_cons_1 in HP as [HPa HPl]. constructor; auto.
Qed.

Lemma layoutNode_region (n : node) : sized n -> region_ok n.
Proof.
  induction n as [n IH] using node_tree_ind. intros Hsz.
  pose proof (sized_inv n Hsz) as (Hw & Hh & Hszcs).
  pose proof (Forall_modus _ _ _ IH Hszcs) as Hreg.
  intros anchorX ny dir n'.
  destruct (layoutNode_box n anchorX ny dir) as (Ex & Ey & Ew & Eh & _).
  fold n' in Ex, Ey, Ew, Eh.
  pose proof (subtreeHeight_lower n) as Hlow.
  destruct Hsp as (_ & Hsub & _ & _ & Hvs).
  assert (Hself : beyond dir anchorX n'
                  /\ in_band (ny - _subtreeHeight n / 2) (ny + _subtreeHeight n / 2) n').
  { unfold beyond, in_band, left_edge, right_edge, top_edge, bottom_edge.
    rewrite Ex, Ey, Ew, Eh. destruct (String.eqb dir "right"); split; qlra. }
  unfold n' at 2 4. rewrite drawSubtree_layoutNode.
  destruct (childless_or_collapsed collapsed n) eqn:Ecc.
  - split; [constructor; [exact Hself | constructor]|].
    constructor; constructor.
  - cbv zeta.
    set (nextAnchor := if String.eqb dir "right" then _ else _).
    pose proof (subtreeHeight_children_le n Ecc) as Hle.
    destruct (layoutChildren_region (children n) Hszcs Hreg nextAnchor dir
                (ny - sum (List.map _subtreeHeight (children n)) / 2)) as [Ha Hb].
    split.
    + constructor; [exact Hself|].
      eapply List.Forall_impl; [|exact Ha].
      intros b [H1 H2]. split.
      * unfold beyond in *. unfold nextAnchor in H1.
        destruct (String.eqb dir "right"); qlra.
      * unfold in_band in *. qlra.
    + constructor; [|exact Hb].
      eapply List.Forall_impl; [|exact Ha].
      intros b [H1 _]. unfold separated, beyond in *. unfold nextAnchor in H1.
      unfold left_edge, right_edge. rewrite Ex, Ew.
      destruct (String.eqb dir "right"); [left | right; left];
        unfold left_edge, right_edge in H1; qlra.
Qed.
End HorizontalFacts.

(* ------------------------------------------------------------------ *)
(** ** Hidden descendants do not move anything                          *)
(* ------------------------------------------------------------------ *)

Section HiddenFacts.
Variable sp : Sp.t.
Variable collapsed : gset nat.

Local Abbreviation _subtreeHeight := (_subtreeHeight sp collapsed).
Local Abbreviation _layoutNode := (_layoutNode sp collapsed).
Local Abbreviation layoutChildren := (layoutChildren sp collapsed).
Local Abbreviation _drawSubtree := (_drawSubtree collapsed).

Lemma geometry_layoutNode (n : node) (anchorX ny : Q) (dir : string) :
  geometry (_layoutNode n anchorX ny dir)
  = (_id n,
     (if String.eqb dir "right" then anchorX + width n / 2 else anchorX - width n / 2),
     ny, width n, height n).
Proof.
  unfold geometry.
  destruct (layoutNode_box sp collapsed n anchorX ny dir)
    as (-> & -> & -> & -> & -> & _).
  reflexivity.
Qed.

Lemma layoutChildren_alter_same (f : node -> node) (dir : string) (anchorX : Q)
    (cs : list node) :
  forall i hs cy,
  length hs = length cs ->
  (forall c, cs !! i = Some c -> forall ny,
     List.map geometry (let m := _layoutNode (f c) anchorX ny dir in m :: _drawSubtree m)
     = List.map geometry (let m := _layoutNode c anchorX ny dir in m :: _drawSubtree m)) ->
  List.map geometry (drawn_below collapsed (layoutChildren anchorX dir (alter f i cs) hs cy))
  = List.map geometry (drawn_below collapsed (layoutChildren anchorX dir cs hs cy)).
Proof.
  induction cs as [|c cs IH]; intros i hs cy Hlen Hf; [reflexivity|].
  destruct hs as [|h hs]; [discriminate|]. simpl in Hlen.
  destruct i as [|i].
  - simpl alter. simpl layoutChildren. rewrite !drawn_below_cons, !List.map_app.
    f_equal. apply (Hf c eq_refl).
  - simpl alter. simpl layoutChildren. rewrite !drawn_below_cons, !List.map_app.
    f_equal. apply IH; [lia|]. intros c' Hc'. apply Hf. exact Hc'.
Qed.

(** Replacing the children of a collapsed node moves no drawn node of any
    subtree that contains it. *)
Lemma layoutNode_ignores_hidden (path : list nat) (cs' : list node) :
  forall n X,
  node_at path n = Some X -> _id X ∈ collapsed ->
  forall anchorX ny dir,
  List.map geometry
    (let m := _layoutNode (replace_children_at path cs' n) anchorX ny dir in
     m :: _drawSubtree m)
  = List.map geometry (let m := _layoutNode n anchorX ny dir in m :: _drawSubtree m).
Proof.
  induction path as [|i path IH]; intros n X Hat Hc anchorX ny dir; cbv zeta.
  - simpl in Hat. injection Hat as ->. simpl replace_children_at.
    rewrite !drawSubtree_layoutNode.
    assert (Hcc : forall m, _id m = _id X -> childless_or_collapsed collapsed m = true).
    { intros m Hm. unfold childless_or_collapsed. rewrite Hm.
      rewrite (bool_decide_eq_true_2 _ Hc). apply orb_true_r. }
    rewrite !Hcc by (destruct X; reflexivity).
    cbn [List.map]. rewrite !geometry_layoutNode.
    destruct X; reflexivity.
  - simpl in Hat. destruct (children n !! i) as [c|] eqn:Hi; [|discriminate].
    simpl replace_children_at.
    set (n' := set_children n (alter (replace_children_at path cs') i (children n))).
    assert (Hw : width n' = width n) by (destruct n; reflexivity).
    assert (Hcs : children n' = alter (replace_children_at path cs') i (children n))
      by (destruct n; reflexivity).
    assert (Hhs : List.map _subtreeHeight (children n')
                  = List.map _subtreeHeight (children n)).
    { rewrite Hcs. apply map_alter_same. intros a Ha.
      rewrite Hi in Ha. injection Ha as <-.
      apply (footprint_ignores_hidden sp collapsed path cs' c X Hat Hc). }
    assert (Hcc : childless_or_collapsed collapsed n' = childless_or_collapsed collapsed n).
    { unfold childless_or_collapsed. rewrite Hcs, length_alter.
      destruct n; reflexivity. }
    rewrite !drawSubtree_layoutNode, Hcc, Hw, Hhs.
    assert (Hhead : geometry (_layoutNode n' anchorX ny dir)
                    = geometry (_layoutNode n anchorX ny dir)).
    { rewrite !geometry_layoutNode. destruct n; reflexivity. }
    cbn [List.map]. rewrite Hhead. f_equal.
    destruct (childless_or_collapsed collapsed n); [reflexivity|].
    cbv zeta. rewrite Hcs.
    apply layoutChildren_alter_same; [apply length_map|].
    intros c0 Hc0 ny0. rewrite Hi in Hc0. injection Hc0 as <-.
    apply (IH c X Hat Hc).
Qed.
End HiddenFacts.

(** C2. The vertical footprint of a subtree is height + siblingGap when
    the node is collapsed or has no children, and otherwise the larger of
    the sum of its children's footprints and height + siblingGap.  Hence,
    when a node X is collapsed, its footprint is its own height +
    siblingGap, and whatever X's hidden children are, the footprint of
    every ancestor of X (the slices in which the sibling subtrees along
    X's ancestor chain are stacked) is the same, and so is the position
    [_layoutNode] gives to every drawn node below that ancestor. *)
Theorem C2_footprint (sp : Sp.t) (collapsed : gset nat) :
  (forall n,
     _subtreeHeight sp collapsed n =
     if childless_or_collapsed collapsed n
     then height n + Sp.verticalSpacing sp
     else Math_max (sum (List.map (_subtreeHeight sp collapsed) (children n)))
                   (height n + Sp.verticalSpacing sp))
  /\ (forall root above below X cs',
        node_at (above ++ below) root = Some X ->
        _id X ∈ collapsed ->
        _subtreeHeight sp collapsed X = height X + Sp.verticalSpacing sp
        /\ exists A A',
             node_at above root = Some A
             /\ node_at above (replace_children_at (above ++ below) cs' root) = Some A'
             /\ _subtreeHeight sp collapsed A' = _subtreeHeight sp collapsed A
             /\ forall anchorX ny dir,
                  List.map geometry
                    (let m := _layoutNode sp collapsed A' anchorX ny dir in
                     m :: _drawSubtree collapsed m)
                  = List.map geometry
                      (let m := _layoutNode sp collapsed A anchorX ny dir in
                       m :: _drawSubtree collapsed m)).
Proof.
  split; [apply subtreeHeight_eq|].
  intros root above below X cs' Hat Hc.
  split; [apply collapsed_footprint, Hc|].
  destruct (node_at_app above below root X Hat) as (A & HA & HX).
  exists A, (replace_children_at below cs' A).
  split; [exact HA|]. split; [apply node_at_replace_prefix, HA|].
  split; [apply (footprint_ignores_hidden sp collapsed below cs' A X HX Hc)|].
  apply (layoutNode_ignores_hidden sp collapsed below cs' A X HX Hc).
Qed.

Lemma C2_footprint_witness :
  let collapsed : gset nat := {[ 1%nat ]} in
  let X := sample_sized 1 (JStr "right") 1
             [ sample_sized 2 (JStr "right") 2 [] 60 30;
               sample_sized 3 (JStr "right") 2 [] 60 90 ] 80 40 in
  node_at ([] ++ [0%nat]) sample_two_levels = Some X
  /\ _id X ∈ collapsed
  /\ _subtreeHeight sample_spacing collapsed X = height X + Sp.verticalSpacing sample_spacing
  /\ exists A A',
       node_at [] sample_two_levels = Some A
       /\ node_at [] (replace_children_at ([] ++ [0%nat]) [] sample_two_levels) = Some A'
       /\ _subtreeHeight sample_spacing collapsed A' = _subtreeHeight sample_spacing collapsed A
       /\ forall anchorX ny dir,
            List.map geometry
              (let m := _layoutNode sample_spacing collapsed A' anchorX ny dir in
               m :: _drawSubtree collapsed m)
            = List.map geometry
                (let m := _layoutNode sample_spacing collapsed A anchorX ny dir in
                 m :: _drawSubtree collapsed m).
Proof.
  split; [reflexivity|]. split; [apply elem_of_singleton; reflexivity|].
  apply (proj2 (C2_footprint sample_spacing {[ 1%nat ]}) sample_two_levels [] [0%nat]
           (sample_sized 1 (JStr "right") 1
              [ sample_sized 2 (JStr "right") 2 [] 60 30;
                sample_sized 3 (JStr "right") 2 [] 60 90 ] 80 40) []).
  - reflexivity.
  - apply elem_of_singleton. reflexivity.
Defined.

(* ------------------------------------------------------------------ *)
(** ** The vertical family                                              *)
(* ------------------------------------------------------------------ *)

Section VerticalFacts.
Variable sp : Sp.t.
Variable collapsed : gset nat.
Hypothesis Hsp : spacing_nonneg sp.

Local Abbreviation _subtreeWidth := (_subtreeWidth sp collapsed).
Local Abbreviation layoutVerticalAt := (layoutVerticalAt sp collapsed).
Local Abbreviation layoutVerticalChildren := (layoutVerticalChildren sp collapsed).
Local Abbreviation _drawSubtree := (_drawSubtree collapsed).
Local Abbreviation column_ok := (column_ok sp collapsed).

Lemma subtreeWidth_lower (n : node) :
  width n + Sp.horizontalSpacing sp <= _subtreeWidth n.
Proof.
  rewrite subtreeWidth_eq. destruct (childless_or_collapsed _ _); [lra|].
  apply Math_max_spec.
Qed.

Lemma subtreeWidth_children_le (n : node) :
  childless_or_collapsed collapsed n = false ->
  sum (List.map _subtreeWidth (children n)) <= _subtreeWidth n.
Proof.
  intros H. rewrite (subtreeWidth_eq sp collapsed n), H. apply Math_max_spec.
Qed.

Lemma sum_widths_nonneg (cs : list node) :
  Forall sized cs -> 0 <= sum (List.map _subtreeWidth cs).
Proof.
  induction 1 as [|c cs Hc _ IH]; [unfold sum; simpl; lra|].
  simpl List.map. rewrite sum_cons.
  pose proof (subtreeWidth_lower c) as Hl.
  apply sized_inv in Hc as (Hw & _ & _).
  destruct Hsp as (_ & _ & _ & Hhs & _). lra.
Qed.

Lemma layoutVerticalAt_box (n : node) (nx ny sign : Q) :
  let n' := layoutVerticalAt n nx ny sign in
  x n' = nx /\ y n' = ny /\ width n' = width n /\ height n' = height n
  /\ _id n' = _id n /\ direction n' = direction n.
Proof.
  intros n'. unfold n'. rewrite layoutVerticalAt_eq.
  destruct n as [t u d dp p ci cs i nx' ny' w h f lh px py ls]. simpl.
  destruct (childless_or_collapsed _ _); simpl; repeat split.
Qed.

Lemma drawSubtree_layoutVerticalAt (n : node) (nx ny sign : Q) :
  _drawSubtree (layoutVerticalAt n nx ny sign) =
  if childless_or_collapsed collapsed n then []
  else
    let edgeY := ny + sign * (height n / 2 + Sp.verticalSpacingY sp) in
    let widths := List.map _subtreeWidth (children n) in
    drawn_below collapsed
      (layoutVerticalChildren edgeY sign (children n) widths (nx - sum widths / 2)).
Proof.
  rewrite layoutVerticalAt_eq.
  destruct n as [t u d dp p ci cs i nx' ny' w h f lh px py ls].
  unfold childless_or_collapsed. simpl.
  destruct cs as [|c cs]; simpl.
  - destruct (bool_decide _); reflexivity.
  - destruct (bool_decide (i ∈ collapsed)) eqn:E; simpl; rewrite E; reflexivity.
Qed.

Lemma layoutVerticalChildren_region (cs : list node) :
  Forall sized cs -> Forall column_ok cs ->
  forall edgeY down cx,
    let cs' := layoutVerticalChildren edgeY (flow_sign down) cs
                 (List.map _subtreeWidth cs) cx in
    Forall (fun b => beyond_row down edgeY b
                     /\ in_column cx (cx + sum (List.map _subtreeWidth cs)) b)
           (drawn_below collapsed cs')
    /\ ForallOrdPairs separated (drawn_below collapsed cs').
Proof.
  intros Hsz Hreg. induction Hreg as [|c cs Hc Hcs IH]; intros edgeY down cx.
  - simpl. split; constructor.
  - apply Forall_cons_1 in Hsz as [Hszc Hszcs].
    specialize (IH Hszcs edgeY down (cx + _subtreeWidth c)).
    destruct IH as [IHa IHb].
    destruct (Hc (cx + _subtreeWidth c / 2)
                 (edgeY + flow_sign down * height c / 2) down) as [Ha Hb].
    pose proof (sum_widths_nonneg cs Hszcs) as Hsum.
    pose proof (subtreeWidth_lower c) as Hlow.
    pose proof (sum_cons (_subtreeWidth c) (List.map _subtreeWidth cs)) as Hsc.
    apply sized_inv in Hszc as (Hw & _ & _).
    assert (Hhs : 0 <= Sp.horizontalSpacing sp) by apply Hsp.
    cbv zeta. simpl List.map.
    change (layoutVerticalChildren edgeY (flow_sign down) (c :: cs)
              (_subtreeWidth c :: List.map _subtreeWidth cs) cx)
      with (layoutVerticalAt c (cx + _subtreeWidth c / 2)
              (edgeY + flow_sign down * height c / 2) (flow_sign down)
              :: layoutVerticalChildren edgeY (flow_sign down) cs
                   (List.map _subtreeWidth cs) (cx + _subtreeWidth c)).
    rewrite drawn_below_cons.
    split.
    + apply Forall_app. split.
      * eapply List.Forall_impl; [|exact Ha].
        intros b [H1 H2]. split.
        -- unfold beyond_row, flow_sign in *. destruct down; qlra.
        -- unfold in_column in *. qlra.
      * eapply List.Forall_impl; [|exact IHa].
        intros b [H1 H2]. split; [exact H1|]. unfold in_column in *. qlra.
    + apply FOP_app; [exact Hb | exact IHb |].
      intros a b Hina Hinb.
      rewrite List.Forall_forall in Ha, IHa.
      destruct (Ha a Hina) as [_ [_ Ha2]].
      destruct (IHa b Hinb) as [_ [Hb1 _]].
      unfold separated. left. qlra.
Qed.

Lemma layoutVerticalAt_region (n : node) : sized n -> column_ok n.
Proof.
  induction n as [n IH] using node_tree_ind. intros Hsz.
  pose proof (sized_inv n Hsz) as (Hw & Hh & Hszcs).
  pose proof (Forall_modus _ _ _ IH Hszcs) as Hreg.
  intros nx ny down sign n'.
  destruct (layoutVerticalAt_box n nx ny sign) as (Ex & Ey & Ew & Eh & _).
  fold n' in Ex, Ey, Ew, Eh.
  pose proof (subtreeWidth_lower n) as Hlow.
  destruct Hsp as (_ & _ & Hvy & Hhs & _).
  assert (Hself : beyond_row down (ny - sign * height n / 2) n'
                  /\ in_column (nx - _subtreeWidth n / 2) (nx + _subtreeWidth n / 2) n').
  { unfold beyond_row, in_column, left_edge, right_edge, top_edge, bottom_edge.
    rewrite Ex, Ey, Ew, Eh. unfold sign, flow_sign. destruct down; split; qlra. }
  unfold n' at 2 4. rewrite drawSubtree_layoutVerticalAt.
  destruct (childless_or_collapsed collapsed n) eqn:Ecc.
  - split; [constructor; [exact Hself | constructor]|].
    constructor; constructor.
  - cbv zeta.
    pose proof (subtreeWidth_children_le n Ecc) as Hle.
    destruct (layoutVerticalChildren_region (children n) Hszcs Hreg
                (ny + sign * (height n / 2 + Sp.verticalSpacingY sp)) down
                (nx - sum (List.map _subtreeWidth (children n)) / 2)) as [Ha Hb].
    fold sign in Ha, Hb.
    split.
    + constructor; [exact Hself|].
      eapply List.Forall_impl; [|exact Ha].
      intros b [H1 H2]. split.
      * unfold beyond_row in *. unfold sign, flow_sign in *. destruct down; qlra.
      * unfold in_column in *. qlra.
    + constructor; [|exact Hb].
      eapply List.Forall_impl; [|exact Ha].
      intros b [H1 _]. unfold separated, beyond_row in *.
      unfold top_edge, bottom_edge. rewrite Ey, Eh.
      unfold sign, flow_sign in *.
      destruct down; [right; right; left | right; right; right];
        unfold top_edge, bottom_edge in H1; qlra.
Qed.
End VerticalFacts.

(* ------------------------------------------------------------------ *)
(** ** The two sides of the root                                        *)
(* ------------------------------------------------------------------ *)

Section SidesFacts.
Variable sp : Sp.t.
Variable collapsed : gset nat.
Hypothesis Hsp : spacing_nonneg sp.

Local Abbreviation _subtreeHeight := (_subtreeHeight sp collapsed).
Local Abbreviation _layoutNode := (_layoutNode sp collapsed).
Local Abbreviation layoutBranches := (layoutBranches sp collapsed).
Local Abbreviation _drawSubtree := (_drawSubtree collapsed).

Lemma layoutBranches_none (dir : string) (edgeX : Q) (cs : list node) (hs : list Q) (ly : Q) :
  List.filter (fun c => is_str (direction c) dir) cs = [] ->
  layoutBranches dir edgeX cs hs ly = cs.
Proof.
  induction cs as [|c cs IH]; [reflexivity|].
  simpl. destruct (is_str (direction c) dir); [discriminate|].
  intros H. rewrite (IH H). reflexivity.
Qed.

(** [branches.forEach] of [_layoutSide] writing through the references
    equals the pass [layoutBranches] over the children of the root, as long
    as a height is at hand for every branch. *)
Lemma layoutBranches_in_place (dir : string) (edgeX : Q) (cs : list node)
    (hs : list Q) (ly : Q) :
  length (List.filter (fun c => is_str (direction c) dir) cs) = length hs ->
  forEach_at (branch_body sp collapsed dir edgeX)
    (indices_where (fun c => is_str (direction c) dir) cs) cs (hs, ly)
  = layoutBranches dir edgeX cs hs ly.
Proof.
  revert hs ly. induction cs as [|c cs IH]; intros hs ly Hlen; [reflexivity|].
  simpl in *. destruct (is_str (direction c) dir).
  - destruct hs as [|h hs]; [discriminate|]. simpl in *.
    rewrite forEach_at_shift, IH by lia. reflexivity.
  - simpl. rewrite forEach_at_shift, IH by exact Hlen. reflexivity.
Qed.

Lemma right_not_left (d : jsval) : is_str d "right" = true -> is_str d "left" = false.
Proof.
  destruct d; simpl; try discriminate.
  intros H. apply String.eqb_eq in H. subst. reflexivity.
Qed.

Lemma left_not_right (d : jsval) : is_str d "left" = true -> is_str d "right" = false.
Proof.
  destruct d; simpl; try discriminate.
  intros H. apply String.eqb_eq in H. subst. reflexivity.
Qed.

Lemma Forall_filter_keep {A} (P : A -> Prop) (f : A -> bool) (l : list A) :
  Forall P l -> Forall P (List.filter f l).
Proof.
  induction 1 as [|a l Ha _ IH]; simpl; [constructor|].
  destruct (f a); [constructor|]; assumption.
Qed.

Lemma layoutBranches_hit (dir : string) (edgeX : Q) (c : node) (cs : list node)
    (h : Q) (hs : list Q) (ly : Q) :
  is_str (direction c) dir = true ->
  layoutBranches dir edgeX (c :: cs) (h :: hs) ly
  = _layoutNode c edgeX (ly + h / 2) dir :: layoutBranches dir edgeX cs hs (ly + h).
Proof. intros H. simpl. rewrite H. reflexivity. Qed.

Lemma layoutBranches_miss (dir : string) (edgeX : Q) (c : node) (cs : list node)
    (hs : list Q) (ly : Q) :
  is_str (direction c) dir = false ->
  layoutBranches dir edgeX (c :: cs) hs ly = c :: layoutBranches dir edgeX cs hs ly.
Proof. intros H. simpl. rewrite H. reflexivity. Qed.

Lemma filter_left_after_right (e : Q) (cs : list node) (hs : list Q) (ly : Q) :
  List.filter (fun c => is_str (direction c) "left") (layoutBranches "right" e cs hs ly)
  = List.filter (fun c => is_str (direction c) "left") cs.
Proof.
  revert hs ly. induction cs as [|c cs IH]; intros hs ly; [reflexivity|].
  simpl. destruct (is_str (direction c) "right") eqn:Er.
  - destruct hs as [|h hs]; [reflexivity|]. simpl.
    rewrite (proj2 (proj2 (proj2 (proj2 (proj2
               (layoutNode_box sp collapsed c e (ly + h / 2) "right")))))).
    rewrite (right_not_left _ Er). apply IH.
  - simpl. destruct (is_str (direction c) "left"); [f_equal|]; apply IH.
Qed.

Lemma two_sides_region (eR eL : Q) (cs : list node) :
  eL <= eR ->
  Forall sized cs -> Forall on_a_side cs ->
  forall yR yL,
    let hsR := List.map _subtreeHeight
                 (List.filter (fun c => is_str (direction c) "right") cs) in
    let hsL := List.map _subtreeHeight
                 (List.filter (fun c => is_str (direction c) "left") cs) in
    let cs2 := layoutBranches "left" eL (layoutBranches "right" eR cs hsR yR) hsL yL in
    Forall (in_side_bands eR eL yR (sum hsR) yL (sum hsL)) (drawn_below collapsed cs2)
    /\ ForallOrdPairs separated (drawn_below collapsed cs2).
Proof.
  intros He Hsz Hside. induction Hside as [|c cs Hc Hcs IH]; intros yR yL.
  - simpl. split; constructor.
  - apply Forall_cons_1 in Hsz as [Hszc Hszcs]. specialize (IH Hszcs).
    pose proof (layoutNode_region sp collapsed Hsp c Hszc) as Hreg.
    pose proof (subtreeHeight_lower sp collapsed c) as Hlow.
    pose proof (sized_inv c Hszc) as (_ & Hh & _).
    assert (Hvs : 0 <= Sp.verticalSpacing sp) by apply Hsp.
    assert (HsumR := sum_heights_nonneg sp collapsed Hsp
                       (List.filter (fun c => is_str (direction c) "right") cs)
                       (Forall_filter_keep _ _ _ Hszcs)).
    assert (HsumL := sum_heights_nonneg sp collapsed Hsp
                       (List.filter (fun c => is_str (direction c) "left") cs)
                       (Forall_filter_keep _ _ _ Hszcs)).
    cbv zeta. destruct Hc as [Hr | Hl].
    + pose proof (right_not_left _ Hr) as Hnl.
      simpl List.filter. rewrite Hr, Hnl. simpl List.map.
      pose proof (sum_cons (_subtreeHeight c)
                    (List.map _subtreeHeight
                       (List.filter (fun c => is_str (direction c) "right") cs))) as Hsc.
      rewrite (layoutBranches_hit "right") by exact Hr.
      rewrite (layoutBranches_miss "left")
        by (rewrite (proj2 (proj2 (proj2 (proj2 (proj2
                      (layoutNode_box sp collapsed c eR (yR + _subtreeHeight c / 2) "right"))))));
            exact Hnl).
      rewrite drawn_below_cons.
      destruct (IH (yR + _subtreeHeight c) yL) as [IHa IHb].
      destruct (Hreg eR (yR + _subtreeHeight c / 2) "right") as [Ha Hb].
      split.
      * apply Forall_app. split.
        -- eapply List.Forall_impl; [|exact Ha].
           intros b [H1 H2]. left. unfold beyond in H1. simpl in H1.
           split; [exact H1|]. unfold in_band in *. qlra.
        -- eapply List.Forall_impl; [|exact IHa].
           intros b [[H1 H2] | [H1 H2]]; [left | right];
             (split; [exact H1|]); unfold in_band in *; qlra.
      * apply FOP_app; [exact Hb | exact IHb |].
        intros a b Hina Hinb.
        rewrite List.Forall_forall in Ha, IHa.
        destruct (Ha a Hina) as [Ha1 [_ Ha2]].
        unfold beyond in Ha1. simpl in Ha1.
        unfold separated.
        destruct (IHa b Hinb) as [[_ [Hb1 _]] | [Hb1 _]].
        -- right. right. left. qlra.
        -- right. left. qlra.
    + pose proof (left_not_right _ Hl) as Hnr.
      simpl List.filter. rewrite Hl, Hnr. simpl List.map.
      pose proof (sum_cons (_subtreeHeight c)
                    (List.map _subtreeHeight
                       (List.filter (fun c => is_str (direction c) "left") cs))) as Hsc.
      rewrite (layoutBranches_miss "right") by exact Hnr.
      rewrite (layoutBranches_hit "left") by exact Hl.
      rewrite drawn_below_cons.
      destruct (IH yR (yL + _subtreeHeight c)) as [IHa IHb].
      destruct (Hreg eL (yL + _subtreeHeight c / 2) "left") as [Ha Hb].
      split.
      * apply Forall_app. split.
        -- eapply List.Forall_impl; [|exact Ha].
           intros b [H1 H2]. right. unfold beyond in H1. simpl in H1.
           split; [exact H1|]. unfold in_band in *. qlra.
        -- eapply List.Forall_impl; [|exact IHa].
           intros b [[H1 H2] | [H1 H2]]; [left | right];
             (split; [exact H1|]); unfold in_band in *; qlra.
      * apply FOP_app; [exact Hb | exact IHb |].
        intros a b Hina Hinb.
        rewrite List.Forall_forall in Ha, IHa.
        destruct (Ha a Hina) as [Ha1 [_ Ha2]].
        unfold beyond in Ha1. simpl in Ha1.
        unfold separated.
        destruct (IHa b Hinb) as [[Hb1 _] | [_ [Hb1 _]]].
        -- left. qlra.
        -- right. right. left. qlra.
Qed.
End SidesFacts.

(* ------------------------------------------------------------------ *)
(** ** The whole tree                                                   *)
(* ------------------------------------------------------------------ *)

Section TreeFacts.
Variable o : O.t.
Variable sp : Sp.t.
Variable collapsed : gset nat.
Hypothesis Hsp : spacing_nonneg sp.

Local Abbreviation _subtreeHeight := (_subtreeHeight sp collapsed).
Local Abbreviation layoutBranches := (layoutBranches sp collapsed).
Local Abbreviation _drawSubtree := (_drawSubtree collapsed).

Lemma layoutSide_eq (root : node) (dir : string) :
  let branches := List.filter (fun c => is_str (direction c) dir) (children root) in
  _layoutSide o sp collapsed root branches dir
  = set_children root
      (layoutBranches dir (side_edge o sp root dir) (children root)
         (List.map _subtreeHeight branches)
         (- sum (List.map _subtreeHeight branches) / 2)).
Proof.
  intros branches. unfold _layoutSide.
  destruct branches as [|b bs] eqn:Eb.
  - simpl. rewrite layoutBranches_none by exact Eb.
    destruct root; reflexivity.
  - reflexivity.
Qed.

Lemma layoutTree_horizontal (root : node) :
  vertical_mode o = false ->
  let cs := children root in
  let hsR := List.map _subtreeHeight
               (List.filter (fun c => is_str (direction c) "right") cs) in
  let hsL := List.map _subtreeHeight
               (List.filter (fun c => is_str (direction c) "left") cs) in
  let r := _layoutTree o sp collapsed root in
  x r = 0 /\ y r = 0 /\ width r = width root /\ height r = height root
  /\ _id r = _id root
  /\ children r
     = layoutBranches "left" (side_edge o sp root "left")
         (layoutBranches "right" (side_edge o sp root "right") cs hsR (- sum hsR / 2))
         hsL (- sum hsL / 2).
Proof.
  intros Hv cs hsR hsL r. unfold r, _layoutTree.
  unfold vertical_mode in Hv. rewrite Hv.
  cbv zeta.
  assert (Hc0 : children (set_xy root 0 0) = children root) by (destruct root; reflexivity).
  rewrite (layoutSide_eq (set_xy root 0 0) "right").
  rewrite !Hc0.
  set (root1 := set_children (set_xy root 0 0) _).
  assert (Hfl : List.filter (fun c => is_str (direction c) "left") (children root1)
                = List.filter (fun c => is_str (direction c) "left") (children root)).
  { unfold root1. rewrite children_set_children. apply filter_left_after_right. }
  rewrite <- Hfl. rewrite (layoutSide_eq root1 "left"). rewrite Hfl.
  unfold root1. rewrite children_set_children.
  destruct root; simpl; repeat split.
Qed.
Lemma sized_set_xy (n : node) (nx ny : Q) : sized n -> sized (set_xy n nx ny).
Proof.
  unfold sized. destruct n; simpl. intros H.
  apply Forall_cons_1 in H as [H1 H2]. constructor; [exact H1 | exact H2].
Qed.

Lemma drawSubtree_eq (n : node) :
  _drawSubtree n = if bool_decide (_id n ∈ collapsed) then []
                  else drawn_below collapsed (children n).
Proof. destruct n; reflexivity. Qed.

(** The vertical modes: no two drawn boxes overlap. *)
Lemma layoutTree_vertical_separated (root : node) :
  vertical_mode o = true -> sized root ->
  ForallOrdPairs separated (_drawTree collapsed (_layoutTree o sp collapsed root)).
Proof.
  intros Hv Hsz. unfold _layoutTree, _drawTree.
  unfold vertical_mode in Hv. rewrite Hv.
  unfold _layoutVerticalNode.
  replace (x (set_xy root 0 0)) with 0 by (destruct root; reflexivity).
  replace (y (set_xy root 0 0)) with 0 by (destruct root; reflexivity).
  change (if String.eqb (O.layout o) "down" then 1 else -1)
    with (flow_sign (String.eqb (O.layout o) "down")).
  apply (layoutVerticalAt_region sp collapsed Hsp (set_xy root 0 0)
           (sized_set_xy root 0 0 Hsz) 0 0 (String.eqb (O.layout o) "down")).
Qed.

(** The horizontal modes: the drawn boxes other than the root never
    overlap one another; the root overlaps none of them when the branch
    anchors clear its walls. *)
Lemma layoutTree_horizontal_separated (root : node) :
  vertical_mode o = false -> sized root -> Forall on_a_side (children root) ->
  let r := _layoutTree o sp collapsed root in
  ForallOrdPairs separated (_drawSubtree r)
  /\ (width root / 2 <= side_edge o sp root "right" ->
      side_edge o sp root "left" <= - (width root / 2) ->
      ForallOrdPairs separated (_drawTree collapsed r)).
Proof.
  intros Hv Hsz Hside r.
  destruct (layoutTree_horizontal root Hv) as (Ex & Ey & Ew & Eh & Eid & Ecs).
  fold r in Ex, Ey, Ew, Eh, Eid, Ecs.
  pose proof (sized_inv root Hsz) as (Hw & Hh & Hszcs).
  assert (He : side_edge o sp root "left" <= side_edge o sp root "right").
  { unfold side_edge. simpl. destruct Hsp as (Hb & _).
    destruct (String.eqb (O.centerEdge o) "side"); qlra. }
  destruct (two_sides_region sp collapsed Hsp _ _ (children root) He Hszcs Hside
              (- sum (List.map _subtreeHeight
                        (List.filter (fun c => is_str (direction c) "right")
                           (children root))) / 2)
              (- sum (List.map _subtreeHeight
                        (List.filter (fun c => is_str (direction c) "left")
                           (children root))) / 2)) as [Ha Hb].
  rewrite <- Ecs in Ha, Hb.
  unfold _drawTree. rewrite drawSubtree_eq.
  destruct (bool_decide (_id r ∈ collapsed)).
  - split; [constructor|]. intros _ _. constructor; constructor.
  - split; [exact Hb|]. intros HeR HeL. constructor; [|exact Hb].
    eapply List.Forall_impl; [|exact Ha].
    intros b [[H1 _] | [H1 _]]; unfold separated, left_edge, right_edge;
      rewrite Ex, Ew; unfold left_edge, right_edge in H1; [left | right; left]; qlra.
Qed.

Lemma side_edge_clears_root (root : node) :
  0 <= width root ->
  String.eqb (O.centerEdge o) "side" = true ->
  width root / 2 <= side_edge o sp root "right"
  /\ side_edge o sp root "left" <= - (width root / 2).
Proof.
  intros Hw Hs. unfold side_edge. simpl. rewrite Hs.
  destruct Hsp as (Hb & _). split; qlra.
Qed.
End TreeFacts.

(* ================================================================== *)
(** * The passes, one after another                                     *)
(* ================================================================== *)

Lemma string_topics_eq (data : jsval) :
  string_topics data
  = is_string (js_or (raw data "topic") (JStr ""))
    && forallb string_topics (children_data data).
Proof.
  destruct data; try reflexivity.
  simpl. f_equal.
  induction fields as [|[k v] rest IH]; [reflexivity|].
  simpl. destruct (String.eqb k "children"); [|exact IH].
  destruct v; reflexivity.
Qed.

Lemma topics_flat_map (cs : list node) :
  forallb is_string (List.map topic (flat_map preorder cs))
  = forallb topics_are_strings cs.
Proof.
  induction cs as [|c cs IH]; [reflexivity|].
  simpl. rewrite List.map_app, forallb_app, IH. reflexivity.
Qed.

Lemma topics_are_strings_eq (n : node) :
  topics_are_strings n = is_string (topic n) && forallb topics_are_strings (children n).
Proof.
  unfold topics_are_strings at 1. destruct n; simpl.
  rewrite topics_flat_map. reflexivity.
Qed.

Lemma mirrors_inv (data : jsval) (n : node) :
  mirrors data n ->
  topic n = js_or (raw data "topic") (JStr "")
  /\ direction n = js_or (raw data "direction") JNull
  /\ Forall2 mirrors (children_data data) (children n).
Proof. intros H. inversion H; subst. auto. Qed.

(** String (or missing) topics in the description give string topics in
    the built tree. *)
Lemma mirrors_topics (n : node) :
  forall data, mirrors data n -> string_topics data = true ->
               topics_are_strings n = true.
Proof.
  induction n as [n IH] using node_tree_ind. intros data Hm Hs.
  apply mirrors_inv in Hm as (Ht & _ & Hcs).
  rewrite string_topics_eq in Hs. apply andb_true_iff in Hs as [Hs1 Hs2].
  rewrite topics_are_strings_eq, Ht, Hs1. simpl.
  clear Ht Hs1. induction Hcs as [|d c ds cs Hdc _ IHcs]; [reflexivity|].
  simpl in Hs2. apply andb_true_iff in Hs2 as [Hd Hds].
  apply Forall_cons_1 in IH as [IHc IHrest].
  simpl. rewrite (IHc d Hdc Hd). simpl. apply IHcs; assumption.
Qed.

Lemma mirrors_schema_directions (data : jsval) (n : node) :
  mirrors data n -> schema_directions data = true ->
  Forall unassigned_or_pinned (children n).
Proof.
  intros Hm Hs. apply mirrors_inv in Hm as (_ & _ & Hcs).
  unfold schema_directions in Hs.
  induction Hcs as [|d c ds cs Hdc _ IHcs]; [constructor|].
  simpl in Hs. apply andb_true_iff in Hs as [Hd Hds].
  constructor; [|apply IHcs, Hds].
  apply mirrors_inv in Hdc as (_ & Hdir & _).
  unfold unassigned_or_pinned. rewrite Hdir.
  unfold schema_direction in Hd. unfold js_or.
  destruct (truthy (raw d "direction")) eqn:Et; simpl in Hd.
  - right. exact Hd.
  - left. reflexivity.
Qed.

(** ** Direction assignment keeps the topics and puts every top-level
    child on a side *)

Lemma topics_propagateDir (n : node) (dir : jsval) :
  topics_are_strings (_propagateDir n dir) = topics_are_strings n.
Proof.
  induction n as [n IH] using node_tree_ind.
  rewrite !topics_are_strings_eq, children_propagateDir.
  replace (topic (_propagateDir n dir)) with (topic n) by (destruct n; reflexivity).
  f_equal. induction IH as [|c cs Hc _ IHcs]; [reflexivity|].
  simpl. rewrite Hc, IHcs. reflexivity.
Qed.

Lemma topics_set_direction (n : node) (d : jsval) :
  topics_are_strings (set_direction n d) = topics_are_strings n.
Proof. destruct n; reflexivity. Qed.

Lemma topics_assignFloats (cs : list node) (r l : nat) :
  forallb topics_are_strings (assignFloats cs r l) = forallb topics_are_strings cs.
Proof.
  revert r l. induction cs as [|c cs IH]; intros r l; [reflexivity|].
  simpl. destruct (is_float c); [destruct (r <=? l)%nat|]; simpl;
    rewrite ?topics_set_direction, IH; reflexivity.
Qed.

Lemma topics_map_propagate (f : node -> jsval) (cs : list node) :
  forallb topics_are_strings (List.map (fun c => _propagateDir c (f c)) cs)
  = forallb topics_are_strings cs.
Proof.
  induction cs as [|c cs IH]; [reflexivity|].
  simpl. rewrite topics_propagateDir, IH. reflexivity.
Qed.

Lemma topics_assignDirections (o : O.t) (n : node) :
  topics_are_strings (_assignDirections o n) = topics_are_strings n.
Proof.
  rewrite !topics_are_strings_eq. unfold _assignDirections.
  repeat match goal with |- context [if ?b then _ else _] => destruct b end;
    rewrite children_set_children;
    (replace (topic (set_children n _)) with (topic n) by (destruct n; reflexivity));
    f_equal;
    rewrite ?(topics_map_propagate (fun _ => JStr (O.layout o))),
            ?(topics_map_propagate (fun _ => JStr "left")),
            ?(topics_map_propagate (fun _ => JStr "right")),
            ?(topics_map_propagate direction), ?topics_assignFloats;
    reflexivity.
Qed.

Lemma assignFloats_sides (cs : list node) (r l : nat) :
  Forall unassigned_or_pinned cs -> Forall on_a_side (assignFloats cs r l).
Proof.
  intros H. revert r l. induction H as [|c cs Hc _ IH]; intros r l; [constructor|].
  simpl. unfold is_float. destruct Hc as [Hf | Hp].
  - rewrite Hf. simpl.
    destruct (r <=? l)%nat; constructor; try apply IH; [left | right]; reflexivity.
  - rewrite (pinned_truthy _ Hp). simpl. constructor; [|apply IH].
    unfold on_a_side. unfold pinned in Hp. apply orb_true_iff in Hp. tauto.
Qed.

Lemma on_a_side_propagate (cs : list node) :
  Forall on_a_side cs ->
  Forall on_a_side (List.map (fun c => _propagateDir c (direction c)) cs).
Proof.
  induction 1 as [|c cs Hc _ IH]; simpl; constructor; [|exact IH].
  unfold on_a_side. rewrite direction_propagateDir. exact Hc.
Qed.

Lemma on_a_side_forced (lit : string) (cs : list node) :
  lit = "left" \/ lit = "right" ->
  Forall on_a_side (List.map (fun c => _propagateDir c (JStr lit)) cs).
Proof.
  intros Hlit. induction cs as [|c cs IH]; simpl; constructor; [|exact IH].
  unfold on_a_side. rewrite direction_propagateDir.
  destruct Hlit as [-> | ->]; [right | left]; reflexivity.
Qed.

(** In a horizontal mode every top-level child ends up ['left'] or
    ['right']: always in the modes [left] and [right], and in auto mode
    when the input directions follow the schema. *)
Lemma assignDirections_sides (o : O.t) (n : node) :
  vertical_mode o = false ->
  (auto_mode o = true -> Forall unassigned_or_pinned (children n)) ->
  Forall on_a_side (children (_assignDirections o n)).
Proof.
  intros Hv Hauto. unfold _assignDirections.
  unfold auto_mode, vertical_mode in Hauto. unfold vertical_mode in Hv.
  rewrite Hv in *. simpl in Hauto.
  destruct (String.eqb (O.layout o) "left").
  - rewrite children_set_children. apply on_a_side_forced. auto.
  - destruct (String.eqb (O.layout o) "right").
    + rewrite children_set_children. apply on_a_side_forced. auto.
    + rewrite children_set_children.
      apply on_a_side_propagate, assignFloats_sides, Hauto. reflexivity.
Qed.

(** ** The measurement cache *)

Section CacheFacts.
Variable canvas_width : string -> Q -> Q.
Variable show : Q -> string.
(** Two calls that share a cache key measure the same width (the key is
    the text, a colon and the printed font size). *)
Hypothesis Hkey : forall t fs t' fs',
  cache_key show t fs = cache_key show t' fs' ->
  canvas_width t fs = canvas_width t' fs'.

Lemma empty_cache_consistent : cache_consistent canvas_width show ∅.
Proof. intros t fs w H. rewrite lookup_empty in H. discriminate. Qed.

(** [_measureText] returns what the canvas measures, cached or not, and
    keeps the cache consistent: in [_computeSizes] it acts as the pure
    function [canvas_width]. *)
Lemma measureText_cached_sound (cache : gmap string Q) (text : string) (fontSize : Q) :
  cache_consistent canvas_width show cache ->
  fst (_measureText canvas_width show cache text fontSize)
  = canvas_width text fontSize
  /\ cache_consistent canvas_width show
       (snd (_measureText canvas_width show cache text fontSize)).
Proof.
  intros Hc. unfold _measureText.
  assert (Hins : cache_consistent canvas_width show
                   (<[cache_key show text fontSize := canvas_width text fontSize]> cache)).
  { intros t fs w H. rewrite lookup_insert in H.
    destruct (decide (cache_key show text fontSize = cache_key show t fs)) as [E|E].
    - injection H as <-. apply Hkey, E.
    - apply (Hc t fs w H). }
  destruct (cache !! cache_key show text fontSize) as [w|] eqn:El; simpl.
  - destruct (Qeq_bool w 0); simpl.
    + split; [reflexivity | exact Hins].
    + split; [apply (Hc text fontSize w El) | exact Hc].
  - split; [reflexivity | exact Hins].
Qed.
End CacheFacts.

(** ** Sizing *)

Section SizingFacts.
Variable o : O.t.
Variable measureText : string -> Q -> Q.

Lemma computeSizes_eq (n : node) :
  _computeSizes o measureText n =
  do ls <- wrapTopic o measureText n;
  do cs <- sizeChildren o measureText (children n);
  Ok (measured o measureText n cs ls).
Proof.
  destruct n as [t u d dp p ci cs i nx ny w h f lh px py ls]. simpl.
  destruct (wrapTopic o measureText _) as [ls'|e]; [|reflexivity]. simpl.
  assert (E : (fix forEach (cs : list node) : result (list node) :=
                 match cs with
                 | [] => Ok []
                 | c :: rest =>
                     do c' <- _computeSizes o measureText c;
                     do rest' <- forEach rest;
                     Ok (c' :: rest')
                 end) cs = sizeChildren o measureText cs).
  { induction cs as [|c cs IH]; [reflexivity|].
    simpl. destruct (_computeSizes o measureText c); [|reflexivity].
    simpl. rewrite IH. reflexivity. }
  rewrite E. reflexivity.
Qed.

Lemma wrapTopic_string (n : node) :
  is_string (topic n) = true -> exists ls, wrapTopic o measureText n = Ok ls.
Proof.
  unfold wrapTopic. destruct (topic n); try discriminate. eauto.
Qed.

(** Sizing cannot fail on a tree whose topics are strings. *)
Lemma computeSizes_total (n : node) :
  topics_are_strings n = true -> exists n', _computeSizes o measureText n = Ok n'.
Proof.
  induction n as [n IH] using node_tree_ind. intros Ht.
  rewrite topics_are_strings_eq in Ht. apply andb_true_iff in Ht as [Ht Hcs].
  rewrite computeSizes_eq.
  destruct (wrapTopic_string n Ht) as [ls ->]. simpl bind.
  assert (Hch : exists cs', sizeChildren o measureText (children n) = Ok cs').
  { clear Ht. induction IH as [|c cs Hc _ IHcs]; [exists []; reflexivity|].
    simpl in Hcs. apply andb_true_iff in Hcs as [H1 H2].
    destruct (Hc H1) as [c' Hc']. destruct (IHcs H2) as [cs' Hcs'].
    exists (c' :: cs'). simpl. rewrite Hc'. simpl. rewrite Hcs'. reflexivity. }
  destruct Hch as [cs' ->]. simpl. eauto.
Qed.

Lemma computeSizes_inv (n n' : node) :
  _computeSizes o measureText n = Ok n' ->
  exists ls cs',
    wrapTopic o measureText n = Ok ls
    /\ sizeChildren o measureText (children n) = Ok cs'
    /\ n' = measured o measureText n cs' ls.
Proof.
  rewrite computeSizes_eq. intros H.
  apply bind_Ok_inv in H as (ls & Hls & H).
  apply bind_Ok_inv in H as (cs' & Hcs & H).
  injection H as <-. eauto.
Qed.

Lemma sizeChildren_inv (cs cs' : list node) :
  sizeChildren o measureText cs = Ok cs' ->
  Forall2 (fun c c' => _computeSizes o measureText c = Ok c') cs cs'.
Proof.
  revert cs'. induction cs as [|c cs IH]; intros cs' H.
  - simpl in H. injection H as <-. constructor.
  - simpl in H.
    apply bind_Ok_inv in H as (c' & Hc & H).
    apply bind_Ok_inv in H as (rest' & Hrest & H).
    injection H as <-. constructor; [exact Hc | apply IH, Hrest].
Qed.

Lemma maxLineW_nonneg (measure : string -> Q) (ls : list string) :
  0 <= maxLineW measure ls.
Proof.
  unfold maxLineW.
  assert (H : forall a, 0 <= a ->
                0 <= fold_left (fun m l => Math_max m (measure l)) ls a);
    [|apply H; lra].
  induction ls as [|l ls IH]; intros a Ha; [exact Ha|].
  simpl. apply IH. pose proof (Math_max_spec a (measure l)). lra.
Qed.

Lemma Math_ceil_nonneg (a : Q) : 0 <= a -> 0 <= Math_ceil a.
Proof.
  intros Ha. unfold Math_ceil. pose proof (Qle_ceiling a). lra.
Qed.

Lemma Math_min_nonneg (a b : Q) : 0 <= a -> 0 <= b -> 0 <= Math_min a b.
Proof. intros Ha Hb. unfold Math_min. destruct (Qle_bool a b); assumption. Qed.

Lemma style_of_valid (d : nat) : valid_config o -> valid_style (style_of o d).
Proof.
  intros (_ & _ & _ & _ & _ & _ & _ & Hc & Hb & Hl).
  unfold style_of. destruct (d =? 0)%nat; [exact Hc|].
  destruct (d =? 1)%nat; assumption.
Qed.

Lemma measured_box (n : node) (cs : list node) (ls : list string) :
  valid_config o ->
  0 <= width (measured o measureText n cs ls)
  /\ 0 <= height (measured o measureText n cs ls).
Proof.
  intros Hv. pose proof (style_of_valid (depth n) Hv) as (Hfs & Hpx & Hpy & Hmw).
  destruct Hv as (_ & _ & _ & _ & _ & _ & Hlh & _).
  unfold measured. simpl. split.
  - apply Math_ceil_nonneg, Math_min_nonneg; [|exact Hmw].
    pose proof (maxLineW_nonneg
                  (fun t => measureText t (Style.fontSize (style_of o (depth n)))) ls).
    assert (0 <= (if truthy (url n) then LINK_ICON_SPACE else 0))
      by (destruct (truthy (url n)); [unfold LINK_ICON_SPACE|]; lra).
    lra.
  - apply Math_ceil_nonneg.
    assert (0 <= nat_Q (length ls)).
    { unfold nat_Q. change 0 with (inject_Z 0). rewrite <- Zle_Qle. lia. }
    assert (0 <= Style.fontSize (style_of o (depth n)) * O.lineHeight o)
      by (apply Qmult_le_0_compat; assumption).
    assert (0 <= nat_Q (length ls)
                 * (Style.fontSize (style_of o (depth n)) * O.lineHeight o))
      by (apply Qmult_le_0_compat; assumption).
    lra.
Qed.

(** Under a valid configuration every sized box has non-negative width
    and height, whatever the measurement returns. *)
Lemma computeSizes_sized (n : node) :
  valid_config o -> forall n', _computeSizes o measureText n = Ok n' -> sized n'.
Proof.
  intros Hv. induction n as [n IH] using node_tree_ind. intros n' H.
  apply computeSizes_inv in H as (ls & cs' & _ & Hcs & ->).
  apply sizeChildren_inv in Hcs.
  unfold sized. simpl. constructor; [apply (measured_box n cs' ls Hv)|].
  induction Hcs as [|c c' cs cs' Hc _ IHcs]; [constructor|].
  apply Forall_cons_1 in IH as [IHc IHrest].
  simpl. apply Forall_app. split; [apply (IHc c' Hc) | apply IHcs, IHrest].
Qed.

Lemma computeSizes_direction (n n' : node) :
  _computeSizes o measureText n = Ok n' -> direction n' = direction n.
Proof.
  intros H. apply computeSizes_inv in H as (ls & cs' & _ & _ & ->). reflexivity.
Qed.

Lemma computeSizes_sides (n n' : node) :
  _computeSizes o measureText n = Ok n' ->
  Forall on_a_side (children n) -> Forall on_a_side (children n').
Proof.
  intros H Hs. apply computeSizes_inv in H as (ls & cs' & _ & Hcs & ->).
  apply sizeChildren_inv in Hcs. simpl.
  induction Hcs as [|c c' cs cs'' Hc _ IHcs]; [constructor|].
  apply Forall_cons_1 in Hs as [Hs1 Hs2]. constructor; [|apply IHcs, Hs2].
  unfold on_a_side. rewrite (computeSizes_direction c c' Hc). exact Hs1.
Qed.
End SizingFacts.

(** ** Spacing *)

Lemma Math_round_nonneg (a : Q) : 0 <= a -> 0 <= Math_round a.
Proof.
  intros Ha. unfold Math_round. change 0 with (inject_Z 0). rewrite <- Zle_Qle.
  change 0%Z with (Qfloor 0). apply Qfloor_resp_le. lra.
Qed.

Lemma depthFactor_pos (maxD : nat) : 0 < depthFactor maxD.
Proof.
  unfold depthFactor. destruct (maxD <=? 2)%nat; [lra|].
  pose proof (Math_max_spec (fl (45 # 100)) (fdiv (25 # 10) (nat_Q maxD))) as (H & _).
  assert (H45 : 0 < fl (45 # 100)) by (vm_compute; reflexivity). lra.
Qed.

Lemma computeAdaptiveSpacing_nonneg (o : O.t) (root : node) :
  valid_config o -> spacing_nonneg (_computeAdaptiveSpacing o root).
Proof.
  intros (Hsm & Hb & Hs & Hv & Hvy & Hh & _).
  set (sm := match O.spacing o with Some s => s | None => 1 end).
  assert (Hsm' : 0 < sm) by (unfold sm; destruct (O.spacing o); [exact Hsm | lra]).
  pose proof (depthFactor_pos (_maxDepth root)) as Hdf.
  assert (Hf : 0 <= fmul sm (depthFactor (_maxDepth root)))
    by (apply fmul_nonneg; lra).
  unfold _computeAdaptiveSpacing. fold sm.
  destruct (is_vertical (O.layout o)); unfold spacing_nonneg;
    cbn [Sp.branchSpacingX Sp.subSpacingX Sp.verticalSpacing
         Sp.verticalSpacingY Sp.horizontalSpacing];
    repeat split; apply Math_round_nonneg, fmul_nonneg; lra.
Qed.

(* ================================================================== *)
(** * The layout pass as a whole                                        *)
(* ================================================================== *)

(** The pass succeeds on every readable input with string topics, whatever
    the measurement function returns. *)
Lemma renderInternal_total (o : O.t) (measureText : string -> Q -> Q)
    (collapsed : gset nat) (data : jsval) :
  readable data = true -> string_topics data = true ->
  exists t0 t2,
    _buildTree data None (-1)%Z 0%nat 0%nat = Ok (t0, node_count data)
    /\ mirrors data t0
    /\ _computeSizes o measureText (_assignDirections o t0) = Ok t2
    /\ _renderInternal o measureText collapsed data
       = Ok (_layoutTree o (_computeAdaptiveSpacing o t2) collapsed t2,
             _drawTree collapsed (_layoutTree o (_computeAdaptiveSpacing o t2) collapsed t2)).
Proof.
  intros Hr Hs.
  destruct (buildTree_ids data Hr None (-1)%Z 0%nat 0%nat) as (t0 & Hb & _ & Hm).
  simpl in Hb.
  assert (Ht : topics_are_strings (_assignDirections o t0) = true)
    by (rewrite topics_assignDirections; exact (mirrors_topics t0 data Hm Hs)).
  destruct (computeSizes_total o measureText _ Ht) as [t2 Hsz].
  exists t0, t2. split; [exact Hb|]. split; [exact Hm|]. split; [exact Hsz|].
  unfold _renderInternal. rewrite Hb. simpl bind. rewrite Hsz. reflexivity.
Qed.

(** C3 (amended). For every readable input with string or missing
    topics, every layout mode, collapse set and valid configuration, the
    pass succeeds and, provided in auto mode that the direction of every
    top-level child is absent, ['left'] or ['right']: no two distinct drawn
    nodes other than the root overlap; and in the vertical modes, or with
    [centerEdge = 'side'], no two distinct drawn nodes overlap at all. *)
Theorem C3_no_overlap (o : O.t) (measureText : string -> Q -> Q)
    (collapsed : gset nat) (data : jsval) :
  valid_config o ->
  readable data = true ->
  string_topics data = true ->
  (auto_mode o = true -> schema_directions data = true) ->
  exists t,
    _renderInternal o measureText collapsed data = Ok (t, _drawTree collapsed t)
    /\ no_overlap (_drawSubtree collapsed t)
    /\ (vertical_mode o = true \/ String.eqb (O.centerEdge o) "side" = true ->
        no_overlap (_drawTree collapsed t)).
Proof.
  intros Hv Hr Hs Hdirs.
  destruct (renderInternal_total o measureText collapsed data Hr Hs)
    as (t0 & t2 & _ & Hm & Hsz & Hrender).
  pose proof (computeAdaptiveSpacing_nonneg o t2 Hv) as Hsp.
  pose proof (computeSizes_sized o measureText _ Hv t2 Hsz) as Hsized.
  eexists. split; [exact Hrender|].
  destruct (vertical_mode o) eqn:Hvm.
  - pose proof (layoutTree_vertical_separated o _ collapsed Hsp t2 Hvm Hsized) as Hsep.
    split.
    + unfold _drawTree in Hsep. inversion Hsep; subst.
      apply separated_all_no_overlap. assumption.
    + intros _. apply separated_all_no_overlap, Hsep.
  - assert (Hsides : Forall on_a_side (children t2)).
    { apply (computeSizes_sides o measureText _ t2 Hsz).
      apply assignDirections_sides; [exact Hvm|].
      intros Ha. apply (mirrors_schema_directions data t0 Hm), Hdirs, Ha. }
    destruct (layoutTree_horizontal_separated o _ collapsed Hsp t2 Hvm Hsized Hsides)
      as [Hsub Hall].
    split; [apply separated_all_no_overlap, Hsub|].
    intros [Habs | Hside]; [discriminate|].
    pose proof (sized_inv t2 Hsized) as (Hw & _ & _).
    destruct (side_edge_clears_root o _ Hsp t2 Hw Hside) as [H1 H2].
    apply separated_all_no_overlap, Hall; assumption.
Qed.

Lemma DEFAULT_OPTIONS_valid : valid_config DEFAULT_OPTIONS.
Proof.
  unfold valid_config, valid_style. simpl.
  repeat split; vm_compute; (reflexivity || discriminate).
Defined.

Lemma C3_no_overlap_witness :
  exists t,
    _renderInternal DEFAULT_OPTIONS eight_per_char {[ 1%nat ]} sample_wide_root_deep
      = Ok (t, _drawTree {[ 1%nat ]} t)
    /\ no_overlap (_drawSubtree {[ 1%nat ]} t)
    /\ (vertical_mode DEFAULT_OPTIONS = true
        \/ String.eqb (O.centerEdge DEFAULT_OPTIONS) "side" = true ->
        no_overlap (_drawTree {[ 1%nat ]} t)).
Proof.
  apply (C3_no_overlap DEFAULT_OPTIONS eight_per_char {[ 1%nat ]} sample_wide_root_deep).
  - exact DEFAULT_OPTIONS_valid.
  - reflexivity.
  - reflexivity.
  - reflexivity.
Defined.

(** C3, as stated, fails: with [centerEdge: 'vertical'] and otherwise
    default options, a root whose box is 240 wide overlaps its only branch,
    which a tree of depth 6 anchors 99 from the root's center. *)
Lemma C3_wide_root_overlaps_branch :
  valid_config vertical_edge_options
  /\ exists t r b rest,
       render vertical_edge_options eight_per_char sample_wide_root_deep
         = Ok (t, r :: b :: rest)
       /\ (_id r = 0%nat /\ _id b = 1%nat)
       /\ overlaps r b
       /\ ~ no_overlap (r :: b :: rest).
Proof.
  split.
  - unfold valid_config, valid_style. simpl.
    repeat split; vm_compute; (reflexivity || discriminate).
  - do 4 eexists. split; [vm_compute; reflexivity|].
    assert (Ho : forall r b : node,
               (left_edge r < right_edge b /\ left_edge b < right_edge r /\
                top_edge r < bottom_edge b /\ top_edge b < bottom_edge r) ->
               overlaps r b) by (intros r b H; exact H).
    split; [split; reflexivity|].
    split.
    + apply Ho. repeat split; vm_compute; reflexivity.
    + intros Hno. inversion Hno as [|a l Hall _]; subst.
      apply Forall_cons_1 in Hall as [Hab _]. apply Hab.
      apply Ho. repeat split; vm_compute; reflexivity.
Qed.

(** C9 (amended). Measurement results are not checked: for every
    measurement function, negative results included, the pass succeeds on
    every readable input with string or missing topics, under every
    options record and collapse set; a negative line width is absorbed by
    the maximum with 0 that computes the widest line of a box. *)
Theorem C9_measurement_unchecked (o : O.t) (measureText : string -> Q -> Q)
    (collapsed : gset nat) (data : jsval) :
  readable data = true ->
  string_topics data = true ->
  (exists t, _renderInternal o measureText collapsed data = Ok (t, _drawTree collapsed t))
  /\ (forall fs ls, 0 <= maxLineW (fun s => measureText s fs) ls)
  /\ (forall n n', _computeSizes o measureText n = Ok n' ->
        let st := style_of o (depth n) in
        width n' = Math_ceil (Math_min
                     (maxLineW (fun s => measureText s (Style.fontSize st)) (lines n')
                      + Style.paddingX st * 2
                      + (if truthy (url n) then LINK_ICON_SPACE else 0))
                     (Style.maxWidth st))).
Proof.
  intros Hr Hs. split; [|split].
  - destruct (renderInternal_total o measureText collapsed data Hr Hs)
      as (t0 & t2 & _ & _ & _ & Hrender).
    eexists. exact Hrender.
  - intros fs ls. apply maxLineW_nonneg.
  - intros n n' H. apply computeSizes_inv in H as (ls & cs' & _ & _ & ->).
    reflexivity.
Qed.

Lemma C9_measurement_unchecked_witness :
  (exists t, _renderInternal DEFAULT_OPTIONS negative_measure ∅ sample_root_ABC
             = Ok (t, _drawTree ∅ t))
  /\ (forall fs ls, 0 <= maxLineW (fun s => negative_measure s fs) ls).
Proof.
  destruct (C9_measurement_unchecked DEFAULT_OPTIONS negative_measure ∅ sample_root_ABC
              eq_refl eq_refl) as (H1 & H2 & _).
  split; [exact H1 | exact H2].
Defined.

(** C9, as stated, fails: with a measurement that is negative for every
    text, [render] returns normally and draws all four nodes. *)
Lemma C9_negative_measure_renders :
  (forall text fs, negative_measure text fs < 0)
  /\ exists t ds,
       render DEFAULT_OPTIONS negative_measure sample_root_ABC = Ok (t, ds)
       /\ length ds = 4%nat
       /\ width t = 56.
Proof.
  split; [intros; reflexivity|].
  do 2 eexists. split; [vm_compute; reflexivity|]. split; reflexivity.
Qed.

(* ================================================================== *)
(** * Direction assignment: further properties                          *)
(* ================================================================== *)

Lemma preorder_propagateDir_twice (n : node) (d1 d2 : jsval) :
  _propagateDir (_propagateDir n d1) d2 = _propagateDir n d2.
Proof.
  induction n as [n IH] using node_tree_ind.
  destruct n as [t u d dp p ci cs i nx ny w h f lh px py ls].
  simpl in *. unfold set_children, set_direction. simpl. f_equal.
  rewrite List.map_map. apply List.map_ext_Forall. exact IH.
Qed.

Lemma blank_set_direction (c : node) (d : jsval) :
  _propagateDir (set_direction c d) JNull = _propagateDir c JNull.
Proof. destruct c; reflexivity. Qed.

Lemma blank_assignFloats (cs : list node) (r l : nat) :
  List.map (fun c => _propagateDir c JNull) (assignFloats cs r l)
  = List.map (fun c => _propagateDir c JNull) cs.
Proof.
  revert r l. induction cs as [|c cs IH]; intros r l; [reflexivity|].
  cbn [assignFloats]. destruct (is_float c); [destruct (r <=? l)%nat|];
    cbn [List.map]; rewrite ?blank_set_direction, IH; reflexivity.
Qed.

Lemma blank_map_propagate (f : node -> jsval) (cs : list node) :
  List.map (fun c => _propagateDir c JNull) (List.map (fun c => _propagateDir c (f c)) cs)
  = List.map (fun c => _propagateDir c JNull) cs.
Proof.
  rewrite List.map_map. apply List.map_ext. intros c.
  apply preorder_propagateDir_twice.
Qed.

Lemma uniform_map_propagate (f : node -> jsval) (cs : list node) :
  Forall (fun c => Forall (fun m => direction m = direction c) (preorder c))
         (List.map (fun c => _propagateDir c (f c)) cs).
Proof.
  induction cs as [|c cs IH]; simpl; constructor; [|exact IH].
  rewrite direction_propagateDir. apply propagateDir_all.
Qed.

(** X1.  In the layout modes [left], [right], [down] and [up] every node
    below the root ends up with the name of the mode as its direction,
    whatever direction the input gave it. *)
Theorem forced_mode_directions (o : O.t) (root : node) :
  forced_mode o = true ->
  Forall (fun m => direction m = JStr (O.layout o))
         (flat_map preorder (children (_assignDirections o root))).
Proof.
  intros Hm.
  assert (Hch : children (_assignDirections o root)
                = List.map (fun c => _propagateDir c (JStr (O.layout o))) (children root)).
  { unfold _assignDirections. unfold forced_mode, vertical_mode in Hm.
    destruct (String.eqb (O.layout o) "down" || String.eqb (O.layout o) "up");
      [apply children_set_children|].
    destruct (String.eqb (O.layout o) "left") eqn:El.
    { apply String.eqb_eq in El. rewrite El. apply children_set_children. }
    destruct (String.eqb (O.layout o) "right") eqn:Er; [|discriminate].
    apply String.eqb_eq in Er. rewrite Er. apply children_set_children. }
  rewrite Hch. clear Hch. induction (children root) as [|c cs IH]; simpl; [constructor|].
  apply Forall_app. split; [apply propagateDir_all | exact IH].
Qed.

Lemma forced_mode_directions_witness :
  Forall (fun m => direction m = JStr "down")
         (flat_map preorder
            (children (_assignDirections (with_layout DEFAULT_OPTIONS "down")
                                         sample_mixed_pins))).
Proof.
  apply (forced_mode_directions (with_layout DEFAULT_OPTIONS "down") sample_mixed_pins).
  reflexivity.
Defined.

Lemma auto_mode_children (o : O.t) (root : node) :
  auto_mode o = true ->
  children (_assignDirections o root)
  = List.map (fun c => _propagateDir c (direction c))
      (assignFloats (children root)
         (count_dir "right" (List.filter is_fixed (children root)))
         (count_dir "left" (List.filter is_fixed (children root)))).
Proof.
  intros H. unfold auto_mode, vertical_mode in H. unfold _assignDirections.
  destruct (String.eqb (O.layout o) "down" || String.eqb (O.layout o) "up");
    [discriminate|].
  destruct (String.eqb (O.layout o) "left"); [discriminate|].
  destruct (String.eqb (O.layout o) "right"); [discriminate|].
  apply children_set_children.
Qed.

Lemma count_dir_fixed (lit : string) (cs : list node) :
  lit = "left" \/ lit = "right" ->
  count_dir lit (List.filter is_fixed cs) = count_dir lit cs.
Proof.
  intros Hlit. unfold count_dir. rewrite (fixed_count cs lit Hlit).
  induction cs as [|c cs IH]; [reflexivity|].
  simpl. destruct (is_str (direction c) lit); simpl; rewrite IH; reflexivity.
Qed.

Lemma count_dir_cons (lit : string) (c : node) (cs : list node) :
  count_dir lit (c :: cs)
  = ((if is_str (direction c) lit then 1 else 0) + count_dir lit cs)%nat.
Proof. unfold count_dir. simpl. destruct (is_str (direction c) lit); reflexivity. Qed.

Lemma count_dir_propagate (lit : string) (cs : list node) :
  count_dir lit (List.map (fun c => _propagateDir c (direction c)) cs) = count_dir lit cs.
Proof.
  induction cs as [|c cs IH]; [reflexivity|].
  cbn [List.map]. rewrite !count_dir_cons, direction_propagateDir, IH. reflexivity.
Qed.

Lemma float_not_str (c : node) (lit : string) :
  lit <> "" -> is_float c = true -> is_str (direction c) lit = false.
Proof.
  unfold is_float. intros Hlit H. apply negb_true_iff in H.
  apply falsy_not_str; assumption.
Qed.

Lemma assignFloats_balance (cs : list node) (r l : nat) :
  let cs' := assignFloats cs r l in
  let f := length (List.filter is_float cs) in
  (count_dir "right" cs' + count_dir "left" cs'
   = count_dir "right" cs + count_dir "left" cs + f)%nat
  /\ (Z.abs ((Z.of_nat r + Z.of_nat (count_dir "right" cs') - Z.of_nat (count_dir "right" cs))
             - (Z.of_nat l + Z.of_nat (count_dir "left" cs') - Z.of_nat (count_dir "left" cs)))
      <= Z.max 1 (Z.abs (Z.of_nat r - Z.of_nat l) - Z.of_nat f))%Z.
Proof.
  revert r l. induction cs as [|c cs IH]; intros r l.
  { cbv zeta. unfold count_dir. cbn [assignFloats List.filter length]. lia. }
  cbn [assignFloats List.filter]. destruct (is_float c) eqn:Ef.
  - pose proof (float_not_str c "right" ltac:(discriminate) Ef) as Hr.
    pose proof (float_not_str c "left" ltac:(discriminate) Ef) as Hl.
    destruct (Nat.leb_spec r l) as [Hle | Hgt].
    + specialize (IH (S r) l). cbv zeta in IH |- *.
      rewrite !count_dir_cons, Hr, Hl. cbn [direction set_direction is_str length].
      change (String.eqb "right" "right") with true.
      change (String.eqb "right" "left") with false. cbv iota. lia.
    + specialize (IH r (S l)). cbv zeta in IH |- *.
      rewrite !count_dir_cons, Hr, Hl. cbn [direction set_direction is_str length].
      change (String.eqb "left" "right") with false.
      change (String.eqb "left" "left") with true. cbv iota. lia.
  - specialize (IH r l). cbv zeta in IH |- *. rewrite !count_dir_cons.
    destruct (is_str (direction c) "right"), (is_str (direction c) "left");
      cbv iota; lia.
Qed.

(** X2.  In auto mode the two sides end up balanced as far as the pins
    allow: with [R0] and [L0] children pinned right and left and [f]
    children without a direction, all [R0 + L0 + f] of them are on a side
    afterwards and the two sides differ by at most
    [max 1 (|R0 - L0| - f)]; in particular by at most one when there are
    at least as many unpinned children as the pins are out of balance. *)
Theorem auto_mode_balanced (o : O.t) (root : node) :
  auto_mode o = true ->
  let R0 := count_dir "right" (children root) in
  let L0 := count_dir "left" (children root) in
  let f := length (List.filter is_float (children root)) in
  let R := count_dir "right" (children (_assignDirections o root)) in
  let L := count_dir "left" (children (_assignDirections o root)) in
  (R + L = R0 + L0 + f)%nat
  /\ (Z.abs (Z.of_nat R - Z.of_nat L)
      <= Z.max 1 (Z.abs (Z.of_nat R0 - Z.of_nat L0) - Z.of_nat f))%Z.
Proof.
  intros Hm. cbv zeta. rewrite (auto_mode_children o root Hm).
  rewrite !count_dir_propagate, !count_dir_fixed by auto.
  pose proof (assignFloats_balance (children root)
                (count_dir "right" (children root))
                (count_dir "left" (children root))) as H.
  cbv zeta in H. lia.
Qed.

Lemma auto_mode_balanced_witness :
  let root' := _assignDirections DEFAULT_OPTIONS sample_mixed_pins in
  (count_dir "right" (children root') + count_dir "left" (children root') = 5)%nat
  /\ (Z.abs (Z.of_nat (count_dir "right" (children root'))
             - Z.of_nat (count_dir "left" (children root'))) <= 1)%Z.
Proof.
  apply (auto_mode_balanced DEFAULT_OPTIONS sample_mixed_pins). reflexivity.
Defined.

Lemma assignDirections_uniform (o : O.t) (root : node) :
  Forall (fun c => Forall (fun m => direction m = direction c) (preorder c))
         (children (_assignDirections o root)).
Proof.
  unfold _assignDirections.
  destruct (String.eqb (O.layout o) "down" || String.eqb (O.layout o) "up");
    [rewrite children_set_children; apply uniform_map_propagate|].
  destruct (String.eqb (O.layout o) "left");
    [rewrite children_set_children; apply uniform_map_propagate|].
  destruct (String.eqb (O.layout o) "right");
    rewrite children_set_children; apply uniform_map_propagate.
Qed.

(** X3.  In every layout mode, once directions are assigned each
    top-level branch carries one direction throughout: every node of the
    subtree of a child of the root has that child's direction. *)
Theorem branch_direction_uniform (o : O.t) (root : node) :
  Forall (fun c => Forall (fun m => direction m = direction c) (preorder c))
         (children (_assignDirections o root)).
Proof. apply assignDirections_uniform. Qed.

Lemma without_directions_eq (n : node) :
  without_directions n
  = set_children (set_direction n JNull) (List.map without_directions (children n)).
Proof. destruct n; reflexivity. Qed.

(** X4.  [_assignDirections] changes nothing but directions below the
    root: with directions disregarded the tree is the one it was given
    (same nodes in the same shape, same ids, topics, links, depths, colors
    and sizes), and the direction of the root itself is left as it was. *)
Theorem assignDirections_only_directions (o : O.t) (root : node) :
  without_directions (_assignDirections o root) = without_directions root
  /\ direction (_assignDirections o root) = direction root.
Proof.
  assert (Hs : forall cs, List.map without_directions cs
                          = List.map without_directions (children root) ->
               without_directions (set_children root cs) = without_directions root
               /\ direction (set_children root cs) = direction root).
  { intros cs Hcs. split; [|destruct root; reflexivity].
    rewrite (without_directions_eq root), (without_directions_eq (set_children root cs)).
    rewrite children_set_children, Hcs. destruct root; reflexivity. }
  unfold _assignDirections.
  destruct (String.eqb (O.layout o) "down" || String.eqb (O.layout o) "up");
    [apply Hs, blank_map_propagate|].
  destruct (String.eqb (O.layout o) "left"); [apply Hs, blank_map_propagate|].
  destruct (String.eqb (O.layout o) "right"); [apply Hs, blank_map_propagate|].
  apply Hs. unfold without_directions.
  rewrite (blank_map_propagate direction). apply blank_assignFloats.
Qed.

(* ================================================================== *)
(** * Tree building: further properties                                 *)
(* ================================================================== *)

Lemma buildTree_links (data : jsval) :
  forall p ci d k t k',
  _buildTree data p ci d k = Ok (t, k') ->
  depth t = d /\ parent t = p /\ _id t = k /\ well_linked t.
Proof.
  induction data as [data IH] using jsval_tree_ind.
  intros p ci d k t k' H.
  apply buildTree_inv in H as (cs & Hcs & ->).
  split; [reflexivity|]. split; [reflexivity|]. split; [reflexivity|].
  rewrite List.Forall_forall in IH.
  assert (Hchild : forall c, In c cs ->
            depth c = S d /\ parent c = Some k /\ well_linked c).
  { intros c Hc. apply In_nth_error in Hc as (j & Hj).
    destruct (buildChildren_children_inv _ _ _ _ _ _ _ _ Hcs j c Hj)
      as (dc & c0 & c1 & Hnth & Hb).
    assert (Hin : In dc (children_data data)) by (eapply nth_error_In; eauto).
    destruct (IH dc Hin _ _ _ _ _ _ Hb) as (Hd & Hp & _ & Hw). auto. }
  unfold well_linked. cbn [preorder built children _id depth].
  constructor.
  - apply List.Forall_forall. intros c Hc.
    destruct (Hchild c Hc) as (Hd & Hp & _). auto.
  - apply List.Forall_forall. intros m Hm.
    apply in_flat_map in Hm as (c & Hc & Hm).
    destruct (Hchild c Hc) as (_ & _ & Hw).
    unfold well_linked in Hw. rewrite List.Forall_forall in Hw. apply Hw, Hm.
Qed.

(** X5.  In the tree [_buildTree] returns for the root call, the root is
    at depth 0 without a parent, and throughout the tree every child
    names its parent's id as its parent and lies one level below it. *)
Theorem buildTree_well_linked (data : jsval) (t : node) (counter' : nat) :
  _buildTree data None (-1)%Z 0%nat 0%nat = Ok (t, counter') ->
  depth t = 0%nat /\ parent t = None /\ well_linked t.
Proof.
  intros H. destruct (buildTree_links data _ _ _ _ _ _ H) as (Hd & Hp & _ & Hw).
  auto.
Qed.

Lemma buildTree_well_linked_witness :
  exists t counter',
    _buildTree sample_root_ABC None (-1)%Z 0%nat 0%nat = Ok (t, counter')
    /\ depth t = 0%nat /\ parent t = None /\ well_linked t.
Proof.
  eexists _, _. split; [reflexivity|].
  apply (buildTree_well_linked sample_root_ABC _ 4%nat). reflexivity.
Defined.

Lemma buildChildren_fails (items : list jsval) :
  Forall (fun data => readable data = false ->
            forall p ci d k, exists msg,
              _buildTree data p ci d k = Throw (TypeError msg)) items ->
  forallb readable items = false ->
  forall id ci d i k, exists msg,
    buildChildren items id ci d i k = Throw (TypeError msg).
Proof.
  induction 1 as [|dc rest Hd _ IH]; intros Hr id ci d i k; [discriminate|].
  cbn [buildChildren]. simpl in Hr.
  destruct (readable dc) eqn:Er.
  - destruct (_buildTree dc (Some id)
                (if (d =? 0)%nat then Z.of_nat (i mod length DEFAULT_COLORS) else ci)
                (S d) k) as [[c k1]|[msg]]; [|exists msg; reflexivity].
    simpl in Hr. simpl bind. destruct (IH Hr id ci d (S i) k1) as (msg & ->).
    exists msg. reflexivity.
  - destruct (Hd eq_refl (Some id)
                (if (d =? 0)%nat then Z.of_nat (i mod length DEFAULT_COLORS) else ci)
                (S d) k) as (msg & ->).
    exists msg. reflexivity.
Qed.

(** X6.  [_buildTree] fails exactly on the inputs in which the root, or
    an entry reached through [children] arrays, is [null] or [undefined]:
    on those it throws a [TypeError], on all others it returns a tree and
    has used up one id per node. *)
Theorem buildTree_throws_iff_unreadable (data : jsval) (p : option nat)
    (ci : Z) (d k : nat) :
  (readable data = true ->
     exists t, _buildTree data p ci d k = Ok (t, (k + node_count data)%nat))
  /\ (readable data = false ->
     exists msg, _buildTree data p ci d k = Throw (TypeError msg)).
Proof.
  split.
  - intros Hr. destruct (buildTree_ids data Hr p ci d k) as (t & Ht & _). eauto.
  - revert p ci d k. induction data as [data IH] using jsval_tree_ind.
    intros p ci d k Hr. rewrite buildTree_eq. rewrite readable_eq in Hr.
    destruct (nullish data); [eexists; reflexivity|]. simpl in Hr.
    assert (IH' : Forall (fun data => readable data = false ->
                    forall p ci d k, exists msg,
                      _buildTree data p ci d k = Throw (TypeError msg))
                    (children_data data)).
    { eapply List.Forall_impl; [|exact IH]. intros a Ha Hra p' ci' d' k'. auto. }
    destruct (buildChildren_fails _ IH' Hr k ci d 0%nat (S k)) as (msg & ->).
    exists msg. reflexivity.
Qed.

Lemma buildTree_throws_iff_unreadable_witness :
  (exists t, _buildTree sample_root_ABC None (-1)%Z 0%nat 0%nat = Ok (t, 4%nat))
  /\ (exists msg, _buildTree sample_null_branch None (-1)%Z 0%nat 0%nat
                  = Throw (TypeError msg)).
Proof.
  split.
  - apply (proj1 (buildTree_throws_iff_unreadable sample_root_ABC None (-1)%Z 0%nat 0%nat)).
    reflexivity.
  - apply (proj2 (buildTree_throws_iff_unreadable sample_null_branch None (-1)%Z 0%nat 0%nat)).
    reflexivity.
Defined.

(* ================================================================== *)
(** * Drawing and collapsing: further properties                        *)
(* ================================================================== *)

Lemma drawSubtree_unfold (collapsed : gset nat) (n : node) :
  _drawSubtree collapsed n
  = if bool_decide (_id n ∈ collapsed) then []
    else flat_map (fun child => child :: _drawSubtree collapsed child) (children n).
Proof. destruct n; reflexivity. Qed.

Lemma drawn_has_visible_path (collapsed : gset nat) (n : node) :
  forall m, In m (n :: _drawSubtree collapsed n) ->
  exists path, node_at path n = Some m /\ visible_path collapsed path n = true.
Proof.
  induction n as [n IH] using node_tree_ind. intros m [<- | Hm].
  { exists []. split; reflexivity. }
  rewrite drawSubtree_unfold in Hm.
  destruct (bool_decide (_id n ∈ collapsed)) eqn:Ec; [destruct Hm|].
  apply in_flat_map in Hm as (c & Hc & Hm).
  rewrite List.Forall_forall in IH.
  destruct (IH c Hc m Hm) as (p & Hp & Hv).
  apply list_elem_of_In, list_elem_of_lookup_1 in Hc as (i & Hi).
  exists (i :: p). cbn [node_at visible_path]. rewrite Hi, Ec. auto.
Qed.

Lemma visible_path_drawn (collapsed : gset nat) (path : list nat) :
  forall n m, node_at path n = Some m -> visible_path collapsed path n = true ->
  In m (n :: _drawSubtree collapsed n).
Proof.
  induction path as [|i p IH]; intros n m Hn Hv.
  { injection Hn as <-. left. reflexivity. }
  cbn [node_at visible_path] in Hn, Hv.
  destruct (children n !! i) as [c|] eqn:Hi; [|discriminate].
  apply andb_true_iff in Hv as [Hc Hv]. apply negb_true_iff in Hc.
  right. rewrite drawSubtree_unfold, Hc. apply in_flat_map.
  exists c. split; [|apply IH; assumption].
  apply list_elem_of_In. eapply list_elem_of_lookup_2, Hi.
Qed.

(** X7.  A node is drawn exactly when none of its proper ancestors is
    collapsed: the nodes [_drawTree] draws are those at the end of a path
    from the root on which no node before the last is in the collapse
    set.  A collapsed node itself is still drawn. *)
Theorem drawn_iff_no_collapsed_ancestor (collapsed : gset nat) (root m : node) :
  In m (_drawTree collapsed root)
  <-> exists path, node_at path root = Some m
                   /\ visible_path collapsed path root = true.
Proof.
  unfold _drawTree. split.
  - apply drawn_has_visible_path.
  - intros (path & Hn & Hv). eapply visible_path_drawn; eassumption.
Qed.

Lemma drawn_iff_no_collapsed_ancestor_witness :
  exists path, node_at path sample_two_levels = Some sample_first_branch
               /\ visible_path {[ 1%nat ]} path sample_two_levels = true.
Proof.
  apply (proj1 (drawn_iff_no_collapsed_ancestor {[ 1%nat ]} sample_two_levels
                  sample_first_branch)).
  simpl. right. left. reflexivity.
Defined.

Lemma drawAllToggles_unfold (collapsed : gset nat) (n : node) :
  _drawAllToggles collapsed n
  = (if has_toggle n then [n] else [])
    ++ (if negb (bool_decide (_id n ∈ collapsed))
        then flat_map (_drawAllToggles collapsed) (children n)
        else []).
Proof. destruct n; reflexivity. Qed.

Lemma filter_flat_map {A B} (f : B -> bool) (g : A -> list B) (l : list A) :
  List.filter f (flat_map g l) = flat_map (fun a => List.filter f (g a)) l.
Proof.
  induction l as [|a l IH]; [reflexivity|].
  simpl. rewrite List.filter_app, IH. reflexivity.
Qed.

Lemma drawAllToggles_filter (collapsed : gset nat) (n : node) :
  _drawAllToggles collapsed n
  = List.filter has_toggle (n :: _drawSubtree collapsed n).
Proof.
  induction n as [n IH] using node_tree_ind.
  rewrite drawAllToggles_unfold, drawSubtree_unfold.
  assert (E : flat_map (_drawAllToggles collapsed) (children n)
              = List.filter has_toggle
                  (flat_map (fun child => child :: _drawSubtree collapsed child)
                            (children n))).
  { rewrite filter_flat_map.
    induction IH as [|c cs Hc _ IHcs]; [reflexivity|].
    cbn [flat_map]. rewrite Hc, IHcs. reflexivity. }
  cbn [List.filter].
  destruct (has_toggle n), (bool_decide (_id n ∈ collapsed)); cbn [negb app List.filter];
    rewrite ?E; reflexivity.
Qed.

(** X8.  With collapsing enabled, the collapse buttons drawn are those of
    the drawn nodes that lie below the root and have children, in drawing
    order: every such node gets one (a collapsed node too, so that it can
    be expanded again), the root and childless nodes get none. *)
Theorem toggles_are_drawn_parents (collapsed : gset nat) (root : node) :
  _drawAllToggles collapsed root
  = List.filter has_toggle (_drawTree collapsed root).
Proof. apply drawAllToggles_filter. Qed.

Lemma preorder_unfold (n : node) : preorder n = n :: flat_map preorder (children n).
Proof. destruct n; reflexivity. Qed.

Lemma node_at_in_preorder (path : list nat) :
  forall n m, node_at path n = Some m -> In m (preorder n).
Proof.
  induction path as [|i p IH]; intros n m H; rewrite preorder_unfold.
  { injection H as <-. left. reflexivity. }
  cbn [node_at] in H. destruct (children n !! i) as [c|] eqn:Hi; [|discriminate].
  right. apply in_flat_map. exists c. split; [|apply IH, H].
  apply list_elem_of_In. eapply list_elem_of_lookup_2, Hi.
Qed.

Lemma NoDup_flat_map_part {A B} (f : B -> nat) (g : A -> list B) (l : list A) (a : A) :
  List.NoDup (List.map f (flat_map g l)) -> In a l -> List.NoDup (List.map f (g a)).
Proof.
  induction l as [|b l IH]; intros Hn Hin; [destruct Hin|].
  cbn [flat_map] in Hn. rewrite List.map_app in Hn.
  destruct Hin as [-> | Hin].
  - eapply NoDup_app_remove_r, Hn.
  - apply IH; [|exact Hin]. eapply NoDup_app_remove_l, Hn.
Qed.

Lemma toggle_click_other (collapsed : gset nat) (id j : nat) :
  j <> id -> (j ∈ toggle_click collapsed id <-> j ∈ collapsed).
Proof.
  intros Hj. unfold toggle_click.
  destruct (bool_decide (id ∈ collapsed));
    rewrite ?elem_of_difference, ?elem_of_union, ?elem_of_singleton; tauto.
Qed.

Lemma toggle_click_twice (collapsed : gset nat) (id : nat) :
  toggle_click (toggle_click collapsed id) id = collapsed.
Proof.
  unfold toggle_click. destruct (bool_decide (id ∈ collapsed)) eqn:E.
  - apply bool_decide_eq_true in E.
    rewrite bool_decide_eq_false_2
      by (rewrite elem_of_difference, elem_of_singleton; tauto).
    apply set_eq. intros j.
    rewrite elem_of_union, elem_of_difference, elem_of_singleton.
    destruct (decide (j = id)) as [-> | Hne]; tauto.
  - apply bool_decide_eq_false in E.
    rewrite bool_decide_eq_true_2
      by (rewrite elem_of_union, elem_of_singleton; tauto).
    apply set_eq. intros j.
    rewrite elem_of_difference, elem_of_union, elem_of_singleton.
    destruct (decide (j = id)) as [-> | Hne]; tauto.
Qed.

Lemma visible_after_click (collapsed : gset nat) (path : list nat) :
  forall n m,
  List.NoDup (List.map _id (preorder n)) ->
  node_at path n = Some m ->
  visible_path collapsed path n = true ->
  visible_path (toggle_click collapsed (_id m)) path n = true.
Proof.
  induction path as [|i p IH]; intros n m Hnd Hn Hv; [reflexivity|].
  cbn [node_at visible_path] in *.
  destruct (children n !! i) as [c|] eqn:Hi; [|discriminate].
  apply andb_true_iff in Hv as [Hc Hv].
  apply negb_true_iff, bool_decide_eq_false in Hc.
  assert (Hin : In c (children n))
    by (apply list_elem_of_In; eapply list_elem_of_lookup_2, Hi).
  rewrite preorder_unfold in Hnd. cbn [List.map] in Hnd.
  apply List.NoDup_cons_iff in Hnd as [Hfresh Hnd].
  apply andb_true_iff. split.
  - apply negb_true_iff, bool_decide_eq_false. intros Hin'.
    assert (Hneq : _id n <> _id m).
    { intros E. apply Hfresh. rewrite E. apply in_map, in_flat_map.
      exists c. split; [exact Hin | eapply node_at_in_preorder, Hn]. }
    apply (toggle_click_other collapsed (_id m) (_id n) Hneq) in Hin'. auto.
  - apply IH; [|exact Hn | exact Hv].
    exact (NoDup_flat_map_part _id preorder (children n) c Hnd Hin).
Qed.

(** X9.  In a tree with distinct ids, clicking the collapse button of a
    node leaves that node and its button in place, whether the click
    collapses or expands it; and a second click on it restores the
    collapse state from before the first. *)
Theorem click_keeps_button (collapsed : gset nat) (root m : node) :
  List.NoDup (List.map _id (preorder root)) ->
  In m (_drawAllToggles collapsed root) ->
  In m (_drawAllToggles (toggle_click collapsed (_id m)) root)
  /\ toggle_click (toggle_click collapsed (_id m)) (_id m) = collapsed.
Proof.
  intros Hnd Hm. split; [|apply toggle_click_twice].
  rewrite drawAllToggles_filter in Hm |- *.
  apply List.filter_In in Hm as [Hm Ht]. apply List.filter_In. split; [|exact Ht].
  destruct (drawn_has_visible_path collapsed root m Hm) as (path & Hn & Hv).
  eapply visible_path_drawn; [exact Hn|].
  apply visible_after_click; assumption.
Qed.

Lemma click_keeps_button_witness :
  In sample_first_branch (_drawAllToggles (toggle_click ∅ 1%nat) sample_two_levels)
  /\ toggle_click (toggle_click ∅ 1%nat) 1%nat = ∅.
Proof.
  apply (click_keeps_button ∅ sample_two_levels sample_first_branch).
  - simpl. repeat (constructor; [simpl; lia|]). constructor.
  - simpl. left. reflexivity.
Defined.

(* ================================================================== *)
(** * Layout: what it leaves alone                                      *)
(* ================================================================== *)

Lemma unplaced_eq (n : node) :
  unplaced n = set_children (set_xy n 0 0) (List.map unplaced (children n)).
Proof. destruct n; reflexivity. Qed.

Lemma unplaced_set_xy (n : node) (a b : Q) : unplaced (set_xy n a b) = unplaced n.
Proof. destruct n; reflexivity. Qed.

Lemma unplaced_set_children (n : node) (a b : Q) (cs : list node) :
  List.map unplaced cs = List.map unplaced (children n) ->
  unplaced (set_children (set_xy n a b) cs) = unplaced n.
Proof.
  intros H. rewrite (unplaced_eq n), unplaced_eq, children_set_children, H.
  destruct n; reflexivity.
Qed.

Section UnplacedFacts.
Variable sp : Sp.t.
Variable collapsed : gset nat.

Lemma unplaced_layoutNode (n : node) :
  forall anchorX ny dir,
  unplaced (_layoutNode sp collapsed n anchorX ny dir) = unplaced n.
Proof.
  induction n as [n IH] using node_tree_ind. intros anchorX ny dir.
  rewrite layoutNode_eq. cbv zeta.
  destruct (childless_or_collapsed collapsed n); [apply unplaced_set_xy|].
  apply unplaced_set_children.
  generalize (ny - sum (List.map (_subtreeHeight sp collapsed) (children n)) / 2) as cy.
  generalize (List.map (_subtreeHeight sp collapsed) (children n)) as hs.
  induction IH as [|c cs Hc _ IHcs]; intros hs cy; [destruct hs; reflexivity|].
  destruct hs as [|h hs]; [reflexivity|].
  cbn [layoutChildren List.map]. rewrite Hc, IHcs. reflexivity.
Qed.

Lemma unplaced_layoutVerticalAt (n : node) :
  forall nx ny sign,
  unplaced (layoutVerticalAt sp collapsed n nx ny sign) = unplaced n.
Proof.
  induction n as [n IH] using node_tree_ind. intros nx ny sign.
  rewrite layoutVerticalAt_eq. cbv zeta.
  destruct (childless_or_collapsed collapsed n); [apply unplaced_set_xy|].
  apply unplaced_set_children.
  generalize (nx - sum (List.map (_subtreeWidth sp collapsed) (children n)) / 2) as cx.
  generalize (List.map (_subtreeWidth sp collapsed) (children n)) as ws.
  generalize (ny + sign * (height n / 2 + Sp.verticalSpacingY sp)) as edgeY.
  induction IH as [|c cs Hc _ IHcs]; intros edgeY ws cx; [destruct ws; reflexivity|].
  destruct ws as [|w ws]; [reflexivity|].
  cbn [layoutVerticalChildren List.map]. rewrite Hc, IHcs. reflexivity.
Qed.

Lemma unplaced_layoutBranches (dir : string) (edgeX : Q) (cs : list node) :
  forall hs ly,
  List.map unplaced (layoutBranches sp collapsed dir edgeX cs hs ly)
  = List.map unplaced cs.
Proof.
  induction cs as [|c cs IH]; intros hs ly; [reflexivity|].
  cbn [layoutBranches]. destruct (is_str (direction c) dir).
  - destruct hs as [|h hs]; [reflexivity|].
    cbn [List.map]. rewrite unplaced_layoutNode, IH. reflexivity.
  - cbn [List.map]. rewrite IH. reflexivity.
Qed.

Lemma unplaced_layoutSide (o : O.t) (root : node) (branches : list node) (dir : string) :
  unplaced (_layoutSide o sp collapsed root branches dir) = unplaced root.
Proof.
  unfold _layoutSide. destruct (length branches =? 0)%nat; [reflexivity|].
  cbv zeta. rewrite (unplaced_eq root), unplaced_eq, children_set_children.
  rewrite unplaced_layoutBranches. destruct root; reflexivity.
Qed.

Lemma unplaced_layoutTree (o : O.t) (root : node) :
  unplaced (_layoutTree o sp collapsed root) = unplaced root.
Proof.
  unfold _layoutTree. cbv zeta.
  destruct (String.eqb (O.layout o) "down" || String.eqb (O.layout o) "up").
  - unfold _layoutVerticalNode. rewrite unplaced_layoutVerticalAt.
    apply unplaced_set_xy.
  - rewrite !unplaced_layoutSide. apply unplaced_set_xy.
Qed.

Lemma layoutSide_xy (o : O.t) (root : node) (branches : list node) (dir : string) :
  x (_layoutSide o sp collapsed root branches dir) = x root
  /\ y (_layoutSide o sp collapsed root branches dir) = y root.
Proof.
  unfold _layoutSide. destruct (length branches =? 0)%nat; [split; reflexivity|].
  destruct root; split; reflexivity.
Qed.

Lemma layoutTree_origin (o : O.t) (root : node) :
  x (_layoutTree o sp collapsed root) = 0 /\ y (_layoutTree o sp collapsed root) = 0.
Proof.
  unfold _layoutTree. cbv zeta.
  destruct (String.eqb (O.layout o) "down" || String.eqb (O.layout o) "up").
  - unfold _layoutVerticalNode.
    destruct (layoutVerticalAt_box sp collapsed (set_xy root 0 0)
                (x (set_xy root 0 0)) (y (set_xy root 0 0))
                (if String.eqb (O.layout o) "down" then 1 else -1))
      as (Hx & Hy & _).
    rewrite Hx, Hy. destruct root; split; reflexivity.
  - destruct (layoutSide_xy o
                (_layoutSide o sp collapsed (set_xy root 0 0)
                   (List.filter (fun c => is_str (direction c) "right")
                      (children (set_xy root 0 0))) "right")
                (List.filter (fun c => is_str (direction c) "left")
                   (children (set_xy root 0 0))) "left") as [Hx Hy].
    rewrite Hx, Hy.
    destruct (layoutSide_xy o (set_xy root 0 0)
                (List.filter (fun c => is_str (direction c) "right")
                   (children (set_xy root 0 0))) "right") as [Hx' Hy'].
    rewrite Hx', Hy'. destruct root; split; reflexivity.
Qed.
End UnplacedFacts.

(** X10.  [_layoutTree] moves nodes and does nothing else: in every layout
    mode and collapse state, with positions disregarded the tree is the
    one it was given (same nodes, shape, ids, directions and sizes), and
    the root is placed at the origin. *)
Theorem layoutTree_only_positions (o : O.t) (sp : Sp.t) (collapsed : gset nat)
    (root : node) :
  unplaced (_layoutTree o sp collapsed root) = unplaced root
  /\ x (_layoutTree o sp collapsed root) = 0
  /\ y (_layoutTree o sp collapsed root) = 0.
Proof.
  split; [apply unplaced_layoutTree | apply layoutTree_origin].
Qed.

(* ================================================================== *)
(** * The whole pass: which nodes are drawn                             *)
(* ================================================================== *)

Section Projection.
(** A reading [f] of a node that placing, re-parenting, directing and
    sizing leave alone. *)
Context {A : Type}.
Variable f : node -> A.
Hypothesis Hxy : forall n a b cs, f (set_children (set_xy n a b) cs) = f n.
Hypothesis Hdir : forall n d cs, f (set_children (set_direction n d) cs) = f n.
Hypothesis Hmeasured : forall o measureText n cs ls,
  f (measured o measureText n cs ls) = f n.

Lemma proj_children_map (g : node -> node) (cs : list node) :
  Forall (fun c => List.map f (preorder (g c)) = List.map f (preorder c)) cs ->
  List.map f (flat_map preorder (List.map g cs))
  = List.map f (flat_map preorder cs).
Proof.
  induction 1 as [|c cs Hc _ IH]; [reflexivity|].
  cbn [List.map flat_map]. rewrite !List.map_app, Hc, IH. reflexivity.
Qed.

Lemma proj_unplaced (n : node) :
  List.map f (preorder (unplaced n)) = List.map f (preorder n).
Proof.
  induction n as [n IH] using node_tree_ind.
  rewrite unplaced_eq, (preorder_unfold n), preorder_unfold, children_set_children.
  cbn [List.map]. rewrite (proj_children_map unplaced _ IH), Hxy. reflexivity.
Qed.

Lemma propagateDir_eq (d : jsval) (n : node) :
  _propagateDir n d
  = set_children (set_direction n d) (List.map (fun c => _propagateDir c d) (children n)).
Proof. destruct n; reflexivity. Qed.

Lemma proj_propagateDir (d : jsval) (n : node) :
  List.map f (preorder (_propagateDir n d)) = List.map f (preorder n).
Proof.
  induction n as [n IH] using node_tree_ind.
  rewrite propagateDir_eq, (preorder_unfold n), preorder_unfold, children_set_children.
  cbn [List.map]. rewrite (proj_children_map (fun c => _propagateDir c d) _ IH), Hdir.
  reflexivity.
Qed.

Lemma proj_assignDirections (o : O.t) (root : node) :
  List.map f (preorder (_assignDirections o root)) = List.map f (preorder root).
Proof.
  rewrite <- (proj_propagateDir JNull (_assignDirections o root)).
  rewrite <- (proj_propagateDir JNull root).
  f_equal. f_equal.
  assert (Hs : forall cs,
            List.map (fun c => _propagateDir c JNull) cs
            = List.map (fun c => _propagateDir c JNull) (children root) ->
            _propagateDir (set_children root cs) JNull = _propagateDir root JNull).
  { intros cs Hcs. destruct root. simpl in *. unfold set_children, set_direction.
    simpl. rewrite Hcs. reflexivity. }
  unfold _assignDirections.
  destruct (String.eqb (O.layout o) "down" || String.eqb (O.layout o) "up");
    [apply Hs, blank_map_propagate|].
  destruct (String.eqb (O.layout o) "left"); [apply Hs, blank_map_propagate|].
  destruct (String.eqb (O.layout o) "right"); [apply Hs, blank_map_propagate|].
  apply Hs. rewrite (blank_map_propagate direction). apply blank_assignFloats.
Qed.

Lemma proj_computeSizes (o : O.t) (measureText : string -> Q -> Q) (n : node) :
  forall n', _computeSizes o measureText n = Ok n' ->
  List.map f (preorder n') = List.map f (preorder n).
Proof.
  induction n as [n IH] using node_tree_ind. intros n' H.
  apply computeSizes_inv in H as (ls & cs' & _ & Hcs & ->).
  apply sizeChildren_inv in Hcs.
  rewrite (preorder_unfold n), preorder_unfold.
  cbn [List.map]. rewrite Hmeasured. f_equal. cbn [measured children].
  induction Hcs as [|c c' cs cs'' Hc _ IHcs]; [reflexivity|].
  apply Forall_cons_1 in IH as [IHc IHrest].
  cbn [flat_map]. rewrite !List.map_app, (IHc c' Hc), (IHcs IHrest). reflexivity.
Qed.

Lemma proj_layoutTree (o : O.t) (sp : Sp.t) (collapsed : gset nat) (root : node) :
  List.map f (preorder (_layoutTree o sp collapsed root))
  = List.map f (preorder root).
Proof.
  rewrite <- proj_unplaced, unplaced_layoutTree. apply proj_unplaced.
Qed.

(** Through the whole pass: the laid-out tree reads as the built one. *)
Lemma proj_pass (o : O.t) (measureText : string -> Q -> Q) (sp : Sp.t)
    (collapsed : gset nat) (t0 t2 : node) :
  _computeSizes o measureText (_assignDirections o t0) = Ok t2 ->
  List.map f (preorder (_layoutTree o sp collapsed t2)) = List.map f (preorder t0).
Proof.
  intros Hsz.
  rewrite proj_layoutTree, (proj_computeSizes o measureText _ t2 Hsz).
  apply proj_assignDirections.
Qed.
End Projection.

Lemma ids_pass (o : O.t) (measureText : string -> Q -> Q) (sp : Sp.t)
    (collapsed : gset nat) (t0 t2 : node) :
  _computeSizes o measureText (_assignDirections o t0) = Ok t2 ->
  List.map _id (preorder (_layoutTree o sp collapsed t2)) = List.map _id (preorder t0).
Proof.
  apply (proj_pass _id); reflexivity.
Qed.

Lemma drawTree_nothing_collapsed (n : node) : _drawTree ∅ n = preorder n.
Proof.
  unfold _drawTree. induction n as [n IH] using node_tree_ind.
  rewrite preorder_unfold, drawSubtree_unfold. f_equal.
  rewrite bool_decide_eq_false_2 by apply not_elem_of_empty.
  induction IH as [|c cs Hc _ IHcs]; [reflexivity|].
  cbn [flat_map]. rewrite IHcs, (preorder_unfold c). cbn [app]. f_equal.
  injection (eq_trans Hc (preorder_unfold c)) as ->. reflexivity.
Qed.

(** X11.  [render] of a readable tree with string (or missing) topics
    succeeds and draws every node of the tree, once each: the nodes drawn
    are the laid-out tree in depth-first preorder, one per input node,
    with ids 0, 1, ..., n-1 in drawing order. *)
Theorem render_draws_every_node (o : O.t) (measureText : string -> Q -> Q)
    (data : jsval) :
  readable data = true ->
  string_topics data = true ->
  exists t,
    render o measureText data = Ok (t, preorder t)
    /\ List.map _id (preorder t) = seq 0 (node_count data)
    /\ length (preorder t) = node_count data.
Proof.
  intros Hr Hs.
  destruct (renderInternal_total o measureText ∅ data Hr Hs)
    as (t0 & t2 & Hb & _ & Hsz & Hrender).
  destruct (buildTree_ids data Hr None (-1)%Z 0%nat 0%nat) as (t0' & Hb' & Hids & _).
  simpl in Hb'. rewrite Hb in Hb'. injection Hb' as <-.
  exists (_layoutTree o (_computeAdaptiveSpacing o t2) ∅ t2).
  assert (Hall : List.map _id (preorder (_layoutTree o (_computeAdaptiveSpacing o t2) ∅ t2))
                 = seq 0 (node_count data)).
  { rewrite (ids_pass o measureText _ ∅ t0 t2 Hsz). exact Hids. }
  split; [|split; [exact Hall|]].
  - unfold render. rewrite Hrender, drawTree_nothing_collapsed. reflexivity.
  - rewrite <- (List.length_map _id), Hall. apply List.length_seq.
Qed.

Lemma render_draws_every_node_witness :
  exists t,
    render DEFAULT_OPTIONS eight_per_char sample_four_branches = Ok (t, preorder t)
    /\ List.map _id (preorder t) = seq 0 5
    /\ length (preorder t) = 5%nat.
Proof.
  apply (render_draws_every_node DEFAULT_OPTIONS eight_per_char sample_four_branches);
    reflexivity.
Defined.

(* ================================================================== *)
(** * Footprints and the collapse state                                 *)
(* ================================================================== *)

Lemma sum_map_le {A} (f g : A -> Q) (l : list A) :
  Forall (fun a => f a <= g a) l -> sum (List.map f l) <= sum (List.map g l).
Proof.
  induction 1 as [|a l Ha _ IH]; [unfold sum; simpl; lra|].
  cbn [List.map]. rewrite !sum_cons. lra.
Qed.

Lemma Math_max_mono_l (a a' b : Q) : a' <= a -> Math_max a' b <= Math_max a b.
Proof.
  intros H. pose proof (Math_max_spec a b) as (H1 & H2 & _).
  destruct (Math_max_spec a' b) as (_ & _ & [-> | ->]); lra.
Qed.

Lemma collapsed_mono (collapsed collapsed' : gset nat) (n : node) :
  collapsed ⊆ collapsed' ->
  childless_or_collapsed collapsed n = true ->
  childless_or_collapsed collapsed' n = true.
Proof.
  unfold childless_or_collapsed. intros Hsub H.
  apply orb_true_iff in H as [H | H]; apply orb_true_iff; [left; exact H|].
  right. apply bool_decide_eq_true. apply bool_decide_eq_true in H. auto.
Qed.

Section CollapseMonotone.
Variable sp : Sp.t.
Variables collapsed collapsed' : gset nat.
Hypothesis Hsub : collapsed ⊆ collapsed'.

Lemma subtreeHeight_antitone (n : node) :
  _subtreeHeight sp collapsed' n <= _subtreeHeight sp collapsed n.
Proof.
  induction n as [n IH] using node_tree_ind.
  rewrite (subtreeHeight_eq sp collapsed n), (subtreeHeight_eq sp collapsed' n).
  destruct (childless_or_collapsed collapsed n) eqn:E.
  - rewrite (collapsed_mono _ _ n Hsub E). lra.
  - destruct (childless_or_collapsed collapsed' n).
    + apply Math_max_spec.
    + apply Math_max_mono_l, sum_map_le, IH.
Qed.

Lemma subtreeWidth_antitone (n : node) :
  _subtreeWidth sp collapsed' n <= _subtreeWidth sp collapsed n.
Proof.
  induction n as [n IH] using node_tree_ind.
  rewrite (subtreeWidth_eq sp collapsed n), (subtreeWidth_eq sp collapsed' n).
  destruct (childless_or_collapsed collapsed n) eqn:E.
  - rewrite (collapsed_mono _ _ n Hsub E). lra.
  - destruct (childless_or_collapsed collapsed' n).
    + apply Math_max_spec.
    + apply Math_max_mono_l, sum_map_le, IH.
Qed.
End CollapseMonotone.

(** X12.  Collapsing more nodes never enlarges a footprint: when every
    collapsed node stays collapsed and others may be added, the height
    [_subtreeHeight] reserves for any subtree, and the width
    [_subtreeWidth] reserves for it, do not grow, whatever the sizes and
    gaps; and neither falls below the node's own box plus its gap. *)
Theorem collapsing_shrinks_footprint (sp : Sp.t) (collapsed collapsed' : gset nat)
    (n : node) :
  collapsed ⊆ collapsed' ->
  height n + Sp.verticalSpacing sp <= _subtreeHeight sp collapsed' n
  /\ _subtreeHeight sp collapsed' n <= _subtreeHeight sp collapsed n
  /\ width n + Sp.horizontalSpacing sp <= _subtreeWidth sp collapsed' n
  /\ _subtreeWidth sp collapsed' n <= _subtreeWidth sp collapsed n.
Proof.
  intros Hsub.
  split; [apply subtreeHeight_lower|].
  split; [apply subtreeHeight_antitone, Hsub|].
  split; [apply subtreeWidth_lower|].
  apply subtreeWidth_antitone, Hsub.
Qed.

Lemma collapsing_shrinks_footprint_witness :
  height sample_two_levels + Sp.verticalSpacing sample_spacing
    <= _subtreeHeight sample_spacing {[ 1%nat ]} sample_two_levels
  /\ _subtreeHeight sample_spacing {[ 1%nat ]} sample_two_levels
     <= _subtreeHeight sample_spacing ∅ sample_two_levels
  /\ width sample_two_levels + Sp.horizontalSpacing sample_spacing
     <= _subtreeWidth sample_spacing {[ 1%nat ]} sample_two_levels
  /\ _subtreeWidth sample_spacing {[ 1%nat ]} sample_two_levels
     <= _subtreeWidth sample_spacing ∅ sample_two_levels.
Proof.
  apply (collapsing_shrinks_footprint sample_spacing ∅ {[ 1%nat ]} sample_two_levels).
  apply empty_subseteq.
Defined.

(* ================================================================== *)
(** * Sizing: what a box holds                                          *)
(* ================================================================== *)

Lemma maxLineW_upper (measure : string -> Q) (ls : list string) (l : string) :
  In l ls -> measure l <= maxLineW measure ls.
Proof.
  unfold maxLineW.
  assert (H : forall a,
            a <= fold_left (fun m l => Math_max m (measure l)) ls a
            /\ (In l ls -> measure l <= fold_left (fun m l => Math_max m (measure l)) ls a));
    [|intros Hin; apply (H 0), Hin].
  induction ls as [|l0 ls IH]; intros a; [simpl; split; [lra | intros []]|].
  cbn [fold_left]. destruct (IH (Math_max a (measure l0))) as [H1 H2].
  pose proof (Math_max_spec a (measure l0)) as (Ha & Hl0 & _).
  split; [lra|]. intros [-> | Hin]; [lra | auto].
Qed.

Lemma Math_ceil_upper (a : Q) : a <= Math_ceil a.
Proof. unfold Math_ceil. apply Qle_ceiling. Qed.

Lemma Math_ceil_mono (a b : Q) : a <= b -> Math_ceil a <= Math_ceil b.
Proof.
  intros H. unfold Math_ceil. rewrite <- Zle_Qle. apply Qceiling_resp_le, H.
Qed.

Lemma Math_min_spec (a b : Q) :
  Math_min a b <= a /\ Math_min a b <= b /\ (Math_min a b = a \/ Math_min a b = b).
Proof.
  unfold Math_min. destruct (Qle_bool a b) eqn:E.
  - apply Qle_bool_iff in E. repeat split; [lra | lra | auto].
  - assert (~ a <= b) by (rewrite <- Qle_bool_iff; congruence).
    repeat split; [lra | lra | auto].
Qed.

Lemma measured_fits (o : O.t) (measureText : string -> Q -> Q) (n : node)
    (cs : list node) (ls : list string) :
  ls <> [] -> box_fits o measureText (measured o measureText n cs ls).
Proof.
  intros Hls. unfold box_fits, measured, maxContentW, iconExtra.
  cbn [depth fontSize paddingX paddingY lineHeight lines width height url].
  set (st := style_of o (depth n)).
  set (icon := if truthy (url n) then LINK_ICON_SPACE else 0).
  set (mw := maxLineW (fun t => measureText t (Style.fontSize st)) ls).
  do 4 (split; [reflexivity|]). split; [exact Hls|].
  split; [apply Math_ceil_mono, Math_min_spec|].
  split; [apply Math_ceil_upper|].
  apply List.Forall_forall. intros l Hl Hfit.
  pose proof (maxLineW_upper (fun t => measureText t (Style.fontSize st)) ls l Hl) as Hmax.
  fold mw in Hmax. cbv beta in Hmax.
  pose proof (Math_ceil_upper
                (Math_min (mw + Style.paddingX st * 2 + icon) (Style.maxWidth st))) as Hc.
  assert (Hmin : measureText l (Style.fontSize st) + Style.paddingX st * 2 + icon
                 <= Math_min (mw + Style.paddingX st * 2 + icon) (Style.maxWidth st)).
  { destruct (Math_min_spec (mw + Style.paddingX st * 2 + icon) (Style.maxWidth st))
      as (_ & _ & [-> | ->]); lra. }
  lra.
Qed.

Lemma wrapTopic_lines (o : O.t) (measureText : string -> Q -> Q) (n : node)
    (ls : list string) :
  wrapTopic o measureText n = Ok ls -> ls <> [].
Proof.
  unfold wrapTopic. destruct (topic n); try discriminate.
  intros H. injection H as <-. apply wrapText_not_nil.
Qed.

Lemma computeSizes_fits (o : O.t) (measureText : string -> Q -> Q) (n : node) :
  forall n', _computeSizes o measureText n = Ok n' ->
  Forall (box_fits o measureText) (preorder n').
Proof.
  induction n as [n IH] using node_tree_ind. intros n' H.
  apply computeSizes_inv in H as (ls & cs' & Hls & Hcs & ->).
  apply sizeChildren_inv in Hcs. rewrite preorder_unfold.
  constructor; [apply measured_fits, (wrapTopic_lines o measureText n ls Hls)|].
  cbn [measured children].
  induction Hcs as [|c c' cs cs'' Hc _ IHcs]; [constructor|].
  apply Forall_cons_1 in IH as [IHc IHrest].
  cbn [flat_map]. apply Forall_app. split; [apply (IHc c' Hc) | apply IHcs, IHrest].
Qed.

(** X13.  Sizing a tree whose topics are strings succeeds, and every box
    it produces carries the style of its depth and at least one line, is
    no wider than the rounded-up [maxWidth] of its style, at least as high
    as its lines and vertical padding need, and wide enough to hold every
    line that is within the wrapping budget together with the horizontal
    padding and, on a linked node, the icon space. *)
Theorem computeSizes_boxes_fit (o : O.t) (measureText : string -> Q -> Q) (n : node) :
  topics_are_strings n = true ->
  exists n', _computeSizes o measureText n = Ok n'
             /\ Forall (box_fits o measureText) (preorder n').
Proof.
  intros Ht. destruct (computeSizes_total o measureText n Ht) as [n' Hn'].
  exists n'. split; [exact Hn' | apply (computeSizes_fits o measureText n n' Hn')].
Qed.

Lemma computeSizes_boxes_fit_witness :
  exists n', _computeSizes DEFAULT_OPTIONS eight_per_char sample_linked = Ok n'
             /\ Forall (box_fits DEFAULT_OPTIONS eight_per_char) (preorder n').
Proof.
  apply (computeSizes_boxes_fit DEFAULT_OPTIONS eight_per_char sample_linked).
  reflexivity.
Defined.

(* ================================================================== *)
(** * Text placement                                                    *)
(* ================================================================== *)

Lemma Forall_preorder_unplaced (P : node -> Prop) :
  (forall b a c cs, P (set_children (set_xy b a c) cs) <-> P b) ->
  forall n, Forall P (preorder (unplaced n)) <-> Forall P (preorder n).
Proof.
  intros Hinv. induction n as [n IH] using node_tree_ind.
  rewrite unplaced_eq, (preorder_unfold n), preorder_unfold, children_set_children.
  rewrite !List.Forall_cons_iff, Hinv.
  assert (E : Forall P (flat_map preorder (List.map unplaced (children n)))
              <-> Forall P (flat_map preorder (children n))).
  { induction IH as [|c cs Hc _ IHcs]; [reflexivity|].
    cbn [List.map flat_map]. rewrite !Forall_app, Hc, IHcs. reflexivity. }
  rewrite E. reflexivity.
Qed.

Lemma box_fits_placed (o : O.t) (measureText : string -> Q -> Q) (b : node)
    (a c : Q) (cs : list node) :
  box_fits o measureText (set_children (set_xy b a c) cs) <-> box_fits o measureText b.
Proof. destruct b; reflexivity. Qed.

Lemma layoutTree_fits (o : O.t) (measureText : string -> Q -> Q) (sp : Sp.t)
    (collapsed : gset nat) (n : node) :
  Forall (box_fits o measureText) (preorder n) ->
  Forall (box_fits o measureText) (preorder (_layoutTree o sp collapsed n)).
Proof.
  intros H.
  apply (Forall_preorder_unplaced _ (box_fits_placed o measureText)).
  rewrite unplaced_layoutTree.
  apply (Forall_preorder_unplaced _ (box_fits_placed o measureText)), H.
Qed.

Lemma drawTree_in_preorder (collapsed : gset nat) (root m : node) :
  In m (_drawTree collapsed root) -> In m (preorder root).
Proof.
  intros H. destruct (drawn_has_visible_path collapsed root m H) as (p & Hp & _).
  eapply node_at_in_preorder, Hp.
Qed.

Lemma nat_Q_le (i j : nat) : (i <= j)%nat -> nat_Q i <= nat_Q j.
Proof. intros H. unfold nat_Q. rewrite <- Zle_Qle. lia. Qed.

Lemma nat_Q_S (i : nat) : nat_Q (S i) == nat_Q i + 1.
Proof.
  unfold nat_Q. rewrite Nat2Z.inj_succ. unfold Z.succ. rewrite inject_Z_plus.
  reflexivity.
Qed.

Lemma fitting_box_holds_text (o : O.t) (measureText : string -> Q -> Q) (b : node)
    (fill weight : string) :
  0 <= lineHeight b ->
  box_fits o measureText b ->
  Forall (tspan_inside o measureText b) (tspans (node_text b fill weight)).
Proof.
  intros Hlh (_ & _ & _ & _ & _ & _ & Hh & Hw).
  apply List.Forall_forall. intros s Hs.
  unfold node_text, _makeText in Hs. cbn [tspans] in Hs.
  apply list_elem_of_In, elem_of_lookup_imap_1 in Hs as (i & l & -> & Hi).
  pose proof (lookup_lt_Some _ _ _ Hi) as Hlt.
  assert (Hl : In l (lines b))
    by (apply list_elem_of_In; eapply list_elem_of_lookup_2, Hi).
  rewrite List.Forall_forall in Hw. specialize (Hw l Hl).
  unfold tspan_inside. cbn [tspan_x tspan_y textContent].
  set (n := nat_Q (length (lines b))) in *.
  assert (Hi0 : 0 <= nat_Q i) by (apply (nat_Q_le 0 i); lia).
  assert (Hin : nat_Q i + 1 <= n).
  { rewrite <- nat_Q_S. apply nat_Q_le. lia. }
  assert (H1 : 0 <= nat_Q i * lineHeight b) by (apply Qmult_le_0_compat; assumption).
  assert (H2 : 0 <= (n - 1 - nat_Q i) * lineHeight b)
    by (apply Qmult_le_0_compat; [lra | assumption]).
  unfold top_edge, bottom_edge, left_edge, right_edge.
  split; [qlra|]. split; [qlra|].
  intros Hfit. specialize (Hw Hfit).
  unfold textX, iconExtra in *. destruct (truthy (url b));
    unfold LINK_ICON_SPACE in *; split; qlra.
Qed.

(** X14.  Under a valid configuration, in every layout mode and collapse
    state, the text of every drawn node lies inside the node's box: each
    line, centered at its tspan, is vertically inside the padding, and
    every line that is within the wrapping budget is horizontally inside
    the padding, leaving the link-icon space free on its right on a linked
    node; whatever fill and weight the theme gives the text. *)
Theorem drawn_text_inside_box (o : O.t) (measureText : string -> Q -> Q)
    (collapsed : gset nat) (data : jsval) (fill weight : string) :
  valid_config o ->
  readable data = true ->
  string_topics data = true ->
  exists t,
    _renderInternal o measureText collapsed data = Ok (t, _drawTree collapsed t)
    /\ Forall (fun b => Forall (tspan_inside o measureText b)
                               (tspans (node_text b fill weight)))
              (_drawTree collapsed t).
Proof.
  intros Hv Hr Hs.
  destruct (renderInternal_total o measureText collapsed data Hr Hs)
    as (t0 & t2 & _ & _ & Hsz & Hrender).
  eexists. split; [exact Hrender|].
  pose proof (computeSizes_fits o measureText _ t2 Hsz) as Hfits.
  apply (layoutTree_fits o measureText (_computeAdaptiveSpacing o t2) collapsed) in Hfits.
  rewrite List.Forall_forall in Hfits.
  apply List.Forall_forall. intros b Hb.
  apply drawTree_in_preorder in Hb. specialize (Hfits b Hb).
  apply fitting_box_holds_text; [|exact Hfits].
  destruct Hfits as (_ & _ & _ & -> & _).
  pose proof (style_of_valid o (depth b) Hv) as (Hfs & _).
  destruct Hv as (_ & _ & _ & _ & _ & _ & Hlh & _).
  apply Qmult_le_0_compat; assumption.
Qed.

Lemma drawn_text_inside_box_witness :
  exists t,
    _renderInternal DEFAULT_OPTIONS eight_per_char {[ 1%nat ]} sample_wide_root_deep
      = Ok (t, _drawTree {[ 1%nat ]} t)
    /\ Forall (fun b => Forall (tspan_inside DEFAULT_OPTIONS eight_per_char b)
                               (tspans (node_text b "#FFFFFF" "600")))
              (_drawTree {[ 1%nat ]} t).
Proof.
  apply (drawn_text_inside_box DEFAULT_OPTIONS eight_per_char {[ 1%nat ]}
           sample_wide_root_deep "#FFFFFF" "600").
  - exact DEFAULT_OPTIONS_valid.
  - reflexivity.
  - reflexivity.
Defined.

(* ================================================================== *)
(** * The link icon: clear of the text                                  *)
(* ================================================================== *)

Lemma icon_points_clear (o : O.t) (measureText : string -> Q -> Q) (b : node) :
  Forall (tspan_inside o measureText b) (tspans (node_text b "" "")) ->
  Forall (icon_clear o measureText b) (icon_points b).
Proof.
  intros Htext. unfold icon_points.
  destruct (truthy (url b)) eqn:Eu; [|constructor].
  assert (Hend : Forall (fun s =>
                   let w := measureText (textContent s) (fontSize b) in
                   w <= maxContentW o b ->
                   tspan_x s + w / 2 <= right_edge b - paddingX b - 25)
                 (tspans (node_text b "" ""))).
  { eapply List.Forall_impl; [|exact Htext].
    intros s (_ & _ & H). cbv zeta in *. intros Hfit. destruct (H Hfit) as [_ Hr].
    unfold iconExtra in Hr. rewrite Eu in Hr. unfold LINK_ICON_SPACE in Hr. exact Hr. }
  assert (Hpt : forall px py,
            right_edge b - 26 <= px -> px <= right_edge b - 12 ->
            icon_clear o measureText b (px, py)).
  { intros px py H1 H2. unfold icon_clear. cbn [fst].
    split; [exact H1|]. split; [exact H2|].
    eapply List.Forall_impl; [|exact Hend]. intros s Hs. cbv zeta in *.
    intros Hfit. specialize (Hs Hfit). lra. }
  unfold _makeLinkIcon. cbv zeta. cbn [fst snd app].
  repeat (apply List.Forall_cons; [apply Hpt; unfold right_edge; qlra|]).
  constructor.
Qed.

(** X15.  Under a valid configuration, on every drawn node with a link
    the icon lies between 26 and 12 pixels to the left of the right wall
    of the box, and every line of the text that is within the wrapping
    budget ends to the left of it, at least the horizontal padding less
    one pixel away; a node without a link gets no icon. *)
Theorem link_icon_clear_of_text (o : O.t) (measureText : string -> Q -> Q)
    (collapsed : gset nat) (data : jsval) :
  valid_config o ->
  readable data = true ->
  string_topics data = true ->
  exists t,
    _renderInternal o measureText collapsed data = Ok (t, _drawTree collapsed t)
    /\ Forall (fun b => Forall (icon_clear o measureText b) (icon_points b)
                        /\ (truthy (url b) = false -> icon_points b = []))
              (_drawTree collapsed t).
Proof.
  intros Hv Hr Hs.
  destruct (renderInternal_total o measureText collapsed data Hr Hs)
    as (t0 & t2 & _ & _ & Hsz & Hrender).
  eexists. split; [exact Hrender|].
  pose proof (computeSizes_fits o measureText _ t2 Hsz) as Hfits.
  apply (layoutTree_fits o measureText (_computeAdaptiveSpacing o t2) collapsed) in Hfits.
  rewrite List.Forall_forall in Hfits.
  apply List.Forall_forall. intros b Hb.
  apply drawTree_in_preorder in Hb. specialize (Hfits b Hb).
  split; [|intros Hu; unfold icon_points; rewrite Hu; reflexivity].
  apply icon_points_clear, fitting_box_holds_text; [|exact Hfits].
  destruct Hfits as (_ & _ & _ & -> & _).
  pose proof (style_of_valid o (depth b) Hv) as (Hfs & _).
  destruct Hv as (_ & _ & _ & _ & _ & _ & Hlh & _).
  apply Qmult_le_0_compat; assumption.
Qed.

Lemma link_icon_clear_of_text_witness :
  exists t,
    _renderInternal DEFAULT_OPTIONS eight_per_char ∅ sample_with_link
      = Ok (t, _drawTree ∅ t)
    /\ Forall (fun b => Forall (icon_clear DEFAULT_OPTIONS eight_per_char b)
                               (icon_points b)
                        /\ (truthy (url b) = false -> icon_points b = []))
              (_drawTree ∅ t).
Proof.
  apply (link_icon_clear_of_text DEFAULT_OPTIONS eight_per_char ∅ sample_with_link).
  - exact DEFAULT_OPTIONS_valid.
  - reflexivity.
  - reflexivity.
Defined.

(* ================================================================== *)
(** * Edges: where they start and end                                   *)
(* ================================================================== *)

Lemma drawnEdges_unfold (collapsed : gset nat) (n : node) :
  drawnEdges collapsed n
  = if bool_decide (_id n ∈ collapsed) then []
    else flat_map (fun child => (n, child) :: drawnEdges collapsed child) (children n).
Proof. destruct n; reflexivity. Qed.

Lemma drawnEdges_childless_or_collapsed (collapsed : gset nat) (n : node) :
  childless_or_collapsed collapsed n = true -> drawnEdges collapsed n = [].
Proof.
  unfold childless_or_collapsed. rewrite drawnEdges_unfold. intros H.
  destruct (bool_decide (_id n ∈ collapsed)); [reflexivity|].
  rewrite orb_false_r in H. apply Nat.eqb_eq in H.
  destruct (children n); [reflexivity | discriminate].
Qed.

Lemma childless_or_collapsed_placed (collapsed : gset nat) (n : node) (a b : Q)
    (cs : list node) :
  childless_or_collapsed collapsed n = false ->
  bool_decide (_id (set_children (set_xy n a b) cs) ∈ collapsed) = false.
Proof.
  unfold childless_or_collapsed. intros H. apply orb_false_iff in H as [_ H].
  destruct n; exact H.
Qed.

Section VerticalEdges.
Variable sp : Sp.t.
Variable collapsed : gset nat.
Variable sign : Q.

Lemma layoutVerticalAt_rows (n : node) :
  forall nx ny,
  Forall (row_aligned sp sign)
         (drawnEdges collapsed (layoutVerticalAt sp collapsed n nx ny sign)).
Proof.
  induction n as [n IH] using node_tree_ind. intros nx ny.
  rewrite layoutVerticalAt_eq.
  destruct (childless_or_collapsed collapsed n) eqn:E.
  { rewrite drawnEdges_childless_or_collapsed; [constructor|].
    destruct n; exact E. }
  cbv zeta. rewrite drawnEdges_unfold.
  rewrite (childless_or_collapsed_placed collapsed n _ _ _ E).
  rewrite children_set_children.
  set (n' := set_children (set_xy n nx ny) _).
  assert (Hy : y n' = ny) by (destruct n; reflexivity).
  assert (Hh : height n' = height n) by (destruct n; reflexivity).
  clearbody n'.
  generalize (nx - sum (List.map (_subtreeWidth sp collapsed) (children n)) / 2) as cx.
  induction IH as [|c cs Hc _ IHcs]; intros cx; [constructor|].
  cbn [List.map layoutVerticalChildren flat_map].
  constructor; [|apply Forall_app; split; [apply Hc | apply IHcs]].
  unfold row_aligned. cbn [fst snd].
  destruct (layoutVerticalAt_box sp collapsed c
              (cx + _subtreeWidth sp collapsed c / 2)
              (ny + sign * (height n / 2 + Sp.verticalSpacingY sp) + sign * height c / 2)
              sign) as (_ & Hyc & _ & Hhc & _).
  cbv zeta in Hyc, Hhc. rewrite Hyc, Hhc, Hy, Hh. qlra.
Qed.
End VerticalEdges.

(** X16.  In the layout modes [down] and [up], every edge that is drawn
    runs from the middle of the parent's far face to the middle of the
    child's near face, and these two faces are exactly one level gap
    ([verticalSpacingY]) apart in the flow direction, for every collapse
    state and whatever the sizes of the boxes. *)
Theorem vertical_edges_span_gap (o : O.t) (eo : EdgeOptions.t) (sp : Sp.t)
    (collapsed : gset nat) (root : node) :
  vertical_mode o = true ->
  Forall (fun pc =>
            let e := _drawEdge o eo (fst pc) (snd pc) in
            let down := String.eqb (O.layout o) "down" in
            x1 e = x (fst pc) /\ x2 e = x (snd pc)
            /\ y1 e == (if down then bottom_edge (fst pc) else top_edge (fst pc))
            /\ y2 e == (if down then top_edge (snd pc) else bottom_edge (snd pc))
            /\ y2 e - y1 e == flow_sign down * Sp.verticalSpacingY sp)
         (drawnEdges collapsed (_layoutTree o sp collapsed root)).
Proof.
  intros Hv. unfold vertical_mode in Hv.
  unfold _layoutTree, _layoutVerticalNode. cbv zeta. rewrite Hv.
  eapply List.Forall_impl; [|apply layoutVerticalAt_rows].
  intros [p c]. unfold row_aligned, _drawEdge, _drawEdgeVertical. cbn [fst snd].
  rewrite Hv. cbv zeta. cbn [x1 x2 y1 y2].
  unfold bottom_edge, top_edge, flow_sign.
  destruct (String.eqb (O.layout o) "down"); intros H;
    (split; [reflexivity|]); (split; [reflexivity|]); repeat split; qlra.
Qed.

Lemma vertical_edges_span_gap_witness :
  Forall (fun pc =>
            let e := _drawEdge down_options DEFAULT_EDGE_OPTIONS (fst pc) (snd pc) in
            let down := String.eqb (O.layout down_options) "down" in
            x1 e = x (fst pc) /\ x2 e = x (snd pc)
            /\ y1 e == (if down then bottom_edge (fst pc) else top_edge (fst pc))
            /\ y2 e == (if down then top_edge (snd pc) else bottom_edge (snd pc))
            /\ y2 e - y1 e == flow_sign down * Sp.verticalSpacingY sample_spacing)
         (drawnEdges {[ 4%nat ]}
            (_layoutTree down_options sample_spacing {[ 4%nat ]} sample_two_levels)).
Proof.
  apply (vertical_edges_span_gap down_options DEFAULT_EDGE_OPTIONS sample_spacing
           {[ 4%nat ]} sample_two_levels).
  reflexivity.
Defined.

Lemma drawnEdges_nodes (collapsed : gset nat) (P : node -> Prop) (n : node) :
  Forall P (preorder n) ->
  Forall (fun pc => P (fst pc) /\ P (snd pc)) (drawnEdges collapsed n).
Proof.
  induction n as [n IH] using node_tree_ind. intros H.
  rewrite preorder_unfold in H. apply Forall_cons_1 in H as [Hn Hcs].
  rewrite drawnEdges_unfold.
  destruct (bool_decide (_id n ∈ collapsed)); [constructor|].
  induction IH as [|c cs Hc _ IHcs]; [constructor|].
  cbn [flat_map] in *. apply Forall_app in Hcs as [Hpc Hpcs].
  constructor; [|apply Forall_app; split; [apply Hc, Hpc | apply IHcs, Hpcs]].
  cbn [fst snd]. split; [exact Hn|].
  rewrite preorder_unfold in Hpc. apply Forall_cons_1 in Hpc as [Hpc _]. exact Hpc.
Qed.

Section HorizontalEdges.
Variable o : O.t.
Variable eo : EdgeOptions.t.
Variable sp : Sp.t.
Variable collapsed : gset nat.
Hypothesis Hmode : vertical_mode o = false.

Lemma layoutNode_columns (dir : string) (n : node) :
  forall anchorX ny,
  Forall (col_aligned sp dir)
         (drawnEdges collapsed (_layoutNode sp collapsed n anchorX ny dir)).
Proof.
  induction n as [n IH] using node_tree_ind. intros anchorX ny.
  rewrite layoutNode_eq. cbv zeta.
  destruct (childless_or_collapsed collapsed n) eqn:E.
  { rewrite drawnEdges_childless_or_collapsed; [constructor|].
    destruct n; exact E. }
  rewrite drawnEdges_unfold.
  rewrite (childless_or_collapsed_placed collapsed n _ _ _ E).
  rewrite children_set_children.
  set (nx := if String.eqb dir "right" then anchorX + width n / 2
             else anchorX - width n / 2).
  set (n' := set_children (set_xy n nx ny) _).
  assert (Hx : x n' = nx) by (destruct n; reflexivity).
  assert (Hw : width n' = width n) by (destruct n; reflexivity).
  clearbody n'.
  generalize (ny - sum (List.map (_subtreeHeight sp collapsed) (children n)) / 2) as cy.
  induction IH as [|c cs Hc _ IHcs]; intros cy; [constructor|].
  cbn [List.map layoutChildren flat_map].
  constructor; [|apply Forall_app; split; [apply Hc | apply IHcs]].
  unfold col_aligned. cbn [fst snd].
  match goal with |- context [_layoutNode sp collapsed c ?a ?b dir] =>
    destruct (layoutNode_box sp collapsed c a b dir) as (Hxc & _ & Hwc & _)
  end.
  cbv zeta in Hxc, Hwc. unfold left_edge, right_edge. rewrite Hxc, Hwc, Hx, Hw.
  destruct (String.eqb dir "right"); qlra.
Qed.

Lemma layoutNode_edges (dir : string) (n : node) :
  dir = "right" \/ dir = "left" ->
  Forall (fun m => direction m = JStr dir /\ (0 < depth m)%nat) (preorder n) ->
  forall anchorX ny,
  Forall (horizontal_edge_ok o eo sp)
         (drawnEdges collapsed (_layoutNode sp collapsed n anchorX ny dir)).
Proof.
  intros Hlit Hn anchorX ny.
  assert (Hn' : Forall (fun m => direction m = JStr dir /\ (0 < depth m)%nat)
                       (preorder (_layoutNode sp collapsed n anchorX ny dir))).
  { apply (Forall_preorder_unplaced
             (fun m => direction m = JStr dir /\ (0 < depth m)%nat)).
    - intros b a c cs. destruct b; reflexivity.
    - rewrite unplaced_layoutNode.
      apply (Forall_preorder_unplaced
               (fun m => direction m = JStr dir /\ (0 < depth m)%nat));
        [intros b a c cs; destruct b; reflexivity | exact Hn]. }
  apply (drawnEdges_nodes collapsed) in Hn'.
  pose proof (layoutNode_columns dir n anchorX ny) as Hcol.
  rewrite List.Forall_forall in Hn', Hcol |- *.
  intros [p c] Hin. specialize (Hn' _ Hin). specialize (Hcol _ Hin).
  cbn [fst snd] in Hn'. destruct Hn' as [[Hdirp Hdp] [Hdc _]].
  unfold horizontal_edge_ok, col_aligned, _drawEdge, edge_gap in *.
  cbn [fst snd] in *.
  split; [unfold on_a_side; rewrite Hdc; destruct Hlit as [-> | ->]; auto|].
  split; [intros _; congruence|].
  unfold vertical_mode in Hmode. rewrite Hmode.
  assert (Hd0 : (depth p =? 0)%nat = false) by (apply Nat.eqb_neq; lia).
  rewrite Hd0, Hdc. cbn [is_str andb]. cbv zeta.
  unfold left_edge, right_edge in *.
  destruct (String.eqb dir "right"); cbn [x1 x2]; repeat split; qlra.
Qed.
End HorizontalEdges.

Lemma is_str_eq (d : jsval) (lit : string) : is_str d lit = true -> d = JStr lit.
Proof.
  destruct d; simpl; try discriminate. intros H. apply String.eqb_eq in H.
  subst. reflexivity.
Qed.

Section RootEdges.
Variable o : O.t.
Variable eo : EdgeOptions.t.
Variable sp : Sp.t.
Variable collapsed : gset nat.
Hypothesis Hmode : vertical_mode o = false.

(** A laid-out top-level branch: still a branch, with its near wall on
    the edge of its side and all its edges in order. *)
Local Abbreviation placed_branch eR eL :=
  (fun c' => branch_ok c'
             /\ (if is_str (direction c') "right"
                 then left_edge c' == eR else right_edge c' == eL)
             /\ Forall (horizontal_edge_ok o eo sp) (drawnEdges collapsed c')).

Lemma branch_ok_layoutNode (c : node) (a b : Q) (dir : string) :
  branch_ok c -> branch_ok (_layoutNode sp collapsed c a b dir).
Proof.
  intros [Hside Hall].
  destruct (layoutNode_box sp collapsed c a b dir) as (_ & _ & _ & _ & _ & Hd).
  cbv zeta in Hd. unfold branch_ok, on_a_side. rewrite Hd. split; [exact Hside|].
  apply (Forall_preorder_unplaced
           (fun m => direction m = direction c /\ (0 < depth m)%nat)).
  - intros n x0 y0 cs. destruct n; reflexivity.
  - rewrite unplaced_layoutNode.
    apply (Forall_preorder_unplaced
             (fun m => direction m = direction c /\ (0 < depth m)%nat));
      [intros n x0 y0 cs; destruct n; reflexivity | exact Hall].
Qed.

Lemma placed_branch_layoutNode (eR eL : Q) (c : node) (b : Q) (dir : string) :
  branch_ok c ->
  is_str (direction c) dir = true ->
  (dir = "right" \/ dir = "left") ->
  placed_branch eR eL
    (_layoutNode sp collapsed c (if String.eqb dir "right" then eR else eL) b dir).
Proof.
  intros Hok Hdir Hlit. split; [apply branch_ok_layoutNode, Hok|].
  pose proof (is_str_eq _ _ Hdir) as Hd.
  destruct (layoutNode_box sp collapsed c (if String.eqb dir "right" then eR else eL)
              b dir) as (Hx & _ & Hw & _ & _ & Hd').
  cbv zeta in Hx, Hw, Hd'. split.
  - rewrite Hd', Hd. unfold left_edge, right_edge. rewrite Hx, Hw.
    destruct Hlit as [-> | ->]; cbn [is_str]; 
      [change (String.eqb "right" "right") with true
      |change (String.eqb "left" "right") with false]; cbv iota; qlra.
  - apply (layoutNode_edges o eo sp collapsed Hmode); [exact Hlit|].
    destruct Hok as [_ Hall]. rewrite Hd in Hall. exact Hall.
Qed.

Lemma two_sides_edges (eR eL : Q) (cs : list node) :
  Forall branch_ok cs ->
  forall yR yL,
    let hsR := List.map (_subtreeHeight sp collapsed)
                 (List.filter (fun c => is_str (direction c) "right") cs) in
    let hsL := List.map (_subtreeHeight sp collapsed)
                 (List.filter (fun c => is_str (direction c) "left") cs) in
    Forall (placed_branch eR eL)
      (layoutBranches sp collapsed "left" eL
         (layoutBranches sp collapsed "right" eR cs hsR yR) hsL yL).
Proof.
  induction 1 as [|c cs Hc _ IH]; intros yR yL; [constructor|].
  cbv zeta. destruct (proj1 Hc) as [Hr | Hl].
  - pose proof (right_not_left _ Hr) as Hnl.
    cbn [List.filter]. rewrite Hr, Hnl. cbn [List.map].
    rewrite (layoutBranches_hit sp collapsed "right") by exact Hr.
    rewrite (layoutBranches_miss sp collapsed "left")
      by (rewrite (proj2 (proj2 (proj2 (proj2 (proj2
                    (layoutNode_box sp collapsed c eR
                       (yR + _subtreeHeight sp collapsed c / 2) "right"))))));
          exact Hnl).
    constructor; [|apply IH].
    apply (placed_branch_layoutNode eR eL c _ "right" Hc Hr). auto.
  - pose proof (left_not_right _ Hl) as Hnr.
    cbn [List.filter]. rewrite Hl, Hnr. cbn [List.map].
    rewrite (layoutBranches_miss sp collapsed "right") by exact Hnr.
    rewrite (layoutBranches_hit sp collapsed "left") by exact Hl.
    constructor; [|apply IH].
    apply (placed_branch_layoutNode eR eL c _ "left" Hc Hl). auto.
Qed.
End RootEdges.

Lemma depth_unplaced (n : node) : depth (unplaced n) = depth n.
Proof. destruct n; reflexivity. Qed.

(** The edges of a laid-out tree whose branches are in order. *)
Lemma layoutTree_edges (o : O.t) (eo : EdgeOptions.t) (sp : Sp.t)
    (collapsed : gset nat) (root : node) :
  vertical_mode o = false ->
  depth root = 0%nat ->
  Forall branch_ok (children root) ->
  Forall (fun pc => (0 < depth (fst pc))%nat \/ known_center_edge o ->
                    horizontal_edge_ok o eo sp pc)
         (drawnEdges collapsed (_layoutTree o sp collapsed root)).
Proof.
  intros Hv Hd Hbr.
  destruct (layoutTree_horizontal o sp collapsed root Hv)
    as (Hx & _ & Hw & _ & Hid & Hch).
  cbv zeta in Hx, Hw, Hid, Hch.
  assert (Hdepth : depth (_layoutTree o sp collapsed root) = 0%nat).
  { rewrite <- depth_unplaced, unplaced_layoutTree, depth_unplaced. exact Hd. }
  pose proof (two_sides_edges o eo sp collapsed Hv
                (side_edge o sp root "right") (side_edge o sp root "left")
                (children root) Hbr
                (- sum (List.map (_subtreeHeight sp collapsed)
                          (List.filter (fun c => is_str (direction c) "right")
                             (children root))) / 2)
                (- sum (List.map (_subtreeHeight sp collapsed)
                          (List.filter (fun c => is_str (direction c) "left")
                             (children root))) / 2)) as Hall.
  cbv zeta in Hall. rewrite <- Hch in Hall. clear Hch.
  rewrite drawnEdges_unfold.
  destruct (bool_decide (_id (_layoutTree o sp collapsed root) ∈ collapsed));
    [constructor|].
  set (t := _layoutTree o sp collapsed root) in *. clearbody t.
  induction Hall as [|c cs (Hok & Hedge & Hsub) _ IH]; [constructor|].
  cbn [flat_map]. constructor;
    [|apply Forall_app; split;
      [eapply List.Forall_impl; [|exact Hsub]; intros pc Hpc _; exact Hpc | exact IH]].
  clear IH Hsub. cbn [fst]. rewrite Hdepth. intros [Hlt | Hce]; [inversion Hlt|].
  unfold horizontal_edge_ok, _drawEdge, edge_gap. cbn [fst snd].
  split; [exact (proj1 Hok)|].
  split; [rewrite Hdepth; intros Hlt; inversion Hlt|].
  unfold vertical_mode in Hv. rewrite Hv, Hdepth. cbv zeta.
  change (0 =? 0)%nat with true. cbv iota. cbn [andb].
  unfold side_edge, left_edge, right_edge in *. rewrite Hx, Hw.
  destruct Hok as [[Hr | Hl] _].
  - rewrite Hr in *. destruct Hce as [Hce | Hce]; rewrite Hce in *;
      cbn [String.eqb Ascii.eqb Bool.eqb] in *; cbv iota in *; cbn [x1 x2];
      repeat split; qlra.
  - rewrite (left_not_right _ Hl) in *.
    destruct Hce as [Hce | Hce]; rewrite Hce in *;
      cbn [String.eqb Ascii.eqb Bool.eqb] in *; cbv iota in *; cbn [x1 x2];
      repeat split; qlra.
Qed.

Lemma maxDepth_eq (n : node) :
  _maxDepth n = if (length (children n) =? 0)%nat then depth n
                else list_max (List.map _maxDepth (children n)).
Proof. destruct n; reflexivity. Qed.

Lemma maxDepth_unplaced (n : node) : _maxDepth (unplaced n) = _maxDepth n.
Proof.
  induction n as [n IH] using node_tree_ind.
  rewrite (maxDepth_eq n), maxDepth_eq, unplaced_eq, children_set_children.
  rewrite List.length_map.
  assert (E : List.map _maxDepth (List.map unplaced (children n))
              = List.map _maxDepth (children n)).
  { rewrite List.map_map. apply List.map_ext_Forall. exact IH. }
  rewrite E. destruct n; reflexivity.
Qed.

Lemma spacing_layoutTree (o : O.t) (sp : Sp.t) (collapsed : gset nat) (n : node) :
  _computeAdaptiveSpacing o (_layoutTree o sp collapsed n) = _computeAdaptiveSpacing o n.
Proof.
  unfold _computeAdaptiveSpacing.
  rewrite <- (maxDepth_unplaced (_layoutTree o sp collapsed n)), unplaced_layoutTree,
    maxDepth_unplaced.
  reflexivity.
Qed.

Lemma well_linked_inv (n : node) :
  well_linked n ->
  Forall (fun c => parent c = Some (_id n) /\ depth c = S (depth n)) (children n)
  /\ Forall well_linked (children n).
Proof.
  unfold well_linked. rewrite preorder_unfold. intros H.
  apply Forall_cons_1 in H as [H1 H2]. split; [exact H1|].
  apply Forall_flat_map in H2. exact H2.
Qed.

Lemma well_linked_below (n : node) :
  well_linked n ->
  Forall (fun m => (depth n < depth m)%nat) (flat_map preorder (children n)).
Proof.
  induction n as [n IH] using node_tree_ind. intros Hw.
  apply well_linked_inv in Hw as [Hd Hw].
  apply Forall_flat_map. rewrite List.Forall_forall in IH, Hd, Hw |- *.
  intros c Hc. destruct (Hd c Hc) as [_ Hdc].
  rewrite preorder_unfold. constructor; [lia|].
  eapply List.Forall_impl; [|apply (IH c Hc (Hw c Hc))].
  intros m Hm. cbv beta in Hm. lia.
Qed.

Lemma branches_ok (cs : list node) :
  Forall on_a_side cs ->
  Forall (fun c => Forall (fun m => direction m = direction c) (preorder c)) cs ->
  Forall (fun m => (0 < depth m)%nat) (flat_map preorder cs) ->
  Forall branch_ok cs.
Proof.
  intros Hs Hu Hd. apply Forall_flat_map in Hd.
  rewrite List.Forall_forall in Hs, Hu, Hd |- *.
  intros c Hc. split; [apply Hs, Hc|].
  specialize (Hu c Hc). specialize (Hd c Hc).
  rewrite List.Forall_forall in Hu, Hd |- *. intros m Hm. auto.
Qed.

Lemma branch_ok_sized (o : O.t) (measureText : string -> Q -> Q) (c c' : node) :
  _computeSizes o measureText c = Ok c' -> branch_ok c -> branch_ok c'.
Proof.
  intros Hsz [Hside Hall].
  pose proof (computeSizes_direction o measureText c c' Hsz) as Hd.
  unfold branch_ok, on_a_side. rewrite Hd. split; [exact Hside|].
  pose proof (proj_computeSizes (fun m => (direction m, depth m))
                ltac:(reflexivity) o measureText c c' Hsz) as Hp.
  apply (Forall_map (fun m => (direction m, depth m))
           (fun k => fst k = direction c /\ (0 < snd k)%nat)).
  rewrite Hp.
  apply (Forall_map (fun m => (direction m, depth m))
           (fun k => fst k = direction c /\ (0 < snd k)%nat)).
  exact Hall.
Qed.

(** What the pass hands to [_layoutTree] in a horizontal mode: a root at
    depth 0 over branches that are in order. *)
Lemma pass_branches_ok (o : O.t) (measureText : string -> Q -> Q) (data : jsval)
    (t0 t2 : node) (counter' : nat) :
  vertical_mode o = false ->
  (auto_mode o = true -> schema_directions data = true) ->
  _buildTree data None (-1)%Z 0%nat 0%nat = Ok (t0, counter') ->
  mirrors data t0 ->
  _computeSizes o measureText (_assignDirections o t0) = Ok t2 ->
  depth t2 = 0%nat /\ Forall branch_ok (children t2).
Proof.
  intros Hv Hdirs Hb Hm Hsz.
  destruct (buildTree_links data _ _ _ _ _ _ Hb) as (Hd0 & _ & _ & Hw).
  pose proof (well_linked_below t0 Hw) as Hbelow. rewrite Hd0 in Hbelow.
  pose proof (proj_assignDirections depth ltac:(reflexivity) o t0) as Hp1.
  rewrite (preorder_unfold t0), (preorder_unfold (_assignDirections o t0)) in Hp1.
  cbn [List.map] in Hp1. injection Hp1 as Hd1 Hp1.
  assert (Hbelow1 : Forall (fun m => (0 < depth m)%nat)
                      (flat_map preorder (children (_assignDirections o t0)))).
  { apply (Forall_map depth (fun d => (0 < d)%nat)). rewrite Hp1.
    apply (Forall_map depth (fun d => (0 < d)%nat)). exact Hbelow. }
  assert (Hside1 : Forall on_a_side (children (_assignDirections o t0))).
  { apply assignDirections_sides; [exact Hv|].
    intros Ha. apply (mirrors_schema_directions data t0 Hm), Hdirs, Ha. }
  pose proof (branches_ok _ Hside1 (assignDirections_uniform o t0) Hbelow1) as Hok1.
  apply computeSizes_inv in Hsz as (ls & cs' & _ & Hcs & ->).
  apply sizeChildren_inv in Hcs. split.
  - cbn [measured depth]. congruence.
  - cbn [measured children].
    clear -Hcs Hok1. induction Hcs as [|c c' cs cs'' Hc _ IH]; [constructor|].
    apply Forall_cons_1 in Hok1 as [Hokc Hokcs].
    constructor; [exact (branch_ok_sized o measureText c c' Hc Hokc) | apply IH, Hokcs].
Qed.

(** The edges of the whole pass in a horizontal mode. *)
Lemma render_horizontal_edges (o : O.t) (eo : EdgeOptions.t)
    (measureText : string -> Q -> Q) (collapsed : gset nat) (data : jsval) :
  vertical_mode o = false ->
  readable data = true ->
  string_topics data = true ->
  (auto_mode o = true -> schema_directions data = true) ->
  exists t,
    _renderInternal o measureText collapsed data = Ok (t, _drawTree collapsed t)
    /\ Forall (fun pc => (0 < depth (fst pc))%nat \/ known_center_edge o ->
                         horizontal_edge_ok o eo (_computeAdaptiveSpacing o t) pc)
              (drawnEdges collapsed t).
Proof.
  intros Hv Hr Hs Hdirs.
  destruct (renderInternal_total o measureText collapsed data Hr Hs)
    as (t0 & t2 & Hb & Hm & Hsz & Hrender).
  eexists. split; [exact Hrender|].
  rewrite spacing_layoutTree.
  destruct (pass_branches_ok o measureText data t0 t2 _ Hv Hdirs Hb Hm Hsz) as [Hd Hok].
  apply layoutTree_edges; assumption.
Qed.

(** X17.  In the horizontal modes, with [centerEdge] ['side'] or
    ['vertical'], for every readable input with string (or missing)
    topics (and, in auto mode, top-level directions that are absent,
    ['left'] or ['right']) and every collapse state: the pass succeeds, and
    every edge that is drawn ends on the near wall of the child, starts on
    the far wall of the parent (from the root with [centerEdge:
    'vertical'], on the root's vertical axis), and runs outwards exactly
    the gap of its level, the effective [branchSpacingX] from the root and
    the effective [subSpacingX] below, whatever the text measures. *)
Theorem horizontal_edges_span_gap (o : O.t) (eo : EdgeOptions.t)
    (measureText : string -> Q -> Q) (collapsed : gset nat) (data : jsval) :
  vertical_mode o = false ->
  O.centerEdge o = "side" \/ O.centerEdge o = "vertical" ->
  readable data = true ->
  string_topics data = true ->
  (auto_mode o = true -> schema_directions data = true) ->
  exists t,
    _renderInternal o measureText collapsed data = Ok (t, _drawTree collapsed t)
    /\ Forall (horizontal_edge_ok o eo (_computeAdaptiveSpacing o t))
              (drawnEdges collapsed t).
Proof.
  intros Hv Hce Hr Hs Hdirs.
  destruct (render_horizontal_edges o eo measureText collapsed data Hv Hr Hs Hdirs)
    as (t & Hrender & Hall).
  exists t. split; [exact Hrender|].
  eapply List.Forall_impl; [|exact Hall].
  intros pc Hpc. apply Hpc. right. exact Hce.
Qed.

Lemma horizontal_edges_span_gap_witness :
  exists t,
    _renderInternal DEFAULT_OPTIONS eight_per_char {[ 3%nat ]} sample_wide_root_deep
      = Ok (t, _drawTree {[ 3%nat ]} t)
    /\ Forall (horizontal_edge_ok DEFAULT_OPTIONS DEFAULT_EDGE_OPTIONS
                 (_computeAdaptiveSpacing DEFAULT_OPTIONS t))
              (drawnEdges {[ 3%nat ]} t).
Proof.
  apply (horizontal_edges_span_gap DEFAULT_OPTIONS DEFAULT_EDGE_OPTIONS eight_per_char
           {[ 3%nat ]} sample_wide_root_deep).
  - reflexivity.
  - left. reflexivity.
  - reflexivity.
  - reflexivity.
  - reflexivity.
Defined.

Lemma drawnEdges_children (collapsed : gset nat) (P : node -> Prop) (n : node) :
  Forall P (flat_map preorder (children n)) ->
  Forall (fun pc => P (snd pc)) (drawnEdges collapsed n).
Proof.
  induction n as [n IH] using node_tree_ind. intros H.
  rewrite drawnEdges_unfold.
  destruct (bool_decide (_id n ∈ collapsed)); [constructor|].
  apply Forall_flat_map in H. apply Forall_flat_map.
  rewrite List.Forall_forall in IH, H |- *. intros c Hc.
  specialize (H c Hc). rewrite preorder_unfold in H.
  apply Forall_cons_1 in H as [Hpc Hrest].
  constructor; [exact Hpc | apply (IH c Hc Hrest)].
Qed.

Lemma stroke_drawEdge (o : O.t) (eo : EdgeOptions.t) (p c : node) :
  stroke (_drawEdge o eo p c) = nodeColor o c.
Proof.
  unfold _drawEdge, _drawEdgeVertical.
  destruct (String.eqb (O.layout o) "down" || String.eqb (O.layout o) "up");
    [reflexivity|].
  cbv zeta. destruct (depth p =? 0)%nat; [destruct (String.eqb _ "vertical")|];
    reflexivity.
Qed.

Lemma built_colors_in_range (data : jsval) (t : node) (counter' : nat) :
  _buildTree data None (-1)%Z 0%nat 0%nat = Ok (t, counter') ->
  Forall (fun m => (0 <= colorIdx m < Z.of_nat (length DEFAULT_COLORS))%Z)
         (flat_map preorder (children t)).
Proof.
  intros H. destruct (buildTree_colors data t counter' H) as [_ Hc].
  apply Forall_flat_map. apply List.Forall_forall. intros c Hin.
  apply In_nth_error in Hin as [i Hi].
  eapply List.Forall_impl; [|apply (Hc i c Hi)].
  intros m ->. cbv beta.
  assert (i mod length DEFAULT_COLORS < length DEFAULT_COLORS)%nat
    by (apply Nat.mod_upper_bound; discriminate).
  lia.
Qed.

(** X18.  With a palette of at least ten colors (the length of the
    built-in palette), every edge that is drawn has a stroke color: for
    every readable input with string (or missing) topics, in every layout
    mode and collapse state, the color looked up for the child of each
    drawn edge is defined. *)
Theorem edges_have_a_color (o : O.t) (eo : EdgeOptions.t)
    (measureText : string -> Q -> Q) (collapsed : gset nat) (data : jsval) :
  (length DEFAULT_COLORS <= length (O.colors o))%nat ->
  readable data = true ->
  string_topics data = true ->
  exists t,
    _renderInternal o measureText collapsed data = Ok (t, _drawTree collapsed t)
    /\ Forall (fun pc => exists color,
                 stroke (_drawEdge o eo (fst pc) (snd pc)) = Some color)
              (drawnEdges collapsed t).
Proof.
  intros Hlen Hr Hs.
  destruct (renderInternal_total o measureText collapsed data Hr Hs)
    as (t0 & t2 & Hb & _ & Hsz & Hrender).
  eexists. split; [exact Hrender|].
  set (t := _layoutTree o (_computeAdaptiveSpacing o t2) collapsed t2).
  pose proof (proj_pass colorIdx ltac:(reflexivity) ltac:(reflexivity)
                ltac:(reflexivity) o measureText (_computeAdaptiveSpacing o t2)
                collapsed t0 t2 Hsz) as Hp.
  fold t in Hp. rewrite (preorder_unfold t0), (preorder_unfold t) in Hp.
  cbn [List.map] in Hp. injection Hp as _ Hp.
  pose proof (built_colors_in_range data t0 _ Hb) as Hrange.
  apply (Forall_map colorIdx
           (fun i => (0 <= i < Z.of_nat (length DEFAULT_COLORS))%Z)) in Hrange.
  rewrite <- Hp in Hrange.
  apply (Forall_map colorIdx
           (fun i => (0 <= i < Z.of_nat (length DEFAULT_COLORS))%Z)) in Hrange.
  apply (drawnEdges_children collapsed) in Hrange.
  eapply List.Forall_impl; [|exact Hrange].
  intros [p c] Hc. cbn [fst snd] in *. rewrite stroke_drawEdge. unfold nodeColor.
  destruct (Z.ltb_spec (colorIdx c) 0) as [Hneg | _]; [lia|].
  destruct (nth_error (O.colors o) (Z.to_nat (colorIdx c))) as [color|] eqn:E;
    [eauto|].
  apply nth_error_None in E. lia.
Qed.

Lemma edges_have_a_color_witness :
  exists t,
    _renderInternal DEFAULT_OPTIONS eight_per_char ∅ sample_four_branches
      = Ok (t, _drawTree ∅ t)
    /\ Forall (fun pc => exists color,
                 stroke (_drawEdge DEFAULT_OPTIONS DEFAULT_EDGE_OPTIONS (fst pc) (snd pc))
                 = Some color)
              (drawnEdges ∅ t).
Proof.
  apply (edges_have_a_color DEFAULT_OPTIONS DEFAULT_EDGE_OPTIONS eight_per_char ∅
           sample_four_branches).
  - apply le_n.
  - reflexivity.
  - reflexivity.
Defined.

(* ================================================================== *)
(** * Collapse buttons: where they sit                                  *)
(* ================================================================== *)

Lemma layoutTree_rows (o : O.t) (sp : Sp.t) (collapsed : gset nat) (root : node) :
  vertical_mode o = true ->
  Forall (row_aligned sp (if String.eqb (O.layout o) "down" then 1 else -1))
         (drawnEdges collapsed (_layoutTree o sp collapsed root)).
Proof.
  intros Hv. unfold vertical_mode in Hv.
  unfold _layoutTree, _layoutVerticalNode. cbv zeta. rewrite Hv.
  apply layoutVerticalAt_rows.
Qed.

Lemma toggle_vertical (o : O.t) (sp : Sp.t) (pc : node * node) :
  vertical_mode o = true ->
  row_aligned sp (if String.eqb (O.layout o) "down" then 1 else -1) pc ->
  toggle_in_gap o sp pc.
Proof.
  intros Hv Hrow. unfold toggle_in_gap, _drawCollapseBtn. rewrite Hv.
  unfold vertical_mode in Hv. rewrite orb_comm in Hv. rewrite Hv. cbv zeta.
  unfold row_aligned in Hrow. unfold bottom_edge, top_edge.
  destruct (String.eqb (O.layout o) "down");
    cbn [Circle.cx Circle.cy Circle.r]; (split; [reflexivity|]); split; qlra.
Qed.

Lemma toggle_horizontal (o : O.t) (eo : EdgeOptions.t) (sp : Sp.t) (pc : node * node) :
  vertical_mode o = false ->
  (0 < depth (fst pc))%nat ->
  horizontal_edge_ok o eo sp pc ->
  toggle_in_gap o sp pc.
Proof.
  intros Hv Hd (Hside & Hsame & Hedge). specialize (Hsame Hd).
  unfold toggle_in_gap, _drawCollapseBtn. rewrite Hv.
  unfold vertical_mode in Hv. rewrite orb_comm in Hv. rewrite Hv. cbv zeta.
  assert (Hd0 : (depth (fst pc) =? 0)%nat = false) by (apply Nat.eqb_neq; lia).
  unfold edge_gap in Hedge. cbv zeta in Hedge. rewrite Hd0 in Hedge.
  cbn [andb] in Hedge. rewrite Hsame.
  destruct Hside as [Hr | Hl].
  - rewrite Hr in Hedge |- *. rewrite (is_str_eq _ _ Hr).
    change (js_or (JStr "right") (JStr "right")) with (JStr "right").
    change (is_str (JStr "right") "right") with true. cbv iota.
    cbn [Circle.cx Circle.cy Circle.r]. split; [reflexivity|].
    unfold right_edge in *. destruct Hedge as (H2 & H1 & Hgap). split; qlra.
  - rewrite (left_not_right _ Hl) in Hedge |- *. rewrite (is_str_eq _ _ Hl).
    change (js_or (JStr "left") (JStr "right")) with (JStr "left").
    change (is_str (JStr "left") "right") with false. cbv iota.
    cbn [Circle.cx Circle.cy Circle.r]. split; [reflexivity|].
    unfold left_edge in *. destruct Hedge as (H2 & H1 & Hgap). split; qlra.
Qed.

(** X19.  The collapse button of a node sits in the gap between the node
    and its children: for every readable input with string (or missing)
    topics (and, in auto mode, top-level directions that are absent,
    ['left'] or ['right']), every layout mode and collapse state, and every
    drawn edge from a node below the root to a child, the button of the
    node is centered on the node's axis, starts one pixel beyond the
    node's far side and ends short of the child's near side by the level
    gap ([subSpacingX], in the vertical modes [verticalSpacingY]) less 17
    pixels; so it covers neither box when that gap is at least 17. *)
Theorem toggles_sit_in_the_gap (o : O.t) (measureText : string -> Q -> Q)
    (collapsed : gset nat) (data : jsval) :
  readable data = true ->
  string_topics data = true ->
  (auto_mode o = true -> schema_directions data = true) ->
  exists t,
    _renderInternal o measureText collapsed data = Ok (t, _drawTree collapsed t)
    /\ Forall (fun pc => (0 < depth (fst pc))%nat ->
                         toggle_in_gap o (_computeAdaptiveSpacing o t) pc)
              (drawnEdges collapsed t).
Proof.
  intros Hr Hs Hdirs. destruct (vertical_mode o) eqn:Hv.
  - destruct (renderInternal_total o measureText collapsed data Hr Hs)
      as (t0 & t2 & _ & _ & _ & Hrender).
    eexists. split; [exact Hrender|].
    rewrite spacing_layoutTree.
    eapply List.Forall_impl; [|apply (layoutTree_rows o _ collapsed t2 Hv)].
    intros pc Hrow _. apply toggle_vertical; assumption.
  - destruct (render_horizontal_edges o DEFAULT_EDGE_OPTIONS measureText collapsed data
                Hv Hr Hs Hdirs) as (t & Hrender & Hall).
    exists t. split; [exact Hrender|].
    eapply List.Forall_impl; [|exact Hall].
    intros pc Hpc Hd. apply (toggle_horizontal o DEFAULT_EDGE_OPTIONS); auto.
Qed.

Lemma toggles_sit_in_the_gap_witness :
  exists t,
    _renderInternal DEFAULT_OPTIONS eight_per_char {[ 3%nat ]} sample_wide_root_deep
      = Ok (t, _drawTree {[ 3%nat ]} t)
    /\ Forall (fun pc => (0 < depth (fst pc))%nat ->
                         toggle_in_gap DEFAULT_OPTIONS
                           (_computeAdaptiveSpacing DEFAULT_OPTIONS t) pc)
              (drawnEdges {[ 3%nat ]} t).
Proof.
  apply (toggles_sit_in_the_gap DEFAULT_OPTIONS eight_per_char {[ 3%nat ]}
           sample_wide_root_deep); reflexivity.
Defined.

(* ================================================================== *)
(** * Sides are sides                                                   *)
(* ================================================================== *)

Section SideOfAxis.
Variable sp : Sp.t.
Variable collapsed : gset nat.
Hypothesis Hsp : spacing_nonneg sp.

Lemma placed_on_side (eR eL : Q) (c : node) (ny : Q) (dir : string) :
  Sp.branchSpacingX sp <= eR -> eL <= - Sp.branchSpacingX sp ->
  sized c -> branch_ok c ->
  is_str (direction c) dir = true ->
  (dir = "right" \/ dir = "left") ->
  Forall (side_ok sp)
    (_layoutNode sp collapsed c (if String.eqb dir "right" then eR else eL) ny dir
       :: _drawSubtree collapsed
            (_layoutNode sp collapsed c (if String.eqb dir "right" then eR else eL) ny dir)).
Proof.
  intros HeR HeL Hsz Hok Hdir Hlit.
  set (a := if String.eqb dir "right" then eR else eL).
  destruct (layoutNode_region sp collapsed Hsp c Hsz a ny dir) as [Hreg _].
  destruct (branch_ok_layoutNode sp collapsed c a ny dir Hok) as [_ Huni].
  destruct (layoutNode_box sp collapsed c a ny dir) as (_ & _ & _ & _ & _ & Hd).
  cbv zeta in Hd. rewrite Hd, (is_str_eq _ _ Hdir) in Huni.
  set (c' := _layoutNode sp collapsed c a ny dir) in *. clearbody c'.
  rewrite List.Forall_forall in Hreg, Huni |- *. intros b Hb.
  destruct (Hreg b Hb) as [Hbeyond _].
  destruct (Huni b (drawTree_in_preorder collapsed c' b Hb)) as [Hdb _].
  unfold side_ok, beyond in *. rewrite Hdb. unfold a in Hbeyond.
  destruct Hlit as [-> | ->]; cbn [is_str].
  - change (String.eqb "right" "right") with true in *.
    change (String.eqb "right" "left") with false.
    cbv iota in Hbeyond. clear Hreg Huni. unfold left_edge in *.
    split; intros H; [qlra | discriminate].
  - change (String.eqb "left" "right") with false in *.
    change (String.eqb "left" "left") with true.
    cbv iota in Hbeyond. clear Hreg Huni. unfold right_edge in *.
    split; intros H; [discriminate | qlra].
Qed.

Lemma two_sides_sides (eR eL : Q) (cs : list node) :
  Sp.branchSpacingX sp <= eR -> eL <= - Sp.branchSpacingX sp ->
  Forall sized cs -> Forall branch_ok cs ->
  forall yR yL,
    let hsR := List.map (_subtreeHeight sp collapsed)
                 (List.filter (fun c => is_str (direction c) "right") cs) in
    let hsL := List.map (_subtreeHeight sp collapsed)
                 (List.filter (fun c => is_str (direction c) "left") cs) in
    Forall (side_ok sp)
      (drawn_below collapsed
         (layoutBranches sp collapsed "left" eL
            (layoutBranches sp collapsed "right" eR cs hsR yR) hsL yL)).
Proof.
  intros HeR HeL Hsz Hok. induction Hok as [|c cs Hc _ IH]; intros yR yL; [constructor|].
  apply Forall_cons_1 in Hsz as [Hszc Hszcs]. specialize (IH Hszcs).
  cbv zeta. destruct (proj1 Hc) as [Hr | Hl].
  - pose proof (right_not_left _ Hr) as Hnl.
    cbn [List.filter]. rewrite Hr, Hnl. cbn [List.map].
    rewrite (layoutBranches_hit sp collapsed "right") by exact Hr.
    rewrite (layoutBranches_miss sp collapsed "left")
      by (rewrite (proj2 (proj2 (proj2 (proj2 (proj2
                    (layoutNode_box sp collapsed c eR
                       (yR + _subtreeHeight sp collapsed c / 2) "right"))))));
          exact Hnl).
    rewrite drawn_below_cons. apply Forall_app. split; [|apply IH].
    apply (placed_on_side eR eL c _ "right"); auto.
  - pose proof (left_not_right _ Hl) as Hnr.
    cbn [List.filter]. rewrite Hl, Hnr. cbn [List.map].
    rewrite (layoutBranches_miss sp collapsed "right") by exact Hnr.
    rewrite (layoutBranches_hit sp collapsed "left") by exact Hl.
    rewrite drawn_below_cons. apply Forall_app. split; [|apply IH].
    apply (placed_on_side eR eL c _ "left"); auto.
Qed.

Lemma layoutTree_sides (o : O.t) (root : node) :
  vertical_mode o = false ->
  sized root ->
  Forall branch_ok (children root) ->
  Forall (side_ok sp) (_drawSubtree collapsed (_layoutTree o sp collapsed root)).
Proof.
  intros Hv Hsz Hok.
  destruct (layoutTree_horizontal o sp collapsed root Hv) as (_ & _ & _ & _ & _ & Hch).
  cbv zeta in Hch.
  rewrite drawSubtree_eq.
  destruct (bool_decide (_id (_layoutTree o sp collapsed root) ∈ collapsed));
    [constructor|].
  rewrite Hch.
  destruct (sized_inv root Hsz) as (Hw & _ & Hszcs).
  destruct Hsp as (Hb & _).
  apply two_sides_sides; try assumption; unfold side_edge.
  - change (String.eqb "right" "right") with true. cbv iota.
    destruct (String.eqb (O.centerEdge o) "side"); qlra.
  - change (String.eqb "left" "right") with false. cbv iota.
    destruct (String.eqb (O.centerEdge o) "side"); qlra.
Qed.
End SideOfAxis.

(** X20.  Sides are sides: under a valid configuration, in the modes
    [auto], [left] and [right], for every readable input with string (or
    missing) topics (and, in auto mode, top-level directions that are
    absent, ['left'] or ['right']) and every collapse state, every drawn
    node below the root whose direction is ['right'] lies to the right of
    the root's axis, at least the effective branch gap away, and every one
    whose direction is ['left'] lies as far to the left. *)
Theorem sides_are_sides (o : O.t) (measureText : string -> Q -> Q)
    (collapsed : gset nat) (data : jsval) :
  valid_config o ->
  vertical_mode o = false ->
  readable data = true ->
  string_topics data = true ->
  (auto_mode o = true -> schema_directions data = true) ->
  exists t,
    _renderInternal o measureText collapsed data = Ok (t, _drawTree collapsed t)
    /\ 0 <= Sp.branchSpacingX (_computeAdaptiveSpacing o t)
    /\ Forall (side_ok (_computeAdaptiveSpacing o t)) (_drawSubtree collapsed t).
Proof.
  intros Hvc Hv Hr Hs Hdirs.
  destruct (renderInternal_total o measureText collapsed data Hr Hs)
    as (t0 & t2 & Hb & Hm & Hsz & Hrender).
  eexists. split; [exact Hrender|].
  rewrite spacing_layoutTree.
  pose proof (computeAdaptiveSpacing_nonneg o t2 Hvc) as Hsp.
  pose proof (computeSizes_sized o measureText _ Hvc t2 Hsz) as Hsized.
  destruct (pass_branches_ok o measureText data t0 t2 _ Hv Hdirs Hb Hm Hsz) as [_ Hok].
  split; [apply Hsp|].
  apply layoutTree_sides; assumption.
Qed.

Lemma sides_are_sides_witness :
  exists t,
    _renderInternal DEFAULT_OPTIONS eight_per_char {[ 1%nat ]} sample_four_branches
      = Ok (t, _drawTree {[ 1%nat ]} t)
    /\ 0 <= Sp.branchSpacingX (_computeAdaptiveSpacing DEFAULT_OPTIONS t)
    /\ Forall (side_ok (_computeAdaptiveSpacing DEFAULT_OPTIONS t))
              (_drawSubtree {[ 1%nat ]} t).
Proof.
  apply (sides_are_sides DEFAULT_OPTIONS eight_per_char {[ 1%nat ]} sample_four_branches).
  - exact DEFAULT_OPTIONS_valid.
  - reflexivity.
  - reflexivity.
  - reflexivity.
  - reflexivity.
Defined.

(* ================================================================== *)
(** * Collapsing never shifts a column                                  *)
(* ================================================================== *)

Section Columns.
Variable sp : Sp.t.
Variables c1 c2 : gset nat.

Lemma layoutChildren_lookup (collapsed : gset nat) (na : Q) (dir : string)
    (cs : list node) :
  forall cy i ch',
  layoutChildren sp collapsed na dir cs
    (List.map (_subtreeHeight sp collapsed) cs) cy !! i = Some ch' ->
  exists ch y0, cs !! i = Some ch /\ ch' = _layoutNode sp collapsed ch na y0 dir.
Proof.
  induction cs as [|c cs IH]; intros cy i ch' H; [discriminate|].
  cbn [List.map layoutChildren] in H. destruct i as [|i].
  - injection H as <-. eauto.
  - cbn [lookup list_lookup] in H. apply IH in H as (ch & y0 & H1 & H2).
    exists ch, y0. split; [exact H1 | exact H2].
Qed.

Lemma visible_step (collapsed : gset nat) (i : nat) (p : list nat) (n : node) :
  visible_path collapsed (i :: p) n = true ->
  childless_or_collapsed collapsed n = false
  /\ exists ch, children n !! i = Some ch /\ visible_path collapsed p ch = true.
Proof.
  cbn [visible_path]. intros H. apply andb_true_iff in H as [Hc H].
  apply negb_true_iff in Hc.
  destruct (children n !! i) as [ch|] eqn:Hi; [|discriminate].
  split; [|eauto]. unfold childless_or_collapsed. rewrite Hc, orb_false_r.
  destruct (children n); [discriminate | reflexivity].
Qed.

Lemma layoutNode_children (collapsed : gset nat) (n : node) (a ny : Q) (dir : string) :
  childless_or_collapsed collapsed (_layoutNode sp collapsed n a ny dir) = false ->
  childless_or_collapsed collapsed n = false
  /\ children (_layoutNode sp collapsed n a ny dir)
     = layoutChildren sp collapsed
         (if String.eqb dir "right"
          then (if String.eqb dir "right" then a + width n / 2 else a - width n / 2)
               + width n / 2 + Sp.subSpacingX sp
          else (if String.eqb dir "right" then a + width n / 2 else a - width n / 2)
               - width n / 2 - Sp.subSpacingX sp)
         dir (children n) (List.map (_subtreeHeight sp collapsed) (children n))
         (ny - sum (List.map (_subtreeHeight sp collapsed) (children n)) / 2).
Proof.
  rewrite layoutNode_eq. cbv zeta.
  destruct (childless_or_collapsed collapsed n) eqn:E.
  - assert (E' : childless_or_collapsed collapsed
                   (set_xy n (if String.eqb dir "right" then a + width n / 2
                              else a - width n / 2) ny)
                 = childless_or_collapsed collapsed n) by (destruct n; reflexivity).
    rewrite E', E. discriminate.
  - intros _. split; [reflexivity|]. apply children_set_children.
Qed.

Lemma layoutNode_x_stable (n : node) :
  forall a y1 y2 dir,
  agree_where_shown x c1 c2 (_layoutNode sp c1 n a y1 dir) (_layoutNode sp c2 n a y2 dir).
Proof.
  induction n as [n IH] using node_tree_ind. intros a y1 y2 dir path.
  destruct path as [|i p]; intros m1 m2 H1 H2 V1 V2.
  - injection H1 as <-. injection H2 as <-.
    rewrite (proj1 (layoutNode_box sp c1 n a y1 dir)),
      (proj1 (layoutNode_box sp c2 n a y2 dir)). reflexivity.
  - apply visible_step in V1 as (E1 & ch1 & L1 & V1).
    apply visible_step in V2 as (E2 & ch2 & L2 & V2).
    cbn [node_at] in H1, H2. rewrite L1 in H1. rewrite L2 in H2.
    apply layoutNode_children in E1 as [_ C1].
    apply layoutNode_children in E2 as [_ C2].
    rewrite C1 in L1. rewrite C2 in L2.
    apply layoutChildren_lookup in L1 as (ch & z1 & Hch & ->).
    apply layoutChildren_lookup in L2 as (ch' & z2 & Hch' & ->).
    rewrite Hch in Hch'. injection Hch' as <-.
    rewrite List.Forall_forall in IH.
    assert (Hin : In ch (children n))
      by (apply list_elem_of_In; eapply list_elem_of_lookup_2, Hch).
    exact (IH ch Hin _ z1 z2 dir p m1 m2 H1 H2 V1 V2).
Qed.

Lemma agree_same (f : node -> Q) (n : node) : agree_where_shown f c1 c2 n n.
Proof. intros p m1 m2 H1 H2 _ _. rewrite H1 in H2. injection H2 as <-. reflexivity. Qed.

Lemma two_sides_stable (eR eL : Q) (cs : list node) :
  forall yR1 yL1 yR2 yL2,
  Forall2 (agree_where_shown x c1 c2)
    (layoutBranches sp c1 "left" eL
       (layoutBranches sp c1 "right" eR cs
          (List.map (_subtreeHeight sp c1)
             (List.filter (fun c => is_str (direction c) "right") cs)) yR1)
       (List.map (_subtreeHeight sp c1)
          (List.filter (fun c => is_str (direction c) "left") cs)) yL1)
    (layoutBranches sp c2 "left" eL
       (layoutBranches sp c2 "right" eR cs
          (List.map (_subtreeHeight sp c2)
             (List.filter (fun c => is_str (direction c) "right") cs)) yR2)
       (List.map (_subtreeHeight sp c2)
          (List.filter (fun c => is_str (direction c) "left") cs)) yL2).
Proof.
  induction cs as [|c cs IH]; intros yR1 yL1 yR2 yL2; [constructor|].
  destruct (is_str (direction c) "right") eqn:Hr.
  - pose proof (right_not_left _ Hr) as Hnl.
    cbn [List.filter]. rewrite Hr, Hnl. cbn [List.map].
    rewrite !(layoutBranches_hit _ _ "right") by exact Hr.
    rewrite (layoutBranches_miss sp c1 "left"), (layoutBranches_miss sp c2 "left").
    + constructor; [apply layoutNode_x_stable | apply IH].
    + rewrite (proj2 (proj2 (proj2 (proj2 (proj2
                 (layoutNode_box sp c2 c eR
                    (yR2 + _subtreeHeight sp c2 c / 2) "right")))))). exact Hnl.
    + rewrite (proj2 (proj2 (proj2 (proj2 (proj2
                 (layoutNode_box sp c1 c eR
                    (yR1 + _subtreeHeight sp c1 c / 2) "right")))))). exact Hnl.
  - cbn [List.filter]. rewrite Hr.
    rewrite !(layoutBranches_miss _ _ "right") by exact Hr.
    destruct (is_str (direction c) "left") eqn:Hl.
    + cbn [List.map]. rewrite !(layoutBranches_hit _ _ "left") by exact Hl.
      constructor; [apply layoutNode_x_stable | apply IH].
    + rewrite !(layoutBranches_miss _ _ "left") by exact Hl.
      constructor; [apply agree_same | apply IH].
Qed.

Lemma layoutVerticalChildren_lookup (collapsed : gset nat) (edgeY sign : Q)
    (cs : list node) :
  forall cx i ch',
  layoutVerticalChildren sp collapsed edgeY sign cs
    (List.map (_subtreeWidth sp collapsed) cs) cx !! i = Some ch' ->
  exists ch x0, cs !! i = Some ch
    /\ ch' = layoutVerticalAt sp collapsed ch x0 (edgeY + sign * height ch / 2) sign.
Proof.
  induction cs as [|c cs IH]; intros cx i ch' H; [discriminate|].
  cbn [List.map layoutVerticalChildren] in H. destruct i as [|i].
  - injection H as <-. eauto.
  - cbn [lookup list_lookup] in H. apply IH in H as (ch & x0 & H1 & H2).
    exists ch, x0. split; [exact H1 | exact H2].
Qed.

Lemma layoutVerticalAt_children (collapsed : gset nat) (n : node) (nx ny sign : Q) :
  childless_or_collapsed collapsed (layoutVerticalAt sp collapsed n nx ny sign) = false ->
  children (layoutVerticalAt sp collapsed n nx ny sign)
  = layoutVerticalChildren sp collapsed
      (ny + sign * (height n / 2 + Sp.verticalSpacingY sp)) sign (children n)
      (List.map (_subtreeWidth sp collapsed) (children n))
      (nx - sum (List.map (_subtreeWidth sp collapsed) (children n)) / 2).
Proof.
  rewrite layoutVerticalAt_eq. cbv zeta.
  destruct (childless_or_collapsed collapsed n) eqn:E.
  - assert (E' : childless_or_collapsed collapsed (set_xy n nx ny)
                 = childless_or_collapsed collapsed n) by (destruct n; reflexivity).
    rewrite E', E. discriminate.
  - intros _. apply children_set_children.
Qed.

Lemma layoutVerticalAt_y_stable (n : node) :
  forall x1 x2 ny sign,
  agree_where_shown y c1 c2 (layoutVerticalAt sp c1 n x1 ny sign)
                            (layoutVerticalAt sp c2 n x2 ny sign).
Proof.
  induction n as [n IH] using node_tree_ind. intros x1 x2 ny sign path.
  destruct path as [|i p]; intros m1 m2 H1 H2 V1 V2.
  - injection H1 as <-. injection H2 as <-.
    rewrite (proj1 (proj2 (layoutVerticalAt_box sp c1 n x1 ny sign))),
      (proj1 (proj2 (layoutVerticalAt_box sp c2 n x2 ny sign))). reflexivity.
  - apply visible_step in V1 as (E1 & ch1 & L1 & V1).
    apply visible_step in V2 as (E2 & ch2 & L2 & V2).
    cbn [node_at] in H1, H2. rewrite L1 in H1. rewrite L2 in H2.
    apply layoutVerticalAt_children in E1. apply layoutVerticalAt_children in E2.
    rewrite E1 in L1. rewrite E2 in L2.
    apply layoutVerticalChildren_lookup in L1 as (ch & z1 & Hch & ->).
    apply layoutVerticalChildren_lookup in L2 as (ch' & z2 & Hch' & ->).
    rewrite Hch in Hch'. injection Hch' as <-.
    rewrite List.Forall_forall in IH.
    assert (Hin : In ch (children n))
      by (apply list_elem_of_In; eapply list_elem_of_lookup_2, Hch).
    exact (IH ch Hin z1 z2 _ sign p m1 m2 H1 H2 V1 V2).
Qed.

Lemma layoutTree_levels_stable (o : O.t) (root : node) :
  agree_where_shown (if vertical_mode o then y else x) c1 c2
    (_layoutTree o sp c1 root) (_layoutTree o sp c2 root).
Proof.
  destruct (vertical_mode o) eqn:Hv.
  - unfold vertical_mode in Hv. unfold _layoutTree, _layoutVerticalNode.
    cbv zeta. rewrite Hv. apply layoutVerticalAt_y_stable.
  - intros path. destruct path as [|i p]; intros m1 m2 H1 H2 V1 V2.
    + injection H1 as <-. injection H2 as <-.
      rewrite (proj1 (layoutTree_origin sp c1 o root)),
        (proj1 (layoutTree_origin sp c2 o root)). reflexivity.
    + apply visible_step in V1 as (_ & ch1 & L1 & V1).
      apply visible_step in V2 as (_ & ch2 & L2 & V2).
      cbn [node_at] in H1, H2. rewrite L1 in H1. rewrite L2 in H2.
      destruct (layoutTree_horizontal o sp c1 root Hv) as (_ & _ & _ & _ & _ & C1).
      destruct (layoutTree_horizontal o sp c2 root Hv) as (_ & _ & _ & _ & _ & C2).
      cbv zeta in C1, C2. rewrite C1 in L1. rewrite C2 in L2.
      exact (Forall2_lookup_lr _ _ _ _ _ _
               (two_sides_stable _ _ (children root) _ _ _ _) L1 L2
               p m1 m2 H1 H2 V1 V2).
Qed.
End Columns.

(** X21.  Collapsing and expanding never shift a level: for any two
    collapse states, every node that is shown under both has the same [x]
    after [_layoutTree] in the modes [auto], [left] and [right] (columns
    stay where they are; only [y] changes), and the same [y] in the modes
    [down] and [up] (rows stay; only [x] changes), whatever the sizes and
    gaps. *)
Theorem collapsing_keeps_levels (o : O.t) (sp : Sp.t) (c1 c2 : gset nat) (root : node) :
  agree_where_shown (if vertical_mode o then y else x) c1 c2
    (_layoutTree o sp c1 root) (_layoutTree o sp c2 root).
Proof. apply layoutTree_levels_stable. Qed.

Lemma collapsing_keeps_levels_witness :
  exists m1 m2,
    node_at [0%nat; 1%nat] (_layoutTree DEFAULT_OPTIONS sample_spacing ∅ sample_two_sides)
      = Some m1
    /\ node_at [0%nat; 1%nat]
         (_layoutTree DEFAULT_OPTIONS sample_spacing {[ 4%nat ]} sample_two_sides)
       = Some m2
    /\ x m1 = x m2.
Proof.
  eexists _, _. split; [reflexivity|]. split; [reflexivity|].
  apply (collapsing_keeps_levels DEFAULT_OPTIONS sample_spacing ∅ {[ 4%nat ]}
           sample_two_sides [0%nat; 1%nat]); reflexivity.
Defined.

(* ================================================================== *)
(** * Pan and zoom                                                      *)
(* ================================================================== *)

Lemma zoomAbout_ok (vo : ViewOptions.t) (pz : PZ.t) (mx my factor : Q) :
  ~ PZ.scale pz == 0 ->
  exists pz', zoomAbout vo pz mx my factor = Moved pz'
              /\ zoomed_about vo pz pz' mx my factor.
Proof.
  intros Hs. unfold zoomAbout.
  destruct (Qeq_bool (PZ.scale pz) 0) eqn:E; [apply Qeq_bool_iff in E; tauto|].
  eexists. split; [reflexivity|]. unfold zoomed_about. cbn [PZ.scale PZ.tx PZ.ty].
  set (ns := Math_min _ _).
  assert (Hmax : ns <= ViewOptions.maxZoom vo) by apply Math_min_spec.
  split; [reflexivity|]. split; [exact Hmax|]. split.
  - intros Hlim. unfold ns.
    pose proof (Math_max_spec (ViewOptions.minZoom vo) (PZ.scale pz * factor))
      as (Hlo & _ & _).
    destruct (Math_min_spec (ViewOptions.maxZoom vo)
                (Math_max (ViewOptions.minZoom vo) (PZ.scale pz * factor)))
      as (_ & _ & [-> | ->]); assumption.
  - intros cx cy Hx Hy.
    assert (Hx' : mx - PZ.tx pz == PZ.scale pz * cx) by lra.
    assert (Hy' : my - PZ.ty pz == PZ.scale pz * cy) by lra.
    rewrite Hx', Hy'. split; field; exact Hs.
Qed.

(** X22.  Zooming with the HUD buttons or the mouse wheel keeps the scale
    within the zoom limits (never above [maxZoom], and not below
    [minZoom] when the limits are in order) and keeps the anchor fixed:
    the content shown at the middle of the container (HUD) or under the
    pointer (wheel) is still shown there afterwards.  This needs the
    current scale to be non-zero. *)
Theorem zoom_keeps_anchor (vo : ViewOptions.t) (pz : PZ.t)
    (clientWidth clientHeight mx my factor deltaY : Q) :
  ~ PZ.scale pz == 0 ->
  (exists pz', _hudZoom vo clientWidth clientHeight pz factor = Moved pz'
               /\ zoomed_about vo pz pz' (clientWidth / 2) (clientHeight / 2) factor)
  /\ (exists pz', wheel vo pz mx my deltaY = Moved pz'
                  /\ zoomed_about vo pz pz' mx my
                       (1 + (if Qlt_le_dec deltaY 0 then 1 else -1)
                            * ViewOptions.zoomSensitivity vo)).
Proof.
  intros Hs. split; [unfold _hudZoom | unfold wheel]; apply zoomAbout_ok, Hs.
Qed.

Lemma zoom_keeps_anchor_witness :
  (exists pz', _hudZoom DEFAULT_VIEW_OPTIONS 800 600 sample_view (125 # 100) = Moved pz'
               /\ zoomed_about DEFAULT_VIEW_OPTIONS sample_view pz' (800 / 2) (600 / 2)
                    (125 # 100))
  /\ (exists pz', wheel DEFAULT_VIEW_OPTIONS sample_view 100 50 (-3) = Moved pz'
                  /\ zoomed_about DEFAULT_VIEW_OPTIONS sample_view pz' 100 50
                       (1 + (if Qlt_le_dec (-3) 0 then 1 else -1)
                            * ViewOptions.zoomSensitivity DEFAULT_VIEW_OPTIONS)).
Proof.
  apply (zoom_keeps_anchor DEFAULT_VIEW_OPTIONS sample_view 800 600 100 50
           (125 # 100) (-3)).
  discriminate.
Defined.

(** X23.  [fit], given a bounding box of positive width and height, sets
    a view whose scale is at most 1.4, under which the center of the box
    is shown at the center of the container and the scaled box is no
    larger than the container less the padding on both sides, in width
    and in height.  Without a bounding box, or with one of width 0, it
    leaves the view as it is. *)
Theorem fit_centres_content (vo : ViewOptions.t) (clientWidth clientHeight : Q)
    (bbox : BBox.t) :
  (0 < BBox.width bbox -> 0 < BBox.height bbox ->
   exists pz',
     fit vo clientWidth clientHeight (Some bbox) = Moved pz'
     /\ PZ.scale pz' <= 14 # 10
     /\ clientWidth / 2
        == PZ.tx pz' + PZ.scale pz' * (BBox.x bbox + BBox.width bbox / 2)
     /\ clientHeight / 2
        == PZ.ty pz' + PZ.scale pz' * (BBox.y bbox + BBox.height bbox / 2)
     /\ PZ.scale pz' * BBox.width bbox <= clientWidth - ViewOptions.fitPadding vo * 2
     /\ PZ.scale pz' * BBox.height bbox <= clientHeight - ViewOptions.fitPadding vo * 2)
  /\ fit vo clientWidth clientHeight None = Unchanged
  /\ (BBox.width bbox == 0 -> fit vo clientWidth clientHeight (Some bbox) = Unchanged).
Proof.
  split; [|split; [reflexivity|]].
  - intros Hw Hh. unfold fit.
    destruct (Qeq_bool (BBox.width bbox) 0) eqn:Ew;
      [apply Qeq_bool_iff in Ew; lra|].
    destruct (Qeq_bool (BBox.height bbox) 0) eqn:Eh;
      [apply Qeq_bool_iff in Eh; lra|].
    cbv zeta. eexists. split; [reflexivity|]. cbn [PZ.scale PZ.tx PZ.ty].
    set (p := ViewOptions.fitPadding vo).
    set (sx := (clientWidth - p * 2) / BBox.width bbox).
    set (sy := (clientHeight - p * 2) / BBox.height bbox).
    set (s := Math_min (Math_min sx sy) (14 # 10)).
    pose proof (Math_min_spec (Math_min sx sy) (14 # 10)) as (H1 & H2 & _).
    pose proof (Math_min_spec sx sy) as (H3 & H4 & _).
    fold s in H1, H2.
    assert (Hsx : sx * BBox.width bbox == clientWidth - p * 2)
      by (unfold sx; field; lra).
    assert (Hsy : sy * BBox.height bbox == clientHeight - p * 2)
      by (unfold sy; field; lra).
    split; [exact H2|]. split; [qlra|]. split; [qlra|]. split.
    + rewrite <- Hsx. apply Qmult_le_compat_r; lra.
    + rewrite <- Hsy. apply Qmult_le_compat_r; lra.
  - intros Hw. unfold fit. apply Qeq_bool_iff in Hw. rewrite Hw. reflexivity.
Qed.

Lemma fit_centres_content_witness :
  exists pz',
    fit DEFAULT_VIEW_OPTIONS 800 600 (Some sample_bbox) = Moved pz'
    /\ PZ.scale pz' <= 14 # 10
    /\ 800 / 2 == PZ.tx pz' + PZ.scale pz' * (BBox.x sample_bbox + BBox.width sample_bbox / 2)
    /\ 600 / 2 == PZ.ty pz' + PZ.scale pz' * (BBox.y sample_bbox + BBox.height sample_bbox / 2)
    /\ PZ.scale pz' * BBox.width sample_bbox
       <= 800 - ViewOptions.fitPadding DEFAULT_VIEW_OPTIONS * 2
    /\ PZ.scale pz' * BBox.height sample_bbox
       <= 600 - ViewOptions.fitPadding DEFAULT_VIEW_OPTIONS * 2.
Proof.
  apply (proj1 (fit_centres_content DEFAULT_VIEW_OPTIONS 800 600 sample_bbox));
    reflexivity.
Defined.

(* ================================================================== *)
(** * Text wrapping: nothing is lost                                    *)
(* ================================================================== *)

Lemma append_nil_r (s : string) : s +:+ "" = s.
Proof.
  induction s as [|c s IH]; [reflexivity|].
  change (String c (s +:+ "") = String c s). f_equal. exact IH.
Qed.

Lemma append_cons (x : ascii) (a b : string) : String x a +:+ b = String x (a +:+ b).
Proof. reflexivity. Qed.

Lemma append_assoc (a b c : string) : (a +:+ b) +:+ c = a +:+ (b +:+ c).
Proof.
  induction a as [|x a IH]; [reflexivity|].
  rewrite !append_cons. f_equal. exact IH.
Qed.

Lemma strip_app (a b : string) : strip (a +:+ b) = strip a +:+ strip b.
Proof.
  induction a as [|x a IH]; [reflexivity|].
  rewrite append_cons. cbn [strip].
  destruct (is_ws x); [exact IH | rewrite append_cons; f_equal; exact IH].
Qed.

Lemma strip_cons (c : ascii) (s : string) :
  strip (String c s) = strip (String c "") +:+ strip s.
Proof. change (String c s) with (String c "" +:+ s). apply strip_app. Qed.

Lemma squeeze_app (a b : list string) : squeeze (a ++ b) = squeeze a +:+ squeeze b.
Proof.
  induction a as [|l a IH]; simpl; [reflexivity|].
  rewrite IH, append_assoc. reflexivity.
Qed.

Lemma squeeze_push (ls : list string) (s : string) :
  squeeze (push ls s) = squeeze ls +:+ strip s.
Proof.
  unfold push. rewrite squeeze_app. cbn [squeeze]. rewrite append_nil_r. reflexivity.
Qed.

Lemma squeeze_push_nonempty (ls : list string) (s : string) :
  squeeze (if nonempty s then push ls s else ls) = squeeze ls +:+ strip s.
Proof.
  destruct (nonempty s) eqn:E; [apply squeeze_push|].
  apply nonempty_false in E. subst. simpl. rewrite append_nil_r. reflexivity.
Qed.

Lemma squeeze_filter_nonempty (ls : list string) :
  squeeze (List.filter nonempty ls) = squeeze ls.
Proof.
  induction ls as [|l ls IH]; [reflexivity|].
  simpl. destruct (nonempty l) eqn:E; simpl; rewrite IH; [reflexivity|].
  apply nonempty_false in E. subst. reflexivity.
Qed.

Lemma squeeze_split_go (s field : string) (prev : bool) :
  (prev = true -> field = "") ->
  squeeze (split_go field prev s) = strip field +:+ strip s.
Proof.
  revert field prev. induction s as [|c s IH]; intros field prev Hp.
  - simpl. reflexivity.
  - cbn [split_go strip]. destruct (is_ws c) eqn:Ec.
    + destruct prev.
      * rewrite (Hp eq_refl). apply (IH "" true). reflexivity.
      * cbn [squeeze]. rewrite (IH "" true) by reflexivity. reflexivity.
    + rewrite IH by discriminate. rewrite strip_app, append_assoc.
      cbn [strip]. rewrite Ec. reflexivity.
Qed.

Section WrapContent.
Variable maxPx : Q.
Variable measureFn : string -> Q.

Lemma breakWord_loop_content (rest : string) :
  forall chunks chunk,
  squeeze (fst (breakWord_loop maxPx measureFn rest chunks chunk))
    +:+ strip (snd (breakWord_loop maxPx measureFn rest chunks chunk))
  = squeeze chunks +:+ (strip chunk +:+ strip rest).
Proof.
  induction rest as [|c rest IH]; intros chunks chunk.
  - simpl. rewrite append_nil_r. reflexivity.
  - cbn [breakWord_loop]. cbv zeta.
    destruct (Qle_bool (measureFn (chunk +:+ String c "")) maxPx);
      rewrite IH, (strip_cons c rest).
    + rewrite strip_app, append_assoc. reflexivity.
    + rewrite squeeze_push_nonempty, !append_assoc. reflexivity.
Qed.

Lemma breakWord_content (word : string) :
  squeeze (breakWord maxPx measureFn word) = strip word.
Proof.
  unfold breakWord.
  pose proof (breakWord_loop_content word [] "") as H.
  destruct (breakWord_loop maxPx measureFn word [] "") as [chunks chunk].
  cbn [fst snd squeeze strip String.append] in H.
  rewrite <- squeeze_push_nonempty in H.
  destruct (0 <? length (if nonempty chunk then push chunks chunk else chunks))%nat eqn:E;
    [exact H|].
  apply Nat.ltb_ge in E.
  destruct (if nonempty chunk then push chunks chunk else chunks); [|simpl in E; lia].
  simpl in H. simpl. rewrite append_nil_r. reflexivity.
Qed.

Lemma wrap_part_content (st : list string * string) (part : string) :
  squeeze (fst (wrap_part maxPx measureFn st part))
    +:+ strip (snd (wrap_part maxPx measureFn st part))
  = (squeeze (fst st) +:+ strip (snd st)) +:+ strip part.
Proof.
  destruct st as [ls current]. unfold wrap_part. cbn [fst snd].
  destruct (Qle_bool _ maxPx); cbn [fst snd].
  - destruct (nonempty current) eqn:E.
    + rewrite !strip_app. simpl. rewrite append_assoc. reflexivity.
    + apply nonempty_false in E. subst. simpl. rewrite append_nil_r. reflexivity.
  - rewrite squeeze_push_nonempty. reflexivity.
Qed.

Lemma wrap_parts_content (parts : list string) :
  forall st,
  squeeze (fst (fold_left (wrap_part maxPx measureFn) parts st))
    +:+ strip (snd (fold_left (wrap_part maxPx measureFn) parts st))
  = (squeeze (fst st) +:+ strip (snd st)) +:+ squeeze parts.
Proof.
  induction parts as [|p parts IH]; intros st.
  - simpl. rewrite append_nil_r. reflexivity.
  - cbn [fold_left squeeze]. rewrite IH, wrap_part_content, append_assoc. reflexivity.
Qed.

Lemma wrap_words_content (words : list string) :
  forall st,
  squeeze (fst (fold_left (wrap_word maxPx measureFn) words st))
    +:+ strip (snd (fold_left (wrap_word maxPx measureFn) words st))
  = (squeeze (fst st) +:+ strip (snd st)) +:+ squeeze words.
Proof.
  induction words as [|w words IH]; intros st.
  - simpl. rewrite append_nil_r. reflexivity.
  - cbn [fold_left squeeze]. rewrite IH. unfold wrap_word.
    rewrite wrap_parts_content.
    assert (E : squeeze (if Qgt_bool (measureFn w) maxPx
                         then breakWord maxPx measureFn w else [w]) = strip w).
    { destruct (Qgt_bool (measureFn w) maxPx); [apply breakWord_content|].
      simpl. apply append_nil_r. }
    rewrite E, append_assoc. reflexivity.
Qed.

Lemma wrapText_content (text : string) :
  squeeze (wrapText maxPx measureFn text) = strip text.
Proof.
  assert (Hw : squeeze (List.filter nonempty (split_ws text)) = strip text).
  { rewrite squeeze_filter_nonempty. unfold split_ws.
    rewrite squeeze_split_go by discriminate. reflexivity. }
  unfold wrapText.
  destruct (length (List.filter nonempty (split_ws text)) =? 0)%nat eqn:E.
  - apply Nat.eqb_eq in E.
    destruct (List.filter nonempty (split_ws text)); [|discriminate].
    simpl in Hw. rewrite <- Hw. reflexivity.
  - pose proof (wrap_words_content (List.filter nonempty (split_ws text)) ([], "")) as H.
    destruct (fold_left _ _ _) as [ls current].
    cbn [fst snd squeeze strip String.append] in H.
    rewrite squeeze_push_nonempty, H. exact Hw.
Qed.
End WrapContent.

(** X24.  [wrapText] loses and reorders nothing: for every text, budget
    and measurement function, the characters of the returned lines, read
    in order with whitespace dropped, are exactly the characters of the
    text with whitespace dropped. *)
Theorem wrapText_keeps_content (maxPx : Q) (measureFn : string -> Q) (text : string) :
  squeeze (wrapText maxPx measureFn text) = strip text.
Proof. apply wrapText_content. Qed.

(* ================================================================== *)
(** * The measurement cache over a run of calls                         *)
(* ================================================================== *)

Lemma measureAll_sound (canvas_width : string -> Q -> Q) (show : Q -> string)
    (reqs : list (string * Q)) :
  (forall t fs t' fs',
     cache_key show t fs = cache_key show t' fs' ->
     canvas_width t fs = canvas_width t' fs') ->
  forall cache,
  cache_consistent canvas_width show cache ->
  fst (measureAll canvas_width show cache reqs)
  = List.map (fun r => canvas_width (fst r) (snd r)) reqs.
Proof.
  intros Hkey. induction reqs as [|[t fs] reqs IH]; intros cache Hc; [reflexivity|].
  cbn [measureAll List.map fst snd].
  destruct (measureText_cached_sound canvas_width show Hkey cache t fs Hc) as [Hw Hc'].
  destruct (_measureText canvas_width show cache t fs) as [w cache'].
  cbn [fst snd] in Hw, Hc'. specialize (IH cache' Hc').
  destruct (measureAll canvas_width show cache' reqs) as [ws cache''].
  cbn [fst] in *. rewrite Hw, IH. reflexivity.
Qed.

(** X25.  The text cache never changes a result: when equal cache keys
    mean equal canvas measurements, any run of [_measureText] calls on an
    instance, starting from the empty cache it is created with, returns
    for every call the width the canvas measures for that text and font
    size, zero widths and repeated requests included. *)
Theorem cache_is_transparent (canvas_width : string -> Q -> Q) (show : Q -> string)
    (reqs : list (string * Q)) :
  (forall t fs t' fs',
     cache_key show t fs = cache_key show t' fs' ->
     canvas_width t fs = canvas_width t' fs') ->
  fst (measureAll canvas_width show ∅ reqs)
  = List.map (fun r => canvas_width (fst r) (snd r)) reqs.
Proof.
  intros Hkey. apply (measureAll_sound canvas_width show reqs Hkey).
  apply empty_cache_consistent.
Qed.

Lemma length_append (a b : string) :
  String.length (a +:+ b) = (String.length a + String.length b)%nat.
Proof.
  induction a as [|x a IH]; [reflexivity|].
  rewrite append_cons. cbn [String.length]. rewrite IH. reflexivity.
Qed.

Lemma cache_is_transparent_witness :
  fst (measureAll eight_per_char show_fourteen ∅
         [("ab", 14); ("", 14); ("ab", 14); ("", 14); ("abc", 14)])
  = [16; 0; 16; 0; 24].
Proof.
  apply (cache_is_transparent eight_per_char show_fourteen
           [("ab", 14); ("", 14); ("ab", 14); ("", 14); ("abc", 14)]).
  intros t fs t' fs' H. unfold eight_per_char.
  apply (f_equal String.length) in H. unfold cache_key, show_fourteen in H.
  rewrite !length_append in H. simpl in H.
  replace (String.length t') with (String.length t) by lia. reflexivity.
Defined.

(* ================================================================== *)
(** * Adaptive spacing: bounds                                          *)
(* ================================================================== *)

Lemma Math_round_mono (a b : Q) : a <= b -> Math_round a <= Math_round b.
Proof.
  intros H. unfold Math_round. rewrite <- Zle_Qle. apply Qfloor_resp_le. lra.
Qed.

Lemma depthFactor_bounds (d : nat) : fl (45 # 100) <= depthFactor d /\ depthFactor d <= 1.
Proof.
  assert (H45 : fl (45 # 100) <= 1) by (vm_compute; discriminate).
  unfold depthFactor. destruct (Nat.leb_spec d 2) as [H | H]; [split; [exact H45 | lra]|].
  pose proof (Math_max_spec (fl (45 # 100)) (fdiv (25 # 10) (nat_Q d))) as (H1 & _ & H3).
  split; [exact H1|].
  assert (Hd : fdiv (25 # 10) (nat_Q d) <= 1).
  { pose proof (scale_quotient_antitone 3 d ltac:(lia) ltac:(lia)) as Hq.
    assert (H3' : fdiv (25 # 10) (nat_Q 3) <= 1) by (vm_compute; discriminate). lra. }
  destruct H3 as [-> | ->]; lra.
Qed.

Lemma depthFactor_antitone (d d' : nat) :
  (d <= d')%nat -> depthFactor d' <= depthFactor d.
Proof.
  intros Hle. pose proof (depthFactor_bounds d') as [_ Hup].
  unfold depthFactor at 2. destruct (Nat.leb_spec d 2) as [H | H]; [exact Hup|].
  unfold depthFactor. destruct (Nat.leb_spec d' 2) as [H' | H']; [lia|].
  pose proof (scale_quotient_antitone d d' ltac:(lia) Hle) as Hs.
  pose proof (Math_max_spec (fl (45 # 100)) (fdiv (25 # 10) (nat_Q d))) as (H1 & H2 & _).
  destruct (Math_max_spec (fl (45 # 100)) (fdiv (25 # 10) (nat_Q d')))
    as (_ & _ & [-> | ->]); lra.
Qed.

Lemma scaled_gap_mono (base sm f f' : Q) :
  0 <= base -> 0 <= sm -> 0 <= f -> f <= f' ->
  Math_round (fmul base (fmul sm f)) <= Math_round (fmul base (fmul sm f')).
Proof.
  intros Hb Hs H0 Hf. apply Math_round_mono.
  apply fmul_mono_r; [exact Hb | apply fmul_nonneg; assumption|].
  apply fmul_mono_r; assumption.
Qed.

(** At depth factor 1 the scaled gap is the product of base gap and
    multiplier. *)
Lemma scaled_gap_full (base sm : Q) : fmul base (fmul sm 1) = fmul base sm.
Proof. rewrite fmul_1_r. apply fmul_fl_r. Qed.

(** X26.  In the horizontal modes, with a non-negative multiplier and
    non-negative base gaps, the branch gap and the sub-level gap are never
    wider than round(base * multiplier), the gap of a tree of depth 2 at
    most, and never narrower than round(base * (multiplier * 0.45)), the
    gap of a tree of depth 6 at least, and a tree that is at least as deep
    never gets wider gaps.  The products are those of double arithmetic, as
    the code takes them. *)
Theorem adaptive_gaps_bounded (o : O.t) (root root' : node) :
  is_vertical (O.layout o) = false ->
  0 <= spacing_multiplier o ->
  0 <= O.branchSpacingX o ->
  0 <= O.subSpacingX o ->
  let sm := spacing_multiplier o in
  let sp := _computeAdaptiveSpacing o root in
  let sp' := _computeAdaptiveSpacing o root' in
  Math_round (fmul (O.branchSpacingX o) (fmul sm (45 # 100))) <= Sp.branchSpacingX sp
  /\ Sp.branchSpacingX sp <= Math_round (fmul (O.branchSpacingX o) sm)
  /\ Math_round (fmul (O.subSpacingX o) (fmul sm (45 # 100))) <= Sp.subSpacingX sp
  /\ Sp.subSpacingX sp <= Math_round (fmul (O.subSpacingX o) sm)
  /\ ((_maxDepth root <= 2)%nat ->
      Sp.branchSpacingX sp = Math_round (fmul (O.branchSpacingX o) sm)
      /\ Sp.subSpacingX sp = Math_round (fmul (O.subSpacingX o) sm))
  /\ ((6 <= _maxDepth root)%nat ->
      Sp.branchSpacingX sp = Math_round (fmul (O.branchSpacingX o) (fmul sm (45 # 100)))
      /\ Sp.subSpacingX sp = Math_round (fmul (O.subSpacingX o) (fmul sm (45 # 100))))
  /\ ((_maxDepth root <= _maxDepth root')%nat ->
      Sp.branchSpacingX sp' <= Sp.branchSpacingX sp
      /\ Sp.subSpacingX sp' <= Sp.subSpacingX sp).
Proof.
  intros Hv Hsm Hb Hs. cbv zeta. unfold _computeAdaptiveSpacing, spacing_multiplier in *.
  rewrite Hv. cbn [Sp.branchSpacingX Sp.subSpacingX].
  set (sm := match O.spacing o with Some s => s | None => 1 end) in *.
  pose proof (depthFactor_bounds (_maxDepth root)) as [Hlo Hup].
  pose proof (depthFactor_pos (_maxDepth root)) as Hpos.
  pose proof (depthFactor_pos (_maxDepth root')) as Hpos'.
  assert (H45 : 0 <= fl (45 # 100)) by (apply fl_nonneg; lra).
  rewrite <- !(fmul_fl_r sm (45 # 100)).
  rewrite <- !(scaled_gap_full _ sm).
  split; [apply scaled_gap_mono; assumption|].
  split; [apply scaled_gap_mono; try assumption; lra|].
  split; [apply scaled_gap_mono; assumption|].
  split; [apply scaled_gap_mono; try assumption; lra|].
  split.
  { intros H2. unfold depthFactor. apply Nat.leb_le in H2. rewrite H2. split; reflexivity. }
  split.
  { intros H6. rewrite (depthFactor_floor _ H6). split; reflexivity. }
  intros Hle. split; apply scaled_gap_mono; try assumption; try lra;
    apply depthFactor_antitone; assumption.
Qed.

Lemma adaptive_gaps_bounded_witness :
  let sp := _computeAdaptiveSpacing sample_scaled_options (sample_chain 0 4) in
  let sp' := _computeAdaptiveSpacing sample_scaled_options (sample_chain 0 7) in
  Math_round (fmul 200 (fmul (115 # 100) (45 # 100))) <= Sp.branchSpacingX sp
  /\ Sp.branchSpacingX sp <= Math_round (fmul 200 (115 # 100))
  /\ Math_round (fmul 170 (fmul (115 # 100) (45 # 100))) <= Sp.subSpacingX sp
  /\ Sp.subSpacingX sp <= Math_round (fmul 170 (115 # 100))
  /\ Sp.branchSpacingX sp' = Math_round (fmul 200 (fmul (115 # 100) (45 # 100)))
  /\ Sp.branchSpacingX sp' <= Sp.branchSpacingX sp
  /\ Sp.subSpacingX sp' <= Sp.subSpacingX sp.
Proof.
  destruct (adaptive_gaps_bounded sample_scaled_options (sample_chain 0 4) (sample_chain 0 7))
    as (H1 & H2 & H3 & H4 & _ & _ & H7).
  - reflexivity.
  - discriminate.
  - discriminate.
  - discriminate.
  - destruct (adaptive_gaps_bounded sample_scaled_options (sample_chain 0 7) (sample_chain 0 7))
      as (_ & _ & _ & _ & _ & H6 & _).
    + reflexivity.
    + discriminate.
    + discriminate.
    + discriminate.
    + cbv zeta. repeat split; try assumption;
        try (apply H7; simpl; lia); apply H6; simpl; lia.
Defined.

(* ================================================================== *)
(** * Left and right are mirror images                                  *)
(* ================================================================== *)

Section Mirror.
Variable sp : Sp.t.
Variable collapsed : gset nat.

Lemma layoutNode_mirror (n : node) :
  forall aL aR ny,
  aL == - aR ->
  Forall2 mirror_images
    (_layoutNode sp collapsed n aL ny "left"
       :: _drawSubtree collapsed (_layoutNode sp collapsed n aL ny "left"))
    (_layoutNode sp collapsed n aR ny "right"
       :: _drawSubtree collapsed (_layoutNode sp collapsed n aR ny "right")).
Proof.
  induction n as [n IH] using node_tree_ind. intros aL aR ny Ha.
  constructor.
  { destruct (layoutNode_box sp collapsed n aL ny "left") as (Hx & Hy & Hw & Hh & Hi & _).
    destruct (layoutNode_box sp collapsed n aR ny "right")
      as (Hx' & Hy' & Hw' & Hh' & Hi' & _).
    cbv zeta in *. unfold mirror_images.
    rewrite Hx, Hx', Hy, Hy', Hw, Hw', Hh, Hh', Hi, Hi'.
    change (String.eqb "left" "right") with false.
    change (String.eqb "right" "right") with true. cbv iota.
    repeat split; try reflexivity. qlra. }
  rewrite !drawSubtree_layoutNode.
  destruct (childless_or_collapsed collapsed n); [constructor|].
  cbv zeta.
  change (String.eqb "left" "right") with false.
  change (String.eqb "right" "right") with true. cbv iota.
  set (nL := aL - width n / 2 - width n / 2 - Sp.subSpacingX sp).
  set (nR := aR + width n / 2 + width n / 2 + Sp.subSpacingX sp).
  assert (Hn : nL == - nR) by (unfold nL, nR; qlra).
  clearbody nL nR.
  generalize (ny - sum (List.map (_subtreeHeight sp collapsed) (children n)) / 2) as cy.
  induction IH as [|c cs Hc _ IHcs]; intros cy; [constructor|].
  cbn [List.map layoutChildren]. rewrite !drawn_below_cons.
  apply Forall2_app; [apply Hc, Hn | apply IHcs].
Qed.
End Mirror.

(** X27.  A branch laid out to the left is the mirror image of the same
    branch laid out to the right from the mirrored anchor: the nodes drawn
    are the same, in the same order, each with the same size and the same
    [y], and with [x] negated, for every collapse state. *)
Theorem left_mirrors_right (sp : Sp.t) (collapsed : gset nat) (n : node)
    (anchorX ny : Q) :
  Forall2 mirror_images
    (_layoutNode sp collapsed n (- anchorX) ny "left"
       :: _drawSubtree collapsed (_layoutNode sp collapsed n (- anchorX) ny "left"))
    (_layoutNode sp collapsed n anchorX ny "right"
       :: _drawSubtree collapsed (_layoutNode sp collapsed n anchorX ny "right")).
Proof. apply layoutNode_mirror. reflexivity. Qed.
